(** * Giga-Peach: the batch generation orchestrator of [src/App.tsx]

    A shallow embedding of the state-handling code of the [App] component:
    the handlers [handleGenerate], [handleRegenerateBatch],
    [handleToggleFavorite], [handleDeleteTask] and [toggleRatio], the preset
    seeding done on start-up and the projection [groupTasksByBatch], then
    the rest of the component (reference images, lightbox, gallery, style
    dialog, credential, grouping by ratio) and what a card shows,
    followed by the properties the specification states about them and
    further properties of the code.

    React state is an explicit record; every [setX(prev => f prev)] is the
    application of [f] to the corresponding field, in program order. A
    handler without [await] runs from its call to its return without
    another handler in between; a handler that awaits is cut at the
    [await], and what it reads from its closure afterwards is an argument
    of the part that resumes. What the environment decides is an argument
    too: the value of [Date.now()], the url a generation call resolves to,
    whether the store accepts a write, and what it rejects with. Promises
    are explicit: an outstanding [generateSingleImage] call is an entry of
    [App.inflight] that records what the [then]/[catch] callbacks close
    over, and its settlement is an event of the step function [step]. An
    exception that leaves the component is the result [None]. *)

From Stdlib Require Import Ascii.
From stdpp Require Import gmap strings list fin_maps pretty.

Open Scope string_scope.
Open Scope list_scope.

(** ** Data model *)

(** The ten ratios of [portraitRatios] and [landscapeRatios]. In the source
    an [AspectRatio] is the string itself; [ratio_str] gives it back. *)
Inductive AspectRatio :=
  | R1_1 | R4_5 | R3_4 | R2_3 | R9_16
  | R5_4 | R4_3 | R3_2 | R16_9 | R21_9.

#[global] Instance AspectRatio_eq_dec : EqDecision AspectRatio.
Proof. solve_decision. Defined.

Definition ratio_str (r : AspectRatio) : string :=
  match r with
  | R1_1 => "1:1" | R4_5 => "4:5" | R3_4 => "3:4" | R2_3 => "2:3"
  | R9_16 => "9:16" | R5_4 => "5:4" | R4_3 => "4:3" | R3_2 => "3:2"
  | R16_9 => "16:9" | R21_9 => "21:9"
  end.

Definition portraitRatios : list AspectRatio := [R1_1; R4_5; R3_4; R2_3; R9_16].
Definition landscapeRatios : list AspectRatio := [R5_4; R4_3; R3_2; R16_9; R21_9].

(** Modelled from the spec: [types.ts] is not among the sources; the
    specification describes the resolution as an enumeration of three
    tiers (low, medium, high). *)
Inductive Resolution := ResLow | ResMedium | ResHigh.

Inductive Status := pending | generating | success | error.

#[global] Instance Status_eq_dec : EqDecision Status.
Proof. solve_decision. Defined.

Inductive Tab := TabCreate | TabGallery | TabFavorites.

(** [GeneratedImage]. [isFavorite] is optional: the record literal built in
    [handleGenerate] leaves it out. *)
Module Image.
Record t := mk {
  id : string;
  batchId : string;
  url : string;
  prompt : string;
  aspectRatio : AspectRatio;
  resolution : Resolution;
  timestamp : N;
  styleId : string;
  referenceImages : list string;
  isFavorite : option bool
}.

(** [{ ...image, isFavorite: v }] *)
Definition with_isFavorite (v : bool) (image : t) : t :=
  mk (id image) (batchId image) (url image) (prompt image)
     (aspectRatio image) (resolution image) (timestamp image)
     (styleId image) (referenceImages image) (Some v).

(** Truthiness of the optional flag, as [!image.isFavorite] reads it. *)
Definition favorite (image : t) : bool := default false (isFavorite image).
End Image.

(** [GenerationTask]. [batchId], [placeholder], [data] and [error] are
    optional properties. *)
Module Task.
Record t := mk {
  id : string;
  batchId : option string;
  status : Status;
  aspectRatio : AspectRatio;
  prompt : string;
  placeholder : option bool;
  data : option Image.t;
  error : option string
}.

(** [{ ...t, status: 'generating' }] *)
Definition with_status (st : Status) (x : t) : t :=
  mk (id x) (batchId x) st (aspectRatio x) (prompt x) (placeholder x)
     (data x) (error x).

(** [{ ...t, data: d }] *)
Definition with_data (d : Image.t) (x : t) : t :=
  mk (id x) (batchId x) (status x) (aspectRatio x) (prompt x)
     (placeholder x) (Some d) (error x).

(** [{ ...t, error: msg }] *)
Definition with_error (msg : string) (x : t) : t :=
  mk (id x) (batchId x) (status x) (aspectRatio x) (prompt x)
     (placeholder x) (data x) (Some msg).
End Task.

Module Preset.
Record t := mk {
  id : string;
  name : string;
  description : string;
  icon : option string;
  referenceImages : option (list string)
}.
End Preset.

Module Params.
Record t := mk {
  aspectRatios : list AspectRatio;
  resolution : Resolution;
  count : nat
}.
End Params.

Module Lightbox.
Record t := mk {
  isOpen : bool;
  images : list Image.t;
  currentIndex : nat
}.

Definition with_images (f : list Image.t → list Image.t) (l : t) : t :=
  mk (isOpen l) (f (images l)) (currentIndex l).
End Lightbox.

(** A value a promise is rejected with, other than [undefined] and
    [null]: only its [message] property is read, and it may be missing. *)
Record JsError := { message : option string }.

(** Anything a promise may be rejected with. *)
Inductive Rejection :=
  | Nullish
  | Thrown (err : JsError).

(** ** Strings *)

(** [occurs c s]: the character [c] appears in [s]. *)
Fixpoint occurs (c : ascii) (s : string) : Prop :=
  match s with
  | "" => False
  | String a s' => a = c ∨ occurs c s'
  end.

Definition dash : ascii := "-"%char.

(** A [string] stands for a JavaScript string through its UTF-8 encoding,
    the way a literal of this file is stored: equality, emptiness and
    concatenation of well-formed strings are those of their encodings. *)

(** [utf8 cp]: the encoding of a code point of the basic plane. *)
Definition bytes (l : list N) : string :=
  foldr (λ b s, String (ascii_of_N b) s) "" l.

Definition utf8 (cp : N) : string :=
  if (cp <? 0x80)%N then bytes [cp]
  else if (cp <? 0x800)%N
  then bytes [0xC0 + cp / 0x40; 0x80 + cp mod 0x40]%N
  else bytes [0xE0 + cp / 0x1000; 0x80 + (cp / 0x40) mod 0x40;
              0x80 + cp mod 0x40]%N.

(** The code points [String.prototype.trim] strips: the WhiteSpace and
    LineTerminator productions of ECMAScript, that is tab, line feed,
    vertical tab, form feed, carriage return, space, no-break space,
    the other space separators (category Zs), line separator, paragraph
    separator and the byte order mark. *)
Definition whiteSpace : list N :=
  [ 0x0009; 0x000A; 0x000B; 0x000C; 0x000D; 0x0020; 0x00A0; 0x1680;
    0x2000; 0x2001; 0x2002; 0x2003; 0x2004; 0x2005; 0x2006; 0x2007;
    0x2008; 0x2009; 0x200A; 0x2028; 0x2029; 0x202F; 0x205F; 0x3000;
    0xFEFF ]%N.

(** [isWhiteSpace w]: [w] is the encoding of one such code point. An
    encoding has one, two or three bytes, and none is the beginning of
    another. *)
Definition isWhiteSpace (w : string) : bool :=
  bool_decide (w ∈ utf8 <$> whiteSpace).

(** [s.trimStart()]: white-space code points are taken off the front as
    long as there is one. *)
Fixpoint trimStart (s : string) : string :=
  match s with
  | String a s1 =>
      if isWhiteSpace (String a "") then trimStart s1
      else
        match s1 with
        | String b s2 =>
            if isWhiteSpace (String a (String b "")) then trimStart s2
            else
              match s2 with
              | String c s3 =>
                  if isWhiteSpace (String a (String b (String c "")))
                  then trimStart s3 else s
              | "" => s
              end
        | "" => s
        end
  | "" => ""
  end.

(** [blank s]: [s] is made of white-space code points only. *)
Fixpoint blank (s : string) : bool :=
  match s with
  | String a s1 =>
      if isWhiteSpace (String a "") then blank s1
      else
        match s1 with
        | String b s2 =>
            if isWhiteSpace (String a (String b "")) then blank s2
            else
              match s2 with
              | String c s3 =>
                  isWhiteSpace (String a (String b (String c "")))
                  && blank s3
              | "" => false
              end
        | "" => false
        end
  | "" => true
  end.

(** [s.trimEnd()]: the string is cut where its blank tail begins. *)
Fixpoint trimEnd (s : string) : string :=
  match s with
  | "" => ""
  | String a s' => if blank s then "" else String a (trimEnd s')
  end.

(** [s.trim()] *)
Definition trim (s : string) : string := trimEnd (trimStart s).

(** JavaScript truthiness of a string. *)
Definition truthy (s : string) : bool := negb (bool_decide (s = "")).

(** ** Task expansion (lines 368-382) *)

(** [`${batchId}-${ratio}-${i}`] *)
Definition task_id (batchId : string) (ratio : AspectRatio) (i : nat) : string :=
  batchId +:+ "-" +:+ ratio_str ratio +:+ "-" +:+ pretty i.

Definition new_task (batchId : string) (finalPrompt : string)
    (ratio : AspectRatio) (i : nat) : Task.t :=
  {| Task.id := task_id batchId ratio i;
     Task.batchId := Some batchId;
     Task.status := pending;
     Task.aspectRatio := ratio;
     Task.prompt := finalPrompt;
     Task.placeholder := Some true;
     Task.data := None;
     Task.error := None |}.

(** [for (let i = 0; i < count; i++) newTasks.push(...)] *)
Definition push_count (batchId finalPrompt : string) (count : nat)
    (newTasks : list Task.t) (ratio : AspectRatio) : list Task.t :=
  foldl (λ acc i, acc ++ [new_task batchId finalPrompt ratio i])
        newTasks (seq 0 count).

(** [params.aspectRatios.forEach(ratio => ...)] starting from [[]]. *)
Definition expandTasks (batchId finalPrompt : string)
    (aspectRatios : list AspectRatio) (count : nat) : list Task.t :=
  foldl (push_count batchId finalPrompt count) [] aspectRatios.

(** ** The persistent store *)

(** Modelled from the spec: [services/storage] is not among the sources.
    The specification gives two independent collections keyed by [id];
    [saveImage] and [savePreset] insert or fully replace the record with
    that id, the delete operations remove it if present, and the two list
    operations return every record of the collection in a store-stable
    order. A rejected write is an input of the caller (see [Event]). *)
Module Storage.
Record t := mk {
  images : gmap string Image.t;
  presets : gmap string Preset.t
}.

Definition empty : t := mk ∅ ∅.

Definition saveImage (image : Image.t) (db : t) : t :=
  mk (<[Image.id image := image]> (images db)) (presets db).
Definition deleteImage (id : string) (db : t) : t :=
  mk (delete id (images db)) (presets db).
Definition getGallery (db : t) : list Image.t :=
  (map_to_list (images db)).*2.

Definition savePreset (preset : Preset.t) (db : t) : t :=
  mk (images db) (<[Preset.id preset := preset]> (presets db)).
Definition deletePreset (id : string) (db : t) : t :=
  mk (images db) (delete id (presets db)).
Definition getAllPresets (db : t) : list Preset.t :=
  (map_to_list (presets db)).*2.

(** Records are filed under their own id, as a store keyed by [id] has it. *)
Definition keyed (db : t) : Prop :=
  (∀ k image, images db !! k = Some image → Image.id image = k) ∧
  (∀ k preset, presets db !! k = Some preset → Preset.id preset = k).
End Storage.

(** ** Outstanding generation calls *)

(** One pending [generateSingleImage(...)] promise: the arguments it was
    called with, and the variables of [handleGenerate] that its [then] and
    [catch] callbacks close over ([task.id], [batchId], [selectedStyleId]). *)
Module Call.
Record t := mk {
  prompt : string;
  referenceImages : list string;
  aspectRatio : AspectRatio;
  resolution : Resolution;
  apiKey : string;
  baseUrl : option string;
  taskId : string;
  batchId : string;
  styleId : string
}.
End Call.

(** ** Application state *)

Module App.
Record t := mk {
  apiKey : string;
  baseUrl : string;
  isKeyModalOpen : bool;
  activeTab : Tab;
  params : Params.t;
  prompt : string;
  selectedStyleId : string;
  referenceImages : list string;
  showConfig : bool;
  allPresets : list Preset.t;
  tasks : list Task.t;
  gallery : list Image.t;
  lightboxState : Lightbox.t;
  (* outside React: the store and the promises not yet settled *)
  db : Storage.t;
  inflight : list Call.t
}.

Definition setKeyModalOpen (v : bool) (s : t) : t :=
  mk (apiKey s) (baseUrl s) v (activeTab s) (params s) (prompt s)
     (selectedStyleId s) (referenceImages s) (showConfig s) (allPresets s)
     (tasks s) (gallery s) (lightboxState s) (db s) (inflight s).
Definition setActiveTab (v : Tab) (s : t) : t :=
  mk (apiKey s) (baseUrl s) (isKeyModalOpen s) v (params s) (prompt s)
     (selectedStyleId s) (referenceImages s) (showConfig s) (allPresets s)
     (tasks s) (gallery s) (lightboxState s) (db s) (inflight s).
Definition setParams (f : Params.t → Params.t) (s : t) : t :=
  mk (apiKey s) (baseUrl s) (isKeyModalOpen s) (activeTab s) (f (params s))
     (prompt s) (selectedStyleId s) (referenceImages s) (showConfig s)
     (allPresets s) (tasks s) (gallery s) (lightboxState s) (db s)
     (inflight s).
Definition setPrompt (v : string) (s : t) : t :=
  mk (apiKey s) (baseUrl s) (isKeyModalOpen s) (activeTab s) (params s) v
     (selectedStyleId s) (referenceImages s) (showConfig s) (allPresets s)
     (tasks s) (gallery s) (lightboxState s) (db s) (inflight s).
Definition setReferenceImages (v : list string) (s : t) : t :=
  mk (apiKey s) (baseUrl s) (isKeyModalOpen s) (activeTab s) (params s)
     (prompt s) (selectedStyleId s) v (showConfig s) (allPresets s)
     (tasks s) (gallery s) (lightboxState s) (db s) (inflight s).
Definition setShowConfig (v : bool) (s : t) : t :=
  mk (apiKey s) (baseUrl s) (isKeyModalOpen s) (activeTab s) (params s)
     (prompt s) (selectedStyleId s) (referenceImages s) v (allPresets s)
     (tasks s) (gallery s) (lightboxState s) (db s) (inflight s).
Definition setAllPresets (v : list Preset.t) (s : t) : t :=
  mk (apiKey s) (baseUrl s) (isKeyModalOpen s) (activeTab s) (params s)
     (prompt s) (selectedStyleId s) (referenceImages s) (showConfig s) v
     (tasks s) (gallery s) (lightboxState s) (db s) (inflight s).
(** [setTasks(prev => f prev)] and its siblings take the updater. *)
Definition setTasks (f : list Task.t → list Task.t) (s : t) : t :=
  mk (apiKey s) (baseUrl s) (isKeyModalOpen s) (activeTab s) (params s)
     (prompt s) (selectedStyleId s) (referenceImages s) (showConfig s)
     (allPresets s) (f (tasks s)) (gallery s) (lightboxState s) (db s)
     (inflight s).
Definition setGallery (f : list Image.t → list Image.t) (s : t) : t :=
  mk (apiKey s) (baseUrl s) (isKeyModalOpen s) (activeTab s) (params s)
     (prompt s) (selectedStyleId s) (referenceImages s) (showConfig s)
     (allPresets s) (tasks s) (f (gallery s)) (lightboxState s) (db s)
     (inflight s).
Definition setLightboxState (f : Lightbox.t → Lightbox.t) (s : t) : t :=
  mk (apiKey s) (baseUrl s) (isKeyModalOpen s) (activeTab s) (params s)
     (prompt s) (selectedStyleId s) (referenceImages s) (showConfig s)
     (allPresets s) (tasks s) (gallery s) (f (lightboxState s)) (db s)
     (inflight s).
Definition onDb (f : Storage.t → Storage.t) (s : t) : t :=
  mk (apiKey s) (baseUrl s) (isKeyModalOpen s) (activeTab s) (params s)
     (prompt s) (selectedStyleId s) (referenceImages s) (showConfig s)
     (allPresets s) (tasks s) (gallery s) (lightboxState s) (f (db s))
     (inflight s).
Definition onInflight (f : list Call.t → list Call.t) (s : t) : t :=
  mk (apiKey s) (baseUrl s) (isKeyModalOpen s) (activeTab s) (params s)
     (prompt s) (selectedStyleId s) (referenceImages s) (showConfig s)
     (allPresets s) (tasks s) (gallery s) (lightboxState s) (db s)
     (f (inflight s)).

(** The [useState] initial values, an empty store, nothing in flight. *)
Definition initial : t :=
  mk "" "" false TabCreate (Params.mk [R16_9] ResMedium 4)
     "A giga peach, hand-drawn crayon style, rough texture, thick black outlines, big round eyes, cute simple face, solid vivid blue background"
     "none" [] false [] [] [] (Lightbox.mk false [] 0) Storage.empty [].
End App.

(** [loadGallery]: [setGallery(await getGallery())]. *)
Definition loadGallery (s : App.t) : App.t :=
  App.setGallery (λ _, Storage.getGallery (App.db s)) s.

(** ** [handleGenerate] (lines 345-433) *)

(** [!retryPrompt] is false only for a non-empty string. *)
Definition given (retryPrompt : option string) : bool :=
  match retryPrompt with
  | Some p => truthy p
  | None => false
  end.

(** The [setTasks] updater of line 387. *)
Definition markGenerating (id : string) (prev : list Task.t) : list Task.t :=
  map (λ t, if bool_decide (Task.id t = id)
            then Task.with_status generating t else t) prev.

(** The [setTasks] updater of lines 412-416. *)
Definition markSuccess (id : string) (generatedData : Image.t)
    (prev : list Task.t) : list Task.t :=
  map (λ t, if bool_decide (Task.id t = id)
            then Task.with_data generatedData (Task.with_status success t)
            else t) prev.

(** [err.message || "Generation failed"] *)
Definition errorMessage (err : JsError) : string :=
  match message err with
  | Some m => if truthy m then m else "Generation failed"
  | None => "Generation failed"
  end.

(** The [setTasks] updater of lines 421-425. *)
Definition markError (id : string) (err : JsError)
    (prev : list Task.t) : list Task.t :=
  map (λ t, if bool_decide (Task.id t = id)
            then Task.with_error (errorMessage err) (Task.with_status error t)
            else t) prev.

(** Lines 352-353: [retryPrompt ?? prompt] and
    [retryRefImages ?? referenceImages]. *)
Definition effectivePrompt (retryPrompt : option string) (s : App.t) : string :=
  default (App.prompt s) retryPrompt.
Definition effectiveRefImages (retryRefImages : option (list string))
    (s : App.t) : list string :=
  default (App.referenceImages s) retryRefImages.

(** Lines 360-367: the preset lookup and the resolved prompt and images. *)
Definition selectedStyle (s : App.t) : option Preset.t :=
  List.find (λ p, bool_decide (Preset.id p = App.selectedStyleId s))
            (App.allPresets s).

Definition finalPrompt (retryPrompt : option string) (s : App.t) : string :=
  match selectedStyle s with
  | Some style =>
      if negb (given retryPrompt) && negb (bool_decide (Preset.id style = "none"))
      then Preset.description style +:+ ". " +:+ effectivePrompt retryPrompt s
      else effectivePrompt retryPrompt s
  | None => effectivePrompt retryPrompt s
  end.

Definition finalRefImages (retryRefImages : option (list string))
    (s : App.t) : list string :=
  effectiveRefImages retryRefImages s ++
  match selectedStyle s with
  | Some style => default [] (Preset.referenceImages style)
  | None => []
  end.

(** The call [generateSingleImage({...})] of lines 389-396 made for [task],
    with what its callbacks keep from the enclosing scope. *)
Definition callFor (batchId fprompt : string) (frefs : list string)
    (s : App.t) (task : Task.t) : Call.t :=
  {| Call.prompt := fprompt;
     Call.referenceImages := frefs;
     Call.aspectRatio := Task.aspectRatio task;
     Call.resolution := Params.resolution (App.params s);
     Call.apiKey := App.apiKey s;
     Call.baseUrl := if truthy (App.baseUrl s)
                     then Some (App.baseUrl s) else None;
     Call.taskId := Task.id task;
     Call.batchId := batchId;
     Call.styleId := App.selectedStyleId s |}.

(** One turn of [newTasks.forEach(task => ...)]: the task is marked
    [generating], then [generateSingleImage] is called. *)
Definition dispatch (batchId fprompt : string) (frefs : list string)
    (s : App.t) (task : Task.t) : App.t :=
  let s := App.setTasks (markGenerating (Task.id task)) s in
  App.onInflight (λ q, q ++ [callFor batchId fprompt frefs s task]) s.

(** Lines 357-432, reached once both preconditions hold. [now] is the
    value of [Date.now()]. *)
Definition submit (now : N) (retryPrompt : option string)
    (retryRefImages : option (list string)) (s : App.t) : App.t :=
  let s := App.setActiveTab TabCreate s in
  let s := App.setShowConfig false s in
  let fprompt := finalPrompt retryPrompt s in
  let frefs := finalRefImages retryRefImages s in
  let batchId := pretty now in
  let newTasks :=
    expandTasks batchId fprompt (Params.aspectRatios (App.params s))
                (Params.count (App.params s)) in
  let s := App.setTasks (λ prev, prev ++ newTasks) s in
  let s := foldl (dispatch batchId fprompt frefs) s newTasks in
  if negb (given retryPrompt)
  then App.setReferenceImages [] (App.setPrompt "" s)
  else s.

Definition handleGenerate (now : N) (retryPrompt : option string)
    (retryRefImages : option (list string)) (s : App.t) : App.t :=
  if negb (truthy (App.apiKey s)) then App.setKeyModalOpen true s
  else
    if negb (truthy (trim (effectivePrompt retryPrompt s)))
       && bool_decide (length (effectiveRefImages retryRefImages s) = 0)
    then s
    else submit now retryPrompt retryRefImages s.

(** ** Settlement of a generation call (lines 397-426) *)

(** The [catch] callback. *)
Definition onRejected (c : Call.t) (err : JsError) (s : App.t) : App.t :=
  App.setTasks (markError (Call.taskId c) err) s.

(** The [then] callback, run with the generated [url] at instant [now].
    [write] is what the store answers to [saveImage]: [None] when it
    accepts the record, [Some err] when it rejects; a rejection leaves the
    callback at the [await] and is handled by the [catch] that follows. *)
Definition onFulfilled (c : Call.t) (url : string) (now : N)
    (write : option JsError) (s : App.t) : App.t :=
  let generatedData :=
    {| Image.id := Call.taskId c;
       Image.batchId := Call.batchId c;
       Image.url := url;
       Image.prompt := Call.prompt c;
       Image.aspectRatio := Call.aspectRatio c;
       Image.resolution := Call.resolution c;
       Image.timestamp := now;
       Image.styleId := Call.styleId c;
       Image.referenceImages := Call.referenceImages c;
       Image.isFavorite := None |} in
  match write with
  | Some err => onRejected c err s
  | None =>
      let s := App.onDb (Storage.saveImage generatedData) s in
      let s := App.setTasks (markSuccess (Call.taskId c) generatedData) s in
      loadGallery s
  end.

(** The same two callbacks for any rejection value. Of [undefined] or
    [null] the property [message] cannot be read: the updater of lines
    421-425 throws a TypeError at the first task that has the call's id,
    the exception escapes the state update and the component is lost, for
    which [None] stands. When no task has the id, the updater never reads
    the message. *)
Definition catchCallback (c : Call.t) (reason : Rejection) (s : App.t)
    : option App.t :=
  match reason with
  | Thrown err => Some (onRejected c err s)
  | Nullish =>
      if bool_decide (Call.taskId c ∈ Task.id <$> App.tasks s)
      then None else Some s
  end.

Definition thenCallback (c : Call.t) (url : string) (now : N)
    (write : option Rejection) (s : App.t) : option App.t :=
  match write with
  | None => Some (onFulfilled c url now None s)
  | Some reason => catchCallback c reason s
  end.

(** ** The other handlers *)

(** Lines 325-343, from the [await] on: the updaters that run once
    [saveImage] has settled, on the state [s] of that moment. [image] and
    [seenOpen], the value of [lightboxState.isOpen] tested at line 337,
    are what the closure of the handler holds; [write] is the store's
    answer. When the write is rejected the handler stops at the [await]. *)
Definition toggleFavoriteWith (seenOpen : bool) (image : Image.t)
    (write : option JsError) (s : App.t) : App.t :=
  let newStatus := negb (Image.favorite image) in
  let updatedImage := Image.with_isFavorite newStatus image in
  let swap := λ img, if bool_decide (Image.id img = Image.id image)
                     then updatedImage else img in
  match write with
  | Some _ => s
  | None =>
      let s := App.onDb (Storage.saveImage updatedImage) s in
      let s := App.setGallery (map swap) s in
      let s := App.setTasks (map (λ t,
                 if bool_decide (Image.id <$> Task.data t = Some (Image.id image))
                 then Task.with_data updatedImage t else t)) s in
      if seenOpen
      then App.setLightboxState (Lightbox.with_images (map swap)) s
      else s
  end.

(** The handler. It is called in the render of the state [rendered], whose
    [lightboxState] its closure keeps, and it is suspended while the store
    writes; [s] is the state when it resumes, after whatever happened in
    between. *)
Definition handleToggleFavorite (image : Image.t) (write : option JsError)
    (rendered s : App.t) : App.t :=
  toggleFavoriteWith (Lightbox.isOpen (App.lightboxState rendered))
                     image write s.

(** Lines 443-445. *)
Definition handleDeleteTask (id : string) (s : App.t) : App.t :=
  App.setTasks (filter (λ t, Task.id t ≠ id)) s.

(** Lines 456-465. *)
Definition handleRegenerateBatch (now : N) (batchTasks : list Task.t)
    (s : App.t) : App.t :=
  match batchTasks with
  | [] => s
  | first :: _ =>
      let firstPrompt := Task.prompt first in
      let firstData :=
        List.find (λ t, bool_decide (is_Some (Task.data t))) batchTasks
        ≫= Task.data in
      match firstData with
      | Some d =>
          handleGenerate now (Some (Image.prompt d))
                         (Some (Image.referenceImages d)) s
      | None => handleGenerate now (Some firstPrompt) None s
      end
  end.

(** Lines 537-546: a ratio is added at the end or removed, and the last
    selected ratio cannot be removed. *)
Definition toggleRatio (ratio : AspectRatio) (s : App.t) : App.t :=
  let selected := Params.aspectRatios (App.params s) in
  let exists_ := bool_decide (ratio ∈ selected) in
  if exists_ && bool_decide (length selected = 1) then s
  else
    App.setParams (λ p,
      Params.mk (if exists_
                 then filter (λ r, r ≠ ratio) (Params.aspectRatios p)
                 else Params.aspectRatios p ++ [ratio])
                (Params.resolution p) (Params.count p)) s.

(** Line 830: the count slider. *)
Definition setCount (count : nat) (s : App.t) : App.t :=
  App.setParams (λ p,
    Params.mk (Params.aspectRatios p) (Params.resolution p) count) s.

(** ** Grouping (lines 509-523) *)

(** [task.batchId || 'legacy'] *)
Definition batchKey (task : Task.t) : string :=
  match Task.batchId task with
  | Some b => if truthy b then b else "legacy"
  | None => "legacy"
  end.

(** [groups] is a plain object used as a map from batch keys to arrays.
    Its own properties are the finite map; besides them, reading a key
    finds what the object inherits from [Object.prototype]: a function
    under each of these names, and under [__proto__] the prototype itself.
    Such a value is truthy and has no [push]. *)
Definition inheritedKeys : list string :=
  [ "constructor"; "hasOwnProperty"; "isPrototypeOf";
    "propertyIsEnumerable"; "toLocaleString"; "toString"; "valueOf";
    "__defineGetter__"; "__defineSetter__"; "__lookupGetter__";
    "__lookupSetter__"; "__proto__" ].

(** [groups[bid]] *)
Inductive Read :=
  | Own (arr : list Task.t)
  | Inherited
  | Undefined.

Definition readGroup (groups : gmap string (list Task.t)) (bid : string)
    : Read :=
  match groups !! bid with
  | Some arr => Own arr
  | None => if bool_decide (bid ∈ inheritedKeys) then Inherited else Undefined
  end.

(** The body of [tasks.forEach(task => ...)], [order] being the array of
    keys. The group is created when [groups[bid]] is falsy, which an
    inherited value is not; [groups[bid].push(task)] then extends the
    array held under [bid], and throws a TypeError, for which [None]
    stands, when what is read there is not an array. *)
Definition groupStep (acc : gmap string (list Task.t) * list string)
    (task : Task.t) : option (gmap string (list Task.t) * list string) :=
  let '(groups, order) := acc in
  let bid := batchKey task in
  let '(groups, order) :=
    match readGroup groups bid with
    | Undefined => (<[bid := []]> groups, order ++ [bid])
    | Own _ | Inherited => (groups, order)
    end in
  match readGroup groups bid with
  | Own arr => Some (<[bid := arr ++ [task]]> groups, order)
  | Inherited | Undefined => None
  end.

Definition groupTasksByBatch (ts : list Task.t)
    : option (list (list Task.t)) :=
  match foldl (λ acc task, acc ≫= λ a, groupStep a task) (Some (∅, [])) ts
  with
  | Some (groups, order) => Some (map (λ bid, groups !!! bid) order)
  | None => None
  end.

(** The specification's wording of the same projection. The bucket of a
    task is its [batchId], and ["legacy"] for a task lacking one, an
    empty [batchId] counting as none. There is one group per bucket, the
    buckets stand in order of first appearance, and each group holds the
    tasks of its bucket in their order in the list. *)
Definition bucket (t : Task.t) : string :=
  match Task.batchId t with
  | Some b => if bool_decide (b = "") then "legacy" else b
  | None => "legacy"
  end.

Fixpoint firstSeen (keys : list string) : list string :=
  match keys with
  | [] => []
  | k :: rest => k :: filter (λ k', k' ≠ k) (firstSeen rest)
  end.

Definition groupByBatch_spec (ts : list Task.t) : list (list Task.t) :=
  (λ b, filter (λ t, bucket t = b) ts) <$> firstSeen (bucket <$> ts).

(** ** Preset seeding on start-up (lines 112-134) *)

Section Init.
(** [DEFAULT_PRESETS] of [constants.ts], which is not among the sources. *)
Variable DEFAULT_PRESETS : list Preset.t.

Definition defaultPresetDef : option Preset.t :=
  List.find (λ p, bool_decide (Preset.id p = "none")) DEFAULT_PRESETS.

(** Step 1: [if (defaultPresetDef) await savePreset(defaultPresetDef)]. *)
Definition migrateDefault (db : Storage.t) : Storage.t :=
  match defaultPresetDef with
  | Some d => Storage.savePreset d db
  | None => db
  end.

(** Step 2: the defaults whose id is not among the stored ones. *)
Definition missingDefaults (db : Storage.t) : list Preset.t :=
  let currentPresets := Storage.getAllPresets db in
  let existingIds : gset string := list_to_set (Preset.id <$> currentPresets) in
  filter (λ p, Preset.id p ∉ existingIds) DEFAULT_PRESETS.

Definition seedMissing (db : Storage.t) : Storage.t :=
  foldl (λ db p, Storage.savePreset p db) db (missingDefaults db).

Definition initPresets (s : App.t) : App.t :=
  let s := App.onDb migrateDefault s in
  let currentPresets := Storage.getAllPresets (App.db s) in
  let '(s, currentPresets) :=
    if bool_decide (0 < length (missingDefaults (App.db s)))
    then let s := App.onDb seedMissing s in
         (s, Storage.getAllPresets (App.db s))
    else (s, currentPresets) in
  loadGallery (App.setAllPresets currentPresets s).
End Init.

(** ** Events *)

(** What can happen to the application between two renders, as far as the
    task list and the generation parameters are concerned: every
    [setTasks] of the component is reached from one of these. [k] is the
    position of the settled call among the outstanding ones;
    [ToggleFavorite] is the moment [handleToggleFavorite] resumes, with
    what its closure holds. *)
Inductive Event :=
  | Generate (now : N)
  | RegenerateBatch (now : N) (batchTasks : list Task.t)
  | Fulfilled (k : nat) (url : string) (now : N) (write : option JsError)
  | Rejected (k : nat) (err : JsError)
  | DeleteTask (id : string)
  | ToggleFavorite (seenOpen : bool) (image : Image.t)
                   (write : option JsError)
  | ToggleRatio (ratio : AspectRatio)
  | SetCount (count : nat).

Definition settle (k : nat) (callback : Call.t → App.t → App.t)
    (s : App.t) : App.t :=
  match App.inflight s !! k with
  | Some c => callback c (App.onInflight (delete k) s)
  | None => s
  end.

Definition step (s : App.t) (e : Event) : App.t :=
  match e with
  | Generate now => handleGenerate now None None s
  | RegenerateBatch now batchTasks => handleRegenerateBatch now batchTasks s
  | Fulfilled k url now write =>
      settle k (λ c, onFulfilled c url now write) s
  | Rejected k err => settle k (λ c, onRejected c err) s
  | DeleteTask id => handleDeleteTask id s
  | ToggleFavorite seenOpen image write =>
      toggleFavoriteWith seenOpen image write s
  | ToggleRatio ratio => toggleRatio ratio s
  | SetCount count => setCount count s
  end.

Definition run (s : App.t) (es : list Event) : App.t := foldl step s es.

(** ** Auxiliary notions used in the statements *)

(** The ids of one batch, ratio by ratio and index by index. *)
Definition batchIds (batchId : string) (aspectRatios : list AspectRatio)
    (count : nat) : list string :=
  ratio ← aspectRatios; task_id batchId ratio <$> seq 0 count.

(** All the [markGenerating] updaters of one loop, as a single pass. *)
Definition markAll (ids : list string) (prev : list Task.t) : list Task.t :=
  map (λ t, if bool_decide (Task.id t ∈ ids)
            then Task.with_status generating t else t) prev.

(** No credential is configured. *)
Definition missingCredential (s : App.t) : Prop := App.apiKey s = "".

(** Nothing to generate from: a blank prompt and no reference image. *)
Definition nothingToSubmit (rp : option string) (rr : option (list string))
    (s : App.t) : Prop :=
  blank (effectivePrompt rp s) = true ∧ effectiveRefImages rr s = [].

(** A task of the session list as [handleGenerate] makes them: its batch
    id is the decimal numeral of some instant and its id derives from it. *)
Definition issued (t : Task.t) : Prop :=
  ∃ (n : N) r i,
    Task.batchId t = Some (pretty n) ∧ Task.id t = task_id (pretty n) r i.

(** ** Sample states *)

Definition nonePreset : Preset.t := Preset.mk "none" "None" "" None None.
Definition neon : Preset.t :=
  Preset.mk "neon" "Neon Noir" "Neon Noir style" None (Some ["neon.png"]).

(** A configured session: a credential, the prompt ["a cat"], two ratios,
    two images per ratio, no style selected. *)
Definition sample : App.t :=
  App.mk "key" "" false TabGallery (Params.mk [R1_1; R16_9] ResMedium 2)
         "a cat" "none" [] true [nonePreset; neon] [] []
         (Lightbox.mk false [] 0) Storage.empty [].

(** The same session with the style ["neon"] selected, one reference image
    staged by the user, and a single image asked for. *)
Definition styled : App.t :=
  App.mk "key" "" false TabCreate (Params.mk [R1_1] ResMedium 1)
         "a cat" "neon" ["user.png"] false [nonePreset; neon] [] []
         (Lightbox.mk false [] 0) Storage.empty [].

(** An image as [onFulfilled] stores it, not yet a favorite. *)
Definition catImage : Image.t :=
  Image.mk "1000-1:1-0" "1000" "blob:1" "a cat" R1_1 ResMedium 1500 "none"
           [] None.

(** A session that shows [catImage] in a finished task, in the gallery and
    in the open lightbox, next to a task that is still running. *)
Definition viewing : App.t :=
  App.mk "key" "" false TabCreate (Params.mk [R1_1] ResMedium 2)
         "" "none" [] false [nonePreset; neon]
         [ Task.mk "1000-1:1-0" (Some "1000") success R1_1 "a cat" (Some true)
                   (Some catImage) None;
           Task.mk "1000-1:1-1" (Some "1000") generating R1_1 "a cat"
                   (Some true) None None ]
         [catImage] (Lightbox.mk true [catImage] 0)
         (Storage.saveImage catImage Storage.empty)
         [ Call.mk "a cat" [] R1_1 ResMedium "key" None "1000-1:1-1" "1000"
                   "none" ].

(** Built-in presets for the examples: the sentinel and two styles. *)
Definition crayon : Preset.t :=
  Preset.mk "crayon" "Crayon" "hand-drawn crayon style" None None.
Definition builtins : list Preset.t := [nonePreset; crayon; neon].

(** A store in which the user has edited the seeded ["crayon"] preset and an
    older definition of the sentinel is kept. *)
Definition editedStore : Storage.t :=
  Storage.savePreset (Preset.mk "crayon" "My crayon" "wax pastel" None None)
    (Storage.savePreset (Preset.mk "none" "No style" "" None None)
       Storage.empty).

(** ** The life of a task *)

(** The moves of the state machine, and staying put. *)
Definition advance (a b : Status) : Prop :=
  a = b ∨ (a = pending ∧ b = generating)
  ∨ (a = generating ∧ (b = success ∨ b = error)).

(** A call as the dispatch loop queues them. *)
Definition issuedCall (c : Call.t) : Prop :=
  ∃ (n : N) r i,
    Call.batchId c = pretty n ∧ Call.taskId c = task_id (pretty n) r i.

(** The clock value [now] names no batch yet: not among the listed tasks,
    nor among the calls that are still out. *)
Definition freshInstant (now : N) (s : App.t) : Prop :=
  (∀ t, t ∈ App.tasks s → Task.batchId t ≠ Some (pretty now)) ∧
  (∀ c, c ∈ App.inflight s → Call.batchId c ≠ pretty now).

Definition admissible (s : App.t) (e : Event) : Prop :=
  match e with
  | Generate now | RegenerateBatch now _ => freshInstant now s
  | _ => True
  end.

Fixpoint admissibleRun (s : App.t) (es : list Event) : Prop :=
  match es with
  | [] => True
  | e :: es => admissible s e ∧ admissibleRun (step s e) es
  end.

(** What the session keeps true as long as every batch gets a clock value
    of its own: ids are unique in the task list and among the outstanding
    calls, both were made by [handleGenerate], the selected ratios are
    distinct, and a task whose call is still out is [generating]. *)
Record consistent (s : App.t) : Prop := {
  tasks_nodup : NoDup (Task.id <$> App.tasks s);
  calls_nodup : NoDup (Call.taskId <$> App.inflight s);
  tasks_issued : Forall issued (App.tasks s);
  calls_issued : Forall issuedCall (App.inflight s);
  ratios_nodup : NoDup (Params.aspectRatios (App.params s));
  running : ∀ t c, t ∈ App.tasks s → c ∈ App.inflight s →
                   Task.id t = Call.taskId c → Task.status t = generating
}.

(** Between two states: a task found in both (by id) has moved along
    [advance]; a task that is new has been created [pending] and is
    [generating] by the time the handler returns. *)
Definition lifecycle (s s' : App.t) : Prop :=
  (∀ t t', t ∈ App.tasks s → t' ∈ App.tasks s' →
           Task.id t = Task.id t' →
           advance (Task.status t) (Task.status t')) ∧
  (∀ t', t' ∈ App.tasks s' → Task.id t' ∉ (Task.id <$> App.tasks s) →
         ∃ t0, Task.status t0 = pending ∧
               t' = Task.with_status generating t0).

(** * The rest of the component *)

(** ** State cells that [App.t] leaves out *)

(** The [useState] cells of the style dialog (lines 91-96). *)
Module StyleForm.
Record t := mk {
  isStyleModalOpen : bool;
  editingStyleId : option string;
  styleFormName : string;
  styleFormDesc : string;
  styleFormIcon : string;
  styleFormImages : list string
}.

Definition initial : t := mk false None "" "" "" [].
End StyleForm.

Definition setSelectedStyleId (v : string) (s : App.t) : App.t :=
  App.mk (App.apiKey s) (App.baseUrl s) (App.isKeyModalOpen s)
         (App.activeTab s) (App.params s) (App.prompt s) v
         (App.referenceImages s) (App.showConfig s) (App.allPresets s)
         (App.tasks s) (App.gallery s) (App.lightboxState s) (App.db s)
         (App.inflight s).
Definition setApiKey (v : string) (s : App.t) : App.t :=
  App.mk v (App.baseUrl s) (App.isKeyModalOpen s)
         (App.activeTab s) (App.params s) (App.prompt s)
         (App.selectedStyleId s) (App.referenceImages s) (App.showConfig s)
         (App.allPresets s) (App.tasks s) (App.gallery s)
         (App.lightboxState s) (App.db s) (App.inflight s).
Definition setBaseUrl (v : string) (s : App.t) : App.t :=
  App.mk (App.apiKey s) v (App.isKeyModalOpen s)
         (App.activeTab s) (App.params s) (App.prompt s)
         (App.selectedStyleId s) (App.referenceImages s) (App.showConfig s)
         (App.allPresets s) (App.tasks s) (App.gallery s)
         (App.lightboxState s) (App.db s) (App.inflight s).

(** ** Reference images (lines 222-274) *)

(** The updater of lines 230-233 and 235-238: a loaded file joins the end
    of the list unless the list already has six entries. *)
Definition addLoaded (result : string) (prev : list string) : list string :=
  if bool_decide (6 ≤ length prev)%nat then prev else prev ++ [result].

(** [reader.onloadend] of [handleFileChange(e, false)]. *)
Definition fileLoaded (s : App.t) (result : string) : App.t :=
  App.setReferenceImages (addLoaded result (App.referenceImages s)) s.

(** [handleFileChange(e, false)] once the readers of the chosen files have
    finished, [results] being their data urls in order of completion. *)
Definition filesLoaded (results : list string) (s : App.t) : App.t :=
  foldl fileLoaded s results.

(** [reader.onloadend] of [handlePaste] (lines 263-268). [seen] is
    [referenceImages] as the closure of the handler holds it: the list of
    the render in which the paste happened. *)
Definition pasteLoaded (seen : list string) (s : App.t) (result : string)
    : App.t :=
  if bool_decide (length seen < 6)%nat
  then App.setReferenceImages (App.referenceImages s ++ [result]) s
  else s.

(** [handlePaste] for the images of one clipboard event. *)
Definition handlePaste (results : list string) (s : App.t) : App.t :=
  foldl (pasteLoaded (App.referenceImages s)) s results.

(** [prev.filter((_, i) => i !== index)] *)
Definition removeAt {A} (index : nat) (prev : list A) : list A :=
  snd <$> filter (λ p, p.1 ≠ index) (imap pair prev).

(** Lines 247-249. *)
Definition removeReferenceImage (index : nat) (s : App.t) : App.t :=
  App.setReferenceImages (removeAt index (App.referenceImages s)) s.

(** Lines 435-441 (the focus timer apart). *)
Definition handleIterate (image : Image.t) (s : App.t) : App.t :=
  let s := App.setReferenceImages [Image.url image] s in
  let s := App.setPrompt (Image.prompt image) s in
  let s := App.setActiveTab TabCreate s in
  App.setLightboxState
    (λ prev, Lightbox.mk false (Lightbox.images prev)
                         (Lightbox.currentIndex prev)) s.

(** ** The lightbox (lines 166-181 and 469-505) *)

(** [gallery.filter(img => img.isFavorite)] (lines 476 and 549). *)
Definition favoriteImages (s : App.t) : list Image.t :=
  filter (λ img, Image.favorite img = true) (App.gallery s).

(** The list [openLightbox] falls back on when it is called without one
    (lines 473-484). *)
Definition contextList (s : App.t) : list Image.t :=
  match App.activeTab s with
  | TabGallery => App.gallery s
  | TabFavorites => favoriteImages s
  | TabCreate =>
      reverse (omap Task.data
        (filter (λ t, Task.status t = success ∧ is_Some (Task.data t))
                (App.tasks s)))
  end.

(** [list.findIndex(img => img.id === id)], [None] standing for [-1]. *)
Definition findIndex (id : string) (list : list Image.t) : option nat :=
  fst <$> list_find (λ img, Image.id img = id) list.

(** Lines 469-491. *)
Definition openLightbox (image : Image.t) (sourceList : option (list Image.t))
    (s : App.t) : App.t :=
  let list := default (contextList s) sourceList in
  let index := findIndex (Image.id image) list in
  App.setLightboxState (λ _, Lightbox.mk true list (default 0 index)) s.

(** [setLightboxState(prev => ({ ...prev, isOpen: false }))] *)
Definition closeLightbox (s : App.t) : App.t :=
  App.setLightboxState
    (λ prev, Lightbox.mk false (Lightbox.images prev)
                         (Lightbox.currentIndex prev)) s.

(** The remainder operator [a % n] of JavaScript on integers: the sign of
    the result follows the dividend, and a zero divisor gives [NaN], for
    which [None] stands. *)
Definition jsRem (a n : Z) : option Z :=
  if bool_decide (n = 0%Z) then None else Some (Z.rem a n).

(** The two updaters of lines 494-497 and 501-504. [currentIndex] is a
    natural number in every state the component builds; the state in
    which it would be [NaN] is outside [Lightbox.t], and the updater
    answers [None] for it. *)
Definition moveIndex (f : Z → Z → Z) (prev : Lightbox.t) : option Lightbox.t :=
  let n := Z.of_nat (length (Lightbox.images prev)) in
  i ← jsRem (f (Z.of_nat (Lightbox.currentIndex prev)) n) n;
  Some (Lightbox.mk (Lightbox.isOpen prev) (Lightbox.images prev) (Z.to_nat i)).

Definition nextIndex : Lightbox.t → option Lightbox.t :=
  moveIndex (λ currentIndex _, currentIndex + 1)%Z.
Definition prevIndex : Lightbox.t → option Lightbox.t :=
  moveIndex (λ currentIndex n, currentIndex - 1 + n)%Z.

Definition handleNextImage (s : App.t) : option App.t :=
  lb ← nextIndex (App.lightboxState s);
  Some (App.setLightboxState (λ _, lb) s).
Definition handlePrevImage (s : App.t) : option App.t :=
  lb ← prevIndex (App.lightboxState s);
  Some (App.setLightboxState (λ _, lb) s).

(** The listener of lines 169-177; the effect installs it only while the
    lightbox is open (line 167). *)
Definition handleKeyDown (key : string) (s : App.t) : option App.t :=
  if negb (Lightbox.isOpen (App.lightboxState s)) then Some s
  else if bool_decide (key = "ArrowRight") || bool_decide (key = "d")
          || bool_decide (key = "D")
  then handleNextImage s
  else if bool_decide (key = "ArrowLeft") || bool_decide (key = "a")
          || bool_decide (key = "A")
  then handlePrevImage s
  else if bool_decide (key = "Escape") then Some (closeLightbox s)
  else Some s.

(** Keys pressed one after the other. *)
Definition handleKeys (keys : list string) (s : App.t) : option App.t :=
  foldl (λ acc key, acc ≫= handleKeyDown key) (Some s) keys.

(** Lines 447-454. [answer] is what the store answers to [deleteImage];
    a rejection stops the handler at the [await]. The lightbox is tested
    as the handler's closure holds it. *)
Definition handleDeleteGallery (id : string) (answer : option JsError)
    (s : App.t) : App.t :=
  let seen := App.lightboxState s in
  match answer with
  | Some _ => s
  | None =>
      let s := App.onDb (Storage.deleteImage id) s in
      let s := loadGallery s in
      if Lightbox.isOpen seen
         && bool_decide (Image.id <$> Lightbox.images seen
                                      !! Lightbox.currentIndex seen = Some id)
      then closeLightbox s
      else s
  end.

(** ** The style dialog (lines 188-191 and 276-323) *)

(** [refreshPresets]: [setAllPresets(await getAllPresets())]. *)
Definition refreshPresets (s : App.t) : App.t :=
  App.setAllPresets (Storage.getAllPresets (App.db s)) s.

(** Lines 276-283. *)
Definition openCreateStyleModal (s : App.t) : StyleForm.t :=
  StyleForm.mk true None "" "" ""
    (if bool_decide (0 < length (App.referenceImages s))%nat
     then App.referenceImages s else []).

(** Lines 285-292: [style.icon || ''] and [style.referenceImages || []]. *)
Definition openEditStyleModal (style : Preset.t) : StyleForm.t :=
  StyleForm.mk true (Some (Preset.id style)) (Preset.name style)
    (Preset.description style)
    (match Preset.icon style with
     | Some i => if truthy i then i else ""
     | None => ""
     end)
    (default [] (Preset.referenceImages style)).

Definition setStyleModalOpen (v : bool) (f : StyleForm.t) : StyleForm.t :=
  StyleForm.mk v (StyleForm.editingStyleId f) (StyleForm.styleFormName f)
    (StyleForm.styleFormDesc f) (StyleForm.styleFormIcon f)
    (StyleForm.styleFormImages f).

Definition setStyleFormImages (g : list string → list string)
    (f : StyleForm.t) : StyleForm.t :=
  StyleForm.mk (StyleForm.isStyleModalOpen f) (StyleForm.editingStyleId f)
    (StyleForm.styleFormName f) (StyleForm.styleFormDesc f)
    (StyleForm.styleFormIcon f) (g (StyleForm.styleFormImages f)).

(** The three text fields of the dialog as the user leaves them (the
    [onChange] handlers of lines 1168, 1178 and 1190). *)
Definition setStyleFormText (name icon desc : string) (f : StyleForm.t)
    : StyleForm.t :=
  StyleForm.mk (StyleForm.isStyleModalOpen f) (StyleForm.editingStyleId f)
    name desc icon (StyleForm.styleFormImages f).

(** [reader.onloadend] of [handleFileChange(e, true)] (lines 229-234). *)
Definition styleFileLoaded (f : StyleForm.t) (result : string) : StyleForm.t :=
  setStyleFormImages (addLoaded result) f.

(** Lines 251-253. *)
Definition removeStyleImage (index : nat) (f : StyleForm.t) : StyleForm.t :=
  setStyleFormImages (removeAt index) f.

(** [editingStyleId] where the code tests its truthiness. *)
Definition editing (f : StyleForm.t) : option string :=
  match StyleForm.editingStyleId f with
  | Some e => if truthy e then Some e else None
  | None => None
  end.

(** The record built at lines 299-305, [now] being [Date.now()]. *)
Definition formPreset (now : N) (f : StyleForm.t) : Preset.t :=
  {| Preset.id := default ("custom-" +:+ pretty now) (editing f);
     Preset.name := StyleForm.styleFormName f;
     Preset.description := StyleForm.styleFormDesc f;
     Preset.icon := Some (StyleForm.styleFormIcon f);
     Preset.referenceImages :=
       if bool_decide (0 < length (StyleForm.styleFormImages f))%nat
       then Some (StyleForm.styleFormImages f) else None |}.

(** Lines 294-312. [write] is the store's answer to [savePreset]. *)
Definition handleSaveStyle (now : N) (write : option JsError)
    (st : App.t * StyleForm.t) : App.t * StyleForm.t :=
  let '(s, f) := st in
  if negb (truthy (StyleForm.styleFormName f))
     || negb (truthy (StyleForm.styleFormDesc f))
  then st
  else
    let preset := formPreset now f in
    match write with
    | Some _ => st
    | None =>
        let s := App.onDb (Storage.savePreset preset) s in
        let s := refreshPresets s in
        (setSelectedStyleId (Preset.id preset) s, setStyleModalOpen false f)
    end.

(** Lines 314-323. [answer] is the store's answer to [deletePreset]. *)
Definition handleDeleteStyle (answer : option JsError)
    (st : App.t * StyleForm.t) : App.t * StyleForm.t :=
  let '(s, f) := st in
  match editing f with
  | None => st
  | Some editingStyleId =>
      match answer with
      | Some _ => st
      | None =>
          let selectedStyleId := App.selectedStyleId s in
          let s := App.onDb (Storage.deletePreset editingStyleId) s in
          let s := refreshPresets s in
          let s := if bool_decide (selectedStyleId = editingStyleId)
                   then setSelectedStyleId "none" s else s in
          (s, setStyleModalOpen false f)
      end
  end.

(** ** The credential (lines 105-110, 195-220 and 1092) *)

(** [localStorage], as far as the component uses it. *)
Definition LocalStorage := gmap string string.

(** Lines 107-110 of the start-up effect. *)
Definition loadKey (ls : LocalStorage) (s : App.t) : App.t :=
  let s := match ls !! "gp_api_key" with
           | Some savedKey => if truthy savedKey then setApiKey savedKey s else s
           | None => s
           end in
  match ls !! "gp_base_url" with
  | Some savedBaseUrl =>
      if truthy savedBaseUrl then setBaseUrl savedBaseUrl s else s
  | None => s
  end.

(** Lines 195-212. [keyValue] is the value of the key field ([None] when
    the field is not mounted), [urlValue] that of the base-url field. *)
Definition handleSaveKey (keyValue urlValue : option string)
    (st : App.t * LocalStorage) : App.t * LocalStorage :=
  let '(s, ls) := st in
  match trim <$> keyValue with
  | Some key =>
      if truthy key then
        let s := setApiKey key s in
        let ls := <["gp_api_key" := key]> ls in
        let '(s, ls) :=
          match trim <$> urlValue with
          | Some url =>
              if truthy url
              then (setBaseUrl url s, <["gp_base_url" := url]> ls)
              else (setBaseUrl "" s, delete "gp_base_url" ls)
          | None => (setBaseUrl "" s, delete "gp_base_url" ls)
          end in
        (App.setKeyModalOpen false s, ls)
      else st
  | None => st
  end.

(** Lines 214-220. *)
Definition handleClearKey (st : App.t * LocalStorage) : App.t * LocalStorage :=
  let '(s, ls) := st in
  let s := setBaseUrl "" (setApiKey "" s) in
  let ls := delete "gp_base_url" (delete "gp_api_key" ls) in
  (App.setKeyModalOpen false s, ls).

(** The [onClose] of the key dialog (line 1092). *)
Definition closeKeyModal (s : App.t) : App.t :=
  if truthy (App.apiKey s) then App.setKeyModalOpen false s else s.

(** ** Grouping by ratio (lines 525-532 and 676) *)

(** The body of [tasks.forEach(task => ...)]. [groups] is the object used
    as a map from ratio strings to arrays; [order] lists its keys in the
    order they were created, which is the order [Object.entries] follows
    for keys that are not array indices, as ratio strings are. *)
Definition ratioStep (acc : gmap string (list Task.t) * list string)
    (task : Task.t) : gmap string (list Task.t) * list string :=
  let '(groups, order) := acc in
  let key := ratio_str (Task.aspectRatio task) in
  let '(groups, order) :=
    match groups !! key with
    | None => (<[key := []]> groups, order ++ [key])
    | Some _ => (groups, order)
    end in
  (<[key := (groups !!! key) ++ [task]]> groups, order).

(** [Object.entries(groupTasksByRatio(tasks))] *)
Definition groupTasksByRatio (ts : list Task.t)
    : list (string * list Task.t) :=
  let '(groups, order) := foldl ratioStep (∅, []) ts in
  map (λ key, (key, groups !!! key)) order.

(** ** What a card shows ([components/ImageCard.tsx], lines 32-58) *)

Inductive CardView :=
  | Spinner
  | Failed
  | Picture (data : Image.t).

Definition cardView (task : Task.t) : CardView :=
  if bool_decide (Task.status task = pending)
     || bool_decide (Task.status task = generating)
  then Spinner
  else if bool_decide (Task.status task = error) then Failed
  else
    match Task.data task with
    | Some data => Picture data
    | None => Failed
    end.

(** The task the gallery tabs wrap an image in (lines 733-739). *)
Definition galleryCard (img : Image.t) : Task.t :=
  {| Task.id := Image.id img;
     Task.batchId := None;
     Task.status := success;
     Task.aspectRatio := Image.aspectRatio img;
     Task.prompt := Image.prompt img;
     Task.placeholder := None;
     Task.data := Some img;
     Task.error := None |}.

(** ** The shape of a task *)

(** A [success] task holds the image made for it, an [error] task holds a
    message and no image, and a task that is still waiting or running
    holds neither. *)
Definition shapedTask (t : Task.t) : Prop :=
  match Task.status t with
  | success => ∃ d, Task.data t = Some d ∧ Image.id d = Task.id t
  | error => is_Some (Task.error t) ∧ Task.data t = None
  | pending | generating => Task.data t = None ∧ Task.error t = None
  end.

(** * Properties *)

(** Closed decidable facts, by evaluation. *)
Ltac by_compute :=
  match goal with
  | |- ?P => apply (@bool_decide_unpack P _); vm_compute; exact I
  end.

(** ** Strings and task ids *)

Lemma occurs_app c s1 s2 : occurs c (s1 +:+ s2) ↔ occurs c s1 ∨ occurs c s2.
Proof.
  induction s1 as [|a s1 IH]; simpl.
  - change ("" +:+ s2) with s2. tauto.
  - change (String a s1 +:+ s2) with (String a (s1 +:+ s2)). simpl. tauto.
Qed.

(** Two strings cut at their first [c] agree piecewise. *)
Lemma cut_at_first c s1 s2 t1 t2 :
  ¬ occurs c s1 → ¬ occurs c s2 →
  s1 +:+ String c t1 = s2 +:+ String c t2 → s1 = s2 ∧ t1 = t2.
Proof.
  revert s2. induction s1 as [|a s1 IH]; intros [|b s2] H1 H2 E.
  - by injection E.
  - injection E as -> _. destruct H2. by left.
  - injection E as -> _. destruct H1. by left.
  - injection E as -> E. simpl in H1, H2.
    destruct (IH s2) as [-> ->]; [tauto | tauto | done | done].
Qed.

Lemma pretty_N_go_no_dash x s :
  ¬ occurs dash s → ¬ occurs dash (pretty_N_go x s).
Proof.
  revert s. induction (N.lt_wf_0 x) as [x _ IH]; intros s Hs.
  assert (x = 0 ∨ 0 < x)%N as [->|?] by lia.
  - by rewrite pretty_N_go_0.
  - rewrite pretty_N_go_step by done. apply IH.
    { by apply N.div_lt. }
    simpl. intros [E|?]; [|done].
    revert E. unfold pretty_N_char, dash. by repeat case_match.
Qed.

Lemma pretty_N_no_dash (n : N) : ¬ occurs dash (pretty n).
Proof.
  unfold pretty, pretty_N. case_decide.
  - simpl. intros [E|[]]. discriminate E.
  - apply pretty_N_go_no_dash. simpl. tauto.
Qed.

Lemma pretty_nat_no_dash (i : nat) : ¬ occurs dash (pretty i).
Proof. apply pretty_N_no_dash. Qed.

Lemma ratio_str_no_dash r : ¬ occurs dash (ratio_str r).
Proof. destruct r; simpl; unfold dash; intuition discriminate. Qed.

Lemma ratio_str_inj r r' : ratio_str r = ratio_str r' → r = r'.
Proof. destruct r, r'; simpl; intros E; (done || discriminate E). Qed.

(** The id determines the batch, the ratio and the index, as long as the
    batch ids themselves have no dash: they are decimal numerals. *)
Lemma task_id_inj b b' r r' i i' :
  ¬ occurs dash b → ¬ occurs dash b' →
  task_id b r i = task_id b' r' i' → b = b' ∧ r = r' ∧ i = i'.
Proof.
  unfold task_id. intros Hb Hb' E.
  change ("-" +:+ ?x) with (String dash x) in E.
  apply cut_at_first in E as [-> E]; [|done..].
  apply cut_at_first in E as [Er Ei]; [|apply ratio_str_no_dash..].
  split; [done|]. split; [by apply ratio_str_inj|].
  by apply (inj pretty).
Qed.

(** ** Expansion and dispatch *)

Lemma push_count_app b p count acc ratio :
  push_count b p count acc ratio = acc ++ (new_task b p ratio <$> seq 0 count).
Proof.
  unfold push_count. generalize (seq 0 count) as l. intros l. revert acc.
  induction l as [|i l IH]; intros acc; simpl.
  - by rewrite app_nil_r.
  - rewrite IH. by rewrite <- app_assoc.
Qed.

Lemma expandTasks_bind b p ratios count :
  expandTasks b p ratios count
  = ratio ← ratios; new_task b p ratio <$> seq 0 count.
Proof.
  unfold expandTasks.
  enough (∀ acc, foldl (push_count b p count) acc ratios
                 = acc ++ (ratio ← ratios; new_task b p ratio <$> seq 0 count))
    as H by apply (H []).
  induction ratios as [|r ratios IH]; intros acc.
  - simpl. by rewrite app_nil_r.
  - rewrite bind_cons. simpl. rewrite IH, push_count_app.
    by rewrite <- app_assoc.
Qed.

Lemma expandTasks_ids b p ratios count :
  Task.id <$> expandTasks b p ratios count = batchIds b ratios count.
Proof.
  rewrite expandTasks_bind. unfold batchIds.
  induction ratios as [|r ratios IH]; [done|].
  rewrite !bind_cons, fmap_app, IH. f_equal.
  rewrite <- list_fmap_compose. done.
Qed.

Lemma expandTasks_length b p ratios count :
  length (expandTasks b p ratios count) = length ratios * count.
Proof.
  rewrite expandTasks_bind.
  induction ratios as [|r ratios IH]; [done|].
  rewrite bind_cons, length_app, IH, length_fmap, length_seq. done.
Qed.

Lemma expandTasks_elem b p ratios count t :
  t ∈ expandTasks b p ratios count ↔
  ∃ r i, r ∈ ratios ∧ i < count ∧ t = new_task b p r i.
Proof.
  rewrite expandTasks_bind, list_elem_of_bind. split.
  - intros (r & Ht & Hr). apply list_elem_of_fmap in Ht as (i & -> & Hi).
    apply elem_of_seq in Hi. exists r, i. split; [done|]. split; [lia|done].
  - intros (r & i & Hr & Hi & ->). exists r. split; [|done].
    apply list_elem_of_fmap. exists i. split; [done|].
    apply elem_of_seq. lia.
Qed.

Lemma batchIds_NoDup b ratios count :
  ¬ occurs dash b → NoDup ratios → NoDup (batchIds b ratios count).
Proof.
  intros Hb. unfold batchIds.
  induction 1 as [|r ratios Hr Hnd IH]; [constructor|].
  rewrite bind_cons. apply NoDup_app. split; [|split; [|done]].
  - apply NoDup_fmap_2; [|apply NoDup_seq].
    intros i j E. by apply task_id_inj in E as (_ & _ & ?).
  - intros x Hx Hx'. apply list_elem_of_fmap in Hx as (i & -> & _).
    apply list_elem_of_bind in Hx' as (r' & Hx' & Hr').
    apply list_elem_of_fmap in Hx' as (j & E & _).
    apply task_id_inj in E as (_ & -> & _); done.
Qed.

(** *** Updaters keep ids and positions *)

Lemma markGenerating_ids id ts : Task.id <$> markGenerating id ts = Task.id <$> ts.
Proof.
  unfold markGenerating. rewrite <- list_fmap_compose.
  apply list_fmap_ext. intros k t _. simpl. by case_bool_decide.
Qed.

Lemma markSuccess_ids id d ts : Task.id <$> markSuccess id d ts = Task.id <$> ts.
Proof.
  unfold markSuccess. rewrite <- list_fmap_compose.
  apply list_fmap_ext. intros k t _. simpl. by case_bool_decide.
Qed.

Lemma markError_ids id err ts : Task.id <$> markError id err ts = Task.id <$> ts.
Proof.
  unfold markError. rewrite <- list_fmap_compose.
  apply list_fmap_ext. intros k t _. simpl. by case_bool_decide.
Qed.

(** An updater that selects by id leaves a list without that id alone. *)
Lemma markGenerating_absent id ts :
  id ∉ Task.id <$> ts → markGenerating id ts = ts.
Proof.
  intros H. unfold markGenerating. rewrite <- (list_fmap_id ts) at 2.
  apply list_fmap_ext. intros k t Ht. simpl. case_bool_decide; [|done].
  destruct H. apply list_elem_of_fmap. exists t. split; [done|].
  by eapply list_elem_of_lookup_2.
Qed.

Lemma markSuccess_absent id d ts :
  id ∉ Task.id <$> ts → markSuccess id d ts = ts.
Proof.
  intros H. unfold markSuccess. rewrite <- (list_fmap_id ts) at 2.
  apply list_fmap_ext. intros k t Ht. simpl. case_bool_decide; [|done].
  destruct H. apply list_elem_of_fmap. exists t. split; [done|].
  by eapply list_elem_of_lookup_2.
Qed.

Lemma markError_absent id err ts :
  id ∉ Task.id <$> ts → markError id err ts = ts.
Proof.
  intros H. unfold markError. rewrite <- (list_fmap_id ts) at 2.
  apply list_fmap_ext. intros k t Ht. simpl. case_bool_decide; [|done].
  destruct H. apply list_elem_of_fmap. exists t. split; [done|].
  by eapply list_elem_of_lookup_2.
Qed.

(** *** The dispatch loop *)

Lemma markAll_nil ts : markAll [] ts = ts.
Proof.
  unfold markAll. rewrite <- (list_fmap_id ts) at 2.
  by apply list_fmap_ext.
Qed.

Lemma markAll_cons id ids ts :
  markAll (id :: ids) ts = markAll ids (markGenerating id ts).
Proof.
  unfold markAll, markGenerating.
  rewrite <- list_fmap_compose. apply list_fmap_ext. intros k t _. simpl.
  destruct (decide (Task.id t = id)) as [E|E].
  - rewrite (bool_decide_eq_true_2 _ E). simpl.
    rewrite (bool_decide_eq_true_2 (Task.id t ∈ id :: ids)); [|rewrite E; left].
    by case_bool_decide.
  - rewrite (bool_decide_eq_false_2 _ E).
    destruct (decide (Task.id t ∈ ids)) as [H|H].
    + rewrite (bool_decide_eq_true_2 _ H).
      rewrite bool_decide_eq_true_2; [done|by right].
    + rewrite (bool_decide_eq_false_2 _ H).
      rewrite bool_decide_eq_false_2; [done|].
      by intros [?|?]%elem_of_cons.
Qed.

Lemma foldl_markGenerating l ts :
  foldl (λ ts t, markGenerating (Task.id t) ts) ts l
  = markAll (Task.id <$> l) ts.
Proof.
  revert ts. induction l as [|x l IH]; intros ts; simpl.
  - by rewrite markAll_nil.
  - by rewrite IH, markAll_cons.
Qed.

Lemma markAll_ids ids ts : Task.id <$> markAll ids ts = Task.id <$> ts.
Proof.
  unfold markAll. rewrite <- list_fmap_compose.
  apply list_fmap_ext. intros k t _. simpl. by case_bool_decide.
Qed.

Lemma markAll_disjoint ids ts :
  (∀ t, t ∈ ts → Task.id t ∉ ids) → markAll ids ts = ts.
Proof.
  intros H. unfold markAll. rewrite <- (list_fmap_id ts) at 2.
  apply list_fmap_ext. intros k t Ht. simpl. case_bool_decide as E; [|done].
  destruct (H t); [by eapply list_elem_of_lookup_2|done].
Qed.

Lemma markAll_all ids ts :
  (∀ t, t ∈ ts → Task.id t ∈ ids) →
  markAll ids ts = Task.with_status generating <$> ts.
Proof.
  intros H. unfold markAll. apply list_fmap_ext. intros k t Ht.
  rewrite bool_decide_eq_true_2; [done|].
  apply H. by eapply list_elem_of_lookup_2.
Qed.

(** The loop as a whole: one pass over the task list, and one call per
    new task, queued in the order of the tasks. *)
Lemma foldl_dispatch b p r l s :
  foldl (dispatch b p r) s l
  = App.onInflight (λ q, q ++ (callFor b p r s <$> l))
      (App.setTasks (markAll (Task.id <$> l)) s).
Proof.
  revert s. induction l as [|x l IH]; intros s.
  - destruct s. unfold App.onInflight, App.setTasks. simpl.
    by rewrite app_nil_r, markAll_nil.
  - simpl foldl at 1. rewrite IH. destruct s.
    unfold dispatch, App.onInflight, App.setTasks, callFor. simpl.
    by rewrite <- app_assoc, markAll_cons.
Qed.

(** The state [submit] leaves behind, field by field. *)
Lemma submit_tasks now rp rr s :
  App.tasks (submit now rp rr s)
  = let newTasks :=
      expandTasks (pretty now) (finalPrompt rp s)
        (Params.aspectRatios (App.params s)) (Params.count (App.params s)) in
    markAll (Task.id <$> newTasks) (App.tasks s ++ newTasks).
Proof.
  unfold submit. rewrite foldl_dispatch. destruct s, (given rp); reflexivity.
Qed.

Lemma submit_inflight now rp rr s :
  App.inflight (submit now rp rr s)
  = App.inflight s ++
    (callFor (pretty now) (finalPrompt rp s) (finalRefImages rr s) s <$>
     expandTasks (pretty now) (finalPrompt rp s)
       (Params.aspectRatios (App.params s)) (Params.count (App.params s))).
Proof.
  unfold submit. rewrite foldl_dispatch. destruct s, (given rp); reflexivity.
Qed.

Lemma submit_frame now rp rr s :
  let s' := submit now rp rr s in
  App.db s' = App.db s ∧ App.gallery s' = App.gallery s ∧
  App.params s' = App.params s ∧ App.apiKey s' = App.apiKey s ∧
  App.allPresets s' = App.allPresets s ∧
  App.selectedStyleId s' = App.selectedStyleId s ∧
  App.lightboxState s' = App.lightboxState s.
Proof.
  unfold submit. rewrite foldl_dispatch. destruct s, (given rp); done.
Qed.

(** *** The two preconditions *)

Lemma trimEnd_empty s : trimEnd s = "" ↔ blank s = true.
Proof.
  destruct s as [|a s]; [done|].
  change (trimEnd (String a s))
    with (if blank (String a s) then "" else String a (trimEnd s)).
  by destruct (blank (String a s)).
Qed.

(** Induction on strings that may step over up to three bytes. *)
Lemma string_ind3 (P : string → Prop) :
  P "" →
  (∀ a s, (∀ s', (String.length s' ≤ String.length s)%nat → P s') → P (String a s)) →
  ∀ s, P s.
Proof.
  intros H0 Hstep s.
  assert (∀ n s, (String.length s ≤ n)%nat → P s) as H.
  { induction n as [|n IH]; intros [|a s'] Hlen; simpl in *;
      try done; try lia.
    apply Hstep. intros s'' Hs''. apply IH. lia. }
  by apply (H (String.length s)).
Qed.

Lemma blank_trimStart s : blank (trimStart s) = blank s.
Proof.
  induction s as [|a s IH] using string_ind3; [done|].
  simpl. destruct (isWhiteSpace (String a "")) eqn:E1.
  { apply IH. lia. }
  destruct s as [|b s]; simpl; [by rewrite E1|].
  destruct (isWhiteSpace (String a (String b ""))) eqn:E2.
  { apply IH. simpl. lia. }
  destruct s as [|c s]; simpl; [by rewrite E1, E2|].
  destruct (isWhiteSpace (String a (String b (String c "")))) eqn:E3.
  { simpl. apply IH. simpl. lia. }
  simpl. by rewrite E1, E2, E3.
Qed.

(** [!s.trim()] holds exactly for the strings made of white space only. *)
Lemma trim_empty s : trim s = "" ↔ blank s = true.
Proof. unfold trim. by rewrite trimEnd_empty, blank_trimStart. Qed.

(** What [blank] accepts: the concatenations of encoded white-space code
    points. *)
Lemma blank_whiteSpace_cons cp s :
  cp ∈ whiteSpace → blank (utf8 cp +:+ s) = blank s.
Proof.
  revert cp. apply Forall_forall.
  repeat (apply Forall_cons; split; [reflexivity|]). constructor.
Qed.

Lemma blank_spec s :
  blank s = true
  ↔ ∃ cps, Forall (λ cp, cp ∈ whiteSpace) cps ∧
           s = foldr (λ cp r, utf8 cp +:+ r) "" cps.
Proof.
  split.
  - induction s as [|a s IH] using string_ind3; [by exists []|].
    assert (∀ w r, isWhiteSpace w = true →
                   (String.length r ≤ String.length s)%nat →
                   blank r = true →
                   ∃ cps, Forall (λ cp, cp ∈ whiteSpace) cps ∧
                          w +:+ r = foldr (λ cp r, utf8 cp +:+ r) "" cps)
      as Hstep.
    { intros w r Hw Hlen Hr. apply bool_decide_eq_true in Hw.
      apply list_elem_of_fmap in Hw as (cp & -> & Hcp).
      destruct (IH r Hlen Hr) as (cps & Hcps & ->).
      exists (cp :: cps). split; [by constructor|done]. }
    simpl. destruct (isWhiteSpace (String a "")) eqn:E1.
    { intros Hb. by apply (Hstep (String a "") s). }
    destruct s as [|b s]; [done|].
    destruct (isWhiteSpace (String a (String b ""))) eqn:E2.
    { intros Hb. apply (Hstep (String a (String b "")) s); [done|simpl; lia|done]. }
    destruct s as [|c s]; [done|].
    intros [E3 Hb]%andb_true_iff.
    apply (Hstep (String a (String b (String c ""))) s); [done|simpl; lia|done].
  - intros (cps & Hcps & ->). induction Hcps as [|cp cps Hcp _ IH]; [done|].
    simpl. by rewrite blank_whiteSpace_cons.
Qed.

Lemma truthy_false s : truthy s = false ↔ s = "".
Proof. unfold truthy. case_bool_decide; simpl; intuition congruence. Qed.

Lemma truthy_true s : truthy s = true ↔ s ≠ "".
Proof. unfold truthy. case_bool_decide; simpl; intuition congruence. Qed.

Lemma handleGenerate_missingCredential now rp rr s :
  missingCredential s →
  handleGenerate now rp rr s = App.setKeyModalOpen true s.
Proof.
  unfold missingCredential, handleGenerate. intros ->. done.
Qed.

Lemma handleGenerate_nothingToSubmit now rp rr s :
  ¬ missingCredential s → nothingToSubmit rp rr s →
  handleGenerate now rp rr s = s.
Proof.
  unfold missingCredential, nothingToSubmit, handleGenerate.
  intros Hk [Hp Hr]. apply truthy_true in Hk. rewrite Hk. simpl.
  apply trim_empty, truthy_false in Hp. rewrite Hp, Hr. done.
Qed.

Lemma handleGenerate_submit now rp rr s :
  ¬ missingCredential s → ¬ nothingToSubmit rp rr s →
  handleGenerate now rp rr s = submit now rp rr s.
Proof.
  unfold missingCredential, nothingToSubmit, handleGenerate.
  intros Hk Hn. apply truthy_true in Hk. rewrite Hk. simpl.
  destruct (truthy (trim (effectivePrompt rp s))) eqn:Ht; simpl; [done|].
  case_bool_decide as Hl; [|done].
  destruct Hn. split.
  - by apply trim_empty, truthy_false.
  - by apply nil_length_inv.
Qed.

(** *** Positions of the new ids *)

Lemma batchIds_length b ratios count :
  length (batchIds b ratios count) = length ratios * count.
Proof. by rewrite <- (expandTasks_ids b ""), length_fmap, expandTasks_length. Qed.

Lemma batchIds_lookup b ratios count j r i :
  ratios !! j = Some r → i < count →
  batchIds b ratios count !! (j * count + i) = Some (task_id b r i).
Proof.
  unfold batchIds. revert j.
  induction ratios as [|r0 ratios IH]; intros j Hj Hi; [done|].
  rewrite bind_cons. destruct j as [|j]; simpl in Hj.
  - injection Hj as ->. rewrite lookup_app_l by (rewrite length_fmap, length_seq; lia).
    rewrite list_lookup_fmap, lookup_seq_lt by done. done.
  - rewrite lookup_app_r by (rewrite length_fmap, length_seq; lia).
    rewrite length_fmap, length_seq.
    replace (S j * count + i - count) with (j * count + i) by lia.
    by apply IH.
Qed.

(** ** Batch expansion *)

(** Ids issued for another instant never collide with those of a batch. *)
Lemma issued_fresh (now : N) ratios count t :
  issued t → Task.batchId t ≠ Some (pretty now) →
  Task.id t ∉ batchIds (pretty now) ratios count.
Proof.
  intros (n & r & i & Hb & Hid) Hne Hin.
  apply list_elem_of_bind in Hin as (r' & Hin & _).
  apply list_elem_of_fmap in Hin as (i' & E & _).
  rewrite Hid in E.
  apply task_id_inj in E as (E & _); [|apply pretty_N_no_dash..].
  apply Hne. by rewrite Hb, E.
Qed.

Lemma submit_ids now rp rr s :
  Task.id <$> App.tasks (submit now rp rr s)
  = (Task.id <$> App.tasks s) ++
    batchIds (pretty now) (Params.aspectRatios (App.params s))
             (Params.count (App.params s)).
Proof.
  rewrite submit_tasks. simpl.
  by rewrite markAll_ids, fmap_app, expandTasks_ids.
Qed.

Lemma submit_new_tasks now rp rr s :
  drop (length (App.tasks s)) (App.tasks (submit now rp rr s))
  = Task.with_status generating <$>
    expandTasks (pretty now) (finalPrompt rp s)
      (Params.aspectRatios (App.params s)) (Params.count (App.params s)).
Proof.
  rewrite submit_tasks. simpl. unfold markAll at 1.
  rewrite map_app, drop_app_length'; [|by rewrite length_map].
  apply markAll_all. intros t Ht. by apply list_elem_of_fmap_2.
Qed.

(** With a clock value of its own, a submission leaves the old tasks as
    they are and adds the new ones, all [generating]. *)
Lemma submit_tasks_fresh now rp rr s :
  Forall issued (App.tasks s) →
  (∀ t, t ∈ App.tasks s → Task.batchId t ≠ Some (pretty now)) →
  App.tasks (submit now rp rr s)
  = App.tasks s ++
    (Task.with_status generating <$>
     expandTasks (pretty now) (finalPrompt rp s)
       (Params.aspectRatios (App.params s)) (Params.count (App.params s))).
Proof.
  intros Hiss Hfresh. rewrite submit_tasks. cbv zeta. unfold markAll at 1.
  rewrite map_app. f_equal.
  - apply markAll_disjoint. intros t Ht. rewrite expandTasks_ids.
    apply issued_fresh; [|by apply Hfresh].
    rewrite Forall_forall in Hiss. by apply Hiss.
  - apply markAll_all. intros t Ht. by apply list_elem_of_fmap_2.
Qed.

Lemma submit_length now rp rr s :
  length (App.tasks (submit now rp rr s))
  = length (App.tasks s)
    + length (Params.aspectRatios (App.params s)) * Params.count (App.params s).
Proof.
  rewrite <- (length_fmap Task.id), submit_ids, length_app, length_fmap.
  by rewrite batchIds_length.
Qed.

(** C1 (amended). A submission that passes both preconditions appends
    exactly [|aspectRatios| × count] tasks to the list. Their ids are
    ["{batchId}-{ratio}-{i}"] with [batchId] the decimal numeral of the
    submission instant, laid out ratio by ratio in the order of
    [params.aspectRatios] and, within a ratio, by [i] ascending from 0;
    each carries that [batchId]. Provided the ids of the list were
    pairwise distinct before, the selected ratios are pairwise distinct,
    and no task already in the list belongs to a batch of the same
    instant, the ids of the whole list are pairwise distinct afterwards
    and the tasks that were there are left as they were. *)
Theorem handleGenerate_expansion now rp rr s :
  ¬ missingCredential s → ¬ nothingToSubmit rp rr s →
  let s' := handleGenerate now rp rr s in
  let batchId := pretty now in
  let ratios := Params.aspectRatios (App.params s) in
  let count := Params.count (App.params s) in
  length (App.tasks s') = length (App.tasks s) + length ratios * count ∧
  Task.id <$> App.tasks s'
    = (Task.id <$> App.tasks s) ++ batchIds batchId ratios count ∧
  (∀ j r i, ratios !! j = Some r → i < count →
     (Task.id <$> App.tasks s') !! (length (App.tasks s) + (j * count + i))
     = Some (task_id batchId r i)) ∧
  (∀ t, t ∈ drop (length (App.tasks s)) (App.tasks s') →
     Task.batchId t = Some batchId) ∧
  (NoDup (Task.id <$> App.tasks s) → Forall issued (App.tasks s) →
   (∀ t, t ∈ App.tasks s → Task.batchId t ≠ Some batchId) →
   NoDup ratios →
   NoDup (Task.id <$> App.tasks s') ∧
   take (length (App.tasks s)) (App.tasks s') = App.tasks s).
Proof.
  intros Hk Hn. simpl. rewrite (handleGenerate_submit _ _ _ _ Hk Hn).
  pose proof (submit_ids now rp rr s) as Hids.
  split; [|split; [done|split; [|split]]].
  - apply submit_length.
  - intros j r i Hj Hi. rewrite Hids, lookup_app_r by (rewrite length_fmap; lia).
    rewrite length_fmap.
    replace (length (App.tasks s) + (j * Params.count (App.params s) + i)
             - length (App.tasks s))
      with (j * Params.count (App.params s) + i) by lia.
    by apply batchIds_lookup.
  - intros t. rewrite submit_new_tasks. intros Ht.
    apply list_elem_of_fmap in Ht as (t0 & -> & Ht).
    apply expandTasks_elem in Ht as (r & i & _ & _ & ->). done.
  - intros Hnd Hiss Hfresh Hr. split.
    + rewrite Hids. apply NoDup_app.
      split; [done|].
      split; [|apply batchIds_NoDup; [apply pretty_N_no_dash|done]].
      intros x Hx. apply list_elem_of_fmap in Hx as (t & -> & Ht).
      apply issued_fresh; [|by apply Hfresh].
      rewrite Forall_forall in Hiss. by apply Hiss.
    + rewrite submit_tasks_fresh by done. by rewrite take_app_length.
Qed.

Lemma handleGenerate_expansion_witness :
  let s := handleGenerate 5 None None sample in
  let s' := handleGenerate 7 (Some "a cat") None s in
  Task.id <$> App.tasks s'
  = ["5-1:1-0"; "5-1:1-1"; "5-16:9-0"; "5-16:9-1";
     "7-1:1-0"; "7-1:1-1"; "7-16:9-0"; "7-16:9-1"]
  ∧ NoDup (Task.id <$> App.tasks s').
Proof.
  destruct (handleGenerate_expansion 7 (Some "a cat") None
              (handleGenerate 5 None None sample))
    as (_ & Hids & _ & _ & Hnd).
  - intros H. vm_compute in H. discriminate H.
  - intros [H _]. vm_compute in H. discriminate H.
  - split; [exact Hids|]. apply Hnd.
    + by_compute.
    + vm_compute. repeat constructor.
      * by exists 5%N, R1_1, 0.
      * by exists 5%N, R1_1, 1.
      * by exists 5%N, R16_9, 0.
      * by exists 5%N, R16_9, 1.
    + intros t Ht. vm_compute in Ht. 
      repeat (apply elem_of_cons in Ht as [->|Ht]; [discriminate|]).
      by apply elem_of_nil in Ht.
    + by_compute.
Defined.

(** C1 (counterexample). Two submissions that read the same instant from
    the clock, here a batch and its immediate regeneration, put the same
    id into the list twice. *)
Lemma handleGenerate_same_instant_duplicates :
  let s1 := handleGenerate 1000 None None sample in
  let s2 := handleRegenerateBatch 1000 (App.tasks s1) s1 in
  ¬ missingCredential s1 ∧
  length (App.tasks s2) = length (App.tasks s1) + 2 * 2 ∧
  ¬ NoDup (Task.id <$> App.tasks s2).
Proof.
  split; [|split].
  - intros H. vm_compute in H. discriminate H.
  - vm_compute. reflexivity.
  - by_compute.
Qed.

(** ** Preconditions of a submission *)

(** The guard does not look at the style. *)
Lemma nothingToSubmit_style rp rr id presets s :
  nothingToSubmit rp rr (setSelectedStyleId id (App.setAllPresets presets s))
  ↔ nothingToSubmit rp rr s.
Proof. by destruct s. Qed.

(** C5 (amended). [handleGenerate] returns before creating any task in
    exactly two cases. Without a credential it only opens the key dialog:
    the task list, the outstanding calls and the store are as before, so
    no error is attached to any task. With a credential, when the prompt
    it is given (the retry argument if there is one, else the prompt of
    the composer) is made of white-space code points only and the list of
    reference images it is given is empty, it returns the state untouched.
    This test comes before the style is resolved: it reads neither the
    description nor the images of the selected preset, and gives the same
    answer whatever preset is selected. In every other case the handler
    goes on to the expansion, after which the list has
    [|aspectRatios| × count] more tasks and as many more calls are
    outstanding. *)
Theorem handleGenerate_preconditions now rp rr s :
  let s' := handleGenerate now rp rr s in
  (missingCredential s →
     s' = App.setKeyModalOpen true s ∧
     App.isKeyModalOpen s' = true ∧
     App.tasks s' = App.tasks s ∧ App.inflight s' = App.inflight s ∧
     App.db s' = App.db s) ∧
  (¬ missingCredential s → nothingToSubmit rp rr s →
     s' = s ∧
     ∀ id presets,
       let other := setSelectedStyleId id (App.setAllPresets presets s) in
       handleGenerate now rp rr other = other) ∧
  (¬ missingCredential s → ¬ nothingToSubmit rp rr s →
     s' = submit now rp rr s ∧
     App.activeTab s' = TabCreate ∧
     length (App.tasks s')
       = length (App.tasks s)
         + length (Params.aspectRatios (App.params s))
           * Params.count (App.params s) ∧
     length (App.inflight s')
       = length (App.inflight s)
         + length (Params.aspectRatios (App.params s))
           * Params.count (App.params s)) ∧
  (nothingToSubmit rp rr s
   ↔ (∃ cps, Forall (λ cp, cp ∈ whiteSpace) cps ∧
             default (App.prompt s) rp
             = foldr (λ cp r, utf8 cp +:+ r) "" cps) ∧
     default (App.referenceImages s) rr = []).
Proof.
  simpl. split; [|split; [|split]].
  - intros Hk. rewrite handleGenerate_missingCredential by done.
    by destruct s.
  - intros Hk Hn. split; [by apply handleGenerate_nothingToSubmit|].
    intros id presets. apply handleGenerate_nothingToSubmit.
    + by destruct s.
    + by apply nothingToSubmit_style.
  - intros Hk Hn. rewrite (handleGenerate_submit _ _ _ _ Hk Hn).
    split; [done|]. split; [|split; [apply submit_length|]].
    + unfold submit. rewrite foldl_dispatch. by destruct s, (given rp).
    + rewrite submit_inflight, length_app, length_fmap, expandTasks_length.
      done.
  - unfold nothingToSubmit, effectivePrompt, effectiveRefImages.
    by rewrite blank_spec.
Qed.

Lemma handleGenerate_preconditions_witness :
  App.isKeyModalOpen (handleGenerate 5 None None App.initial) = true ∧
  App.tasks (handleGenerate 5 None None App.initial) = [] ∧
  handleGenerate 5 (Some (" " +:+ utf8 0x3000 +:+ utf8 0xA0)) None sample
  = sample ∧
  length (App.tasks (handleGenerate 5 (Some (utf8 0x200B)) None sample)) = 4 ∧
  length (App.tasks (handleGenerate 5 None None sample)) = 4.
Proof.
  destruct (handleGenerate_preconditions 5 None None App.initial)
    as ((_ & Hopen & Htasks & _) & _); [reflexivity|].
  destruct (handleGenerate_preconditions 5
              (Some (" " +:+ utf8 0x3000 +:+ utf8 0xA0)) None sample)
    as (_ & Hsilent & _).
  destruct (handleGenerate_preconditions 5 (Some (utf8 0x200B)) None sample)
    as (_ & _ & Hzw & _).
  destruct (handleGenerate_preconditions 5 None None sample)
    as (_ & _ & Hsub & _).
  split; [exact Hopen|]. split; [exact Htasks|]. split; [|split].
  - apply Hsilent; [by_compute|]. split; by_compute.
  - destruct Hzw as (_ & _ & Hlen & _); [by_compute|by_compute|].
    exact Hlen.
  - destruct Hsub as (_ & _ & Hlen & _); [by_compute|by_compute|].
    exact Hlen.
Defined.

(** With the style ["neon"] selected, an empty composer and no staged
    image, the resolved prompt is not blank and the resolved list of
    reference images is not empty, and yet nothing is submitted. *)
Lemma handleGenerate_resolved_prompt_not_tested :
  let s := App.setPrompt "" (App.setReferenceImages [] styled) in
  ¬ missingCredential s ∧
  finalPrompt None s = "Neon Noir style. " ∧
  blank (finalPrompt None s) = false ∧
  finalRefImages None s = ["neon.png"] ∧
  handleGenerate 1000 None None s = s.
Proof.
  cbv zeta. split; [by_compute|]. repeat split; by_compute.
Qed.

(** ** Resolution of the prompt and of the reference images *)

Lemma selectedStyle_id s style :
  selectedStyle s = Some style → Preset.id style = App.selectedStyleId s.
Proof.
  unfold selectedStyle. intros H. apply find_some in H as [_ H].
  by apply bool_decide_eq_true in H.
Qed.

(** Every call queued by one submission carries the resolved prompt and
    the resolved reference images, and there is one call per new task. *)
Lemma submit_calls now rp rr s c :
  c ∈ drop (length (App.inflight s)) (App.inflight (submit now rp rr s)) →
  Call.prompt c = finalPrompt rp s ∧
  Call.referenceImages c = finalRefImages rr s ∧
  Call.batchId c = pretty now.
Proof.
  rewrite submit_inflight, drop_app_length. intros Hc.
  by apply list_elem_of_fmap in Hc as (t & -> & _).
Qed.



(** ** Retrying a batch *)

(** What [handleRegenerateBatch] hands to [handleGenerate]. *)
Lemma handleRegenerateBatch_with_data now first rest t d s :
  List.find (λ t, bool_decide (is_Some (Task.data t))) (first :: rest) = Some t →
  Task.data t = Some d →
  handleRegenerateBatch now (first :: rest) s
  = handleGenerate now (Some (Image.prompt d)) (Some (Image.referenceImages d)) s.
Proof. unfold handleRegenerateBatch. intros -> H. simpl. by rewrite H. Qed.

Lemma handleRegenerateBatch_without_data now first rest s :
  List.find (λ t, bool_decide (is_Some (Task.data t))) (first :: rest) = None →
  handleRegenerateBatch now (first :: rest) s
  = handleGenerate now (Some (Task.prompt first)) None s.
Proof. unfold handleRegenerateBatch. by intros ->. Qed.

(** A retry with a non-empty prompt sends that prompt as it is. *)
Lemma finalPrompt_retry p s :
  p ≠ "" → finalPrompt (Some p) s = p.
Proof.
  intros Hp. unfold finalPrompt, given. apply truthy_true in Hp.
  rewrite Hp. simpl. by destruct (selectedStyle s).
Qed.

(** The images of the selected preset are appended on a retry as on a
    first submission: [finalRefImages] has no test on [retryPrompt]. *)
Lemma finalRefImages_retry refs s style :
  selectedStyle s = Some style →
  finalRefImages (Some refs) s
  = refs ++ default [] (Preset.referenceImages style).
Proof. unfold finalRefImages. by intros ->. Qed.

(** C3 (the code at the failing input). With the preset ["neon"], which
    has one reference image, a batch is submitted, its call succeeds, and
    the batch is regenerated. The retry keeps the resolved prompt, adds a
    new batch after the old one, and leaves the old task as it was; but the
    reference images it sends are the resolved ones followed by the
    preset's image once more. *)
Theorem handleRegenerateBatch_resends_preset_images :
  let s1 := handleGenerate 1000 None None styled in
  let s2 := step s1 (Fulfilled 0 "blob:1" 1500 None) in
  let s3 := handleRegenerateBatch 2000 (App.tasks s2) s2 in
  Call.referenceImages <$> App.inflight s1 = [["user.png"; "neon.png"]] ∧
  Image.referenceImages <$> App.gallery s2 = [["user.png"; "neon.png"]] ∧
  Call.prompt <$> App.inflight s3 = ["Neon Noir style. a cat"] ∧
  Call.referenceImages <$> App.inflight s3
    = [["user.png"; "neon.png"; "neon.png"]] ∧
  Task.id <$> App.tasks s3 = ["1000-1:1-0"; "2000-1:1-0"] ∧
  take 1 (App.tasks s3) = App.tasks s2.
Proof. vm_compute. repeat split. Qed.

(** ** Favorites *)

(** What the updaters leave behind once the write is through, field by
    field. *)
Lemma toggleFavoriteWith_state seenOpen image s :
  let s' := toggleFavoriteWith seenOpen image None s in
  let updated := Image.with_isFavorite (negb (Image.favorite image)) image in
  let swap := λ img, if bool_decide (Image.id img = Image.id image)
                     then updated else img in
  App.db s' = Storage.saveImage updated (App.db s) ∧
  App.gallery s' = swap <$> App.gallery s ∧
  App.tasks s'
  = (λ t, if bool_decide (Image.id <$> Task.data t = Some (Image.id image))
          then Task.with_data updated t else t) <$> App.tasks s ∧
  Lightbox.images (App.lightboxState s')
  = (if seenOpen then map swap else id)
      (Lightbox.images (App.lightboxState s)) ∧
  Lightbox.isOpen (App.lightboxState s')
  = Lightbox.isOpen (App.lightboxState s) ∧
  Lightbox.currentIndex (App.lightboxState s')
  = Lightbox.currentIndex (App.lightboxState s) ∧
  App.inflight s' = App.inflight s ∧ App.params s' = App.params s.
Proof. by destruct seenOpen, s. Qed.




(** ** Deleting a task, and completions that arrive afterwards *)

Lemma handleDeleteTask_tasks id s :
  App.tasks (handleDeleteTask id s) = filter (λ t, Task.id t ≠ id) (App.tasks s).
Proof. by destruct s. Qed.

Lemma handleDeleteTask_gone id s :
  id ∉ (Task.id <$> App.tasks (handleDeleteTask id s)).
Proof.
  rewrite handleDeleteTask_tasks. intros H.
  apply list_elem_of_fmap in H as (t & -> & Ht).
  by apply list_elem_of_filter in Ht as [Ht _].
Qed.

(** The callbacks of a call only rewrite the task list through
    [markSuccess] and [markError]. *)
Lemma onRejected_tasks c err s :
  App.tasks (onRejected c err s) = markError (Call.taskId c) err (App.tasks s).
Proof. by destruct s. Qed.

Lemma onFulfilled_tasks c url now write s :
  App.tasks (onFulfilled c url now write s)
  = match write with
    | Some err => markError (Call.taskId c) err (App.tasks s)
    | None =>
        markSuccess (Call.taskId c)
          (Image.mk (Call.taskId c) (Call.batchId c) url (Call.prompt c)
             (Call.aspectRatio c) (Call.resolution c) now (Call.styleId c)
             (Call.referenceImages c) None)
          (App.tasks s)
    end.
Proof. by destruct s, write. Qed.

(** C9. [handleDeleteTask] removes the tasks with the given id from the
    session list and touches neither the store nor the gallery nor the
    outstanding calls. A completion update, for success or for error, maps
    over the tasks that are there: it keeps the ids of any list, so it
    never adds a task, and on a list without the id it changes nothing.
    Hence a callback of the deleted task's call that fires after the
    deletion leaves the task list as the deletion left it. *)
Theorem handleDeleteTask_no_resurrection id s :
  let s' := handleDeleteTask id s in
  App.tasks s' = filter (λ t, Task.id t ≠ id) (App.tasks s) ∧
  (id ∉ (Task.id <$> App.tasks s')) ∧
  App.db s' = App.db s ∧ App.gallery s' = App.gallery s ∧
  App.inflight s' = App.inflight s ∧
  (∀ ts d err,
     Task.id <$> markSuccess id d ts = Task.id <$> ts ∧
     Task.id <$> markError id err ts = Task.id <$> ts) ∧
  (∀ ts d err, id ∉ (Task.id <$> ts) →
     markSuccess id d ts = ts ∧ markError id err ts = ts) ∧
  (∀ c url now write err, Call.taskId c = id →
     App.tasks (onFulfilled c url now write s') = App.tasks s' ∧
     App.tasks (onRejected c err s') = App.tasks s').
Proof.
  cbv zeta. pose proof (handleDeleteTask_gone id s) as Hgone.
  split; [apply handleDeleteTask_tasks|]. split; [done|].
  split; [by destruct s|]. split; [by destruct s|]. split; [by destruct s|].
  split; [|split].
  - intros ts d err. by rewrite markSuccess_ids, markError_ids.
  - intros ts d err H. by rewrite markSuccess_absent, markError_absent.
  - intros c url now write err <-.
    rewrite onFulfilled_tasks, onRejected_tasks.
    destruct write; by rewrite ?markSuccess_absent, ?markError_absent.
Qed.

Lemma handleDeleteTask_no_resurrection_witness :
  let s1 := handleDeleteTask "1000-1:1-1" viewing in
  Task.id <$> App.tasks s1 = ["1000-1:1-0"] ∧
  App.tasks (step s1 (Fulfilled 0 "blob:2" 1600 None)) = App.tasks s1 ∧
  App.tasks (step s1 (Rejected 0 {| message := Some "quota" |})) = App.tasks s1.
Proof.
  destruct (handleDeleteTask_no_resurrection "1000-1:1-1" viewing)
    as (_ & _ & _ & _ & _ & _ & _ & Hlate).
  split; [reflexivity|].
  split.
  - exact (proj1 (Hlate (Call.mk "a cat" [] R1_1 ResMedium "key" None
                           "1000-1:1-1" "1000" "none")
                        "blob:2" 1600%N None {| message := None |} eq_refl)).
  - exact (proj2 (Hlate (Call.mk "a cat" [] R1_1 ResMedium "key" None
                           "1000-1:1-1" "1000" "none")
                        "blob:2" 1600%N None {| message := Some "quota" |}
                        eq_refl)).
Defined.

(** ** A store that rejects the write *)

(** C10 (amended). The generation call has succeeded and [saveImage]
    rejects. The [then] callback stops at the [await] and the one [catch]
    handler runs, exactly as for a failed generation. When the rejection
    value is an object, the task list is rewritten entry by entry: a task
    with the call's id becomes [error] and carries the value's message, or
    ["Generation failed"] when it has none or an empty one, its other
    fields unchanged; every other task is untouched. Nothing is written to
    the store and the gallery is not reloaded. When the rejection value is
    [undefined] or [null], the updater throws at the task with the call's
    id: no task becomes [error]. *)
Theorem onFulfilled_store_rejects c url now reason i t s :
  App.tasks s !! i = Some t → Task.id t = Call.taskId c →
  let outcome := thenCallback c url now (Some reason) s in
  outcome = catchCallback c reason s ∧
  (∀ err, reason = Thrown err →
     ∃ s', outcome = Some s' ∧
       s' = onFulfilled c url now (Some err) s ∧ s' = onRejected c err s ∧
       App.tasks s' !! i
       = Some (Task.mk (Task.id t) (Task.batchId t) error
                 (Task.aspectRatio t) (Task.prompt t) (Task.placeholder t)
                 (Task.data t)
                 (Some (match message err with
                        | Some m =>
                            if bool_decide (m = "") then "Generation failed"
                            else m
                        | None => "Generation failed"
                        end))) ∧
       length (App.tasks s') = length (App.tasks s) ∧
       (∀ j t', App.tasks s !! j = Some t' →
                Task.id t' ≠ Call.taskId c → App.tasks s' !! j = Some t') ∧
       (∀ j t', App.tasks s !! j = Some t' →
                Task.id t' = Call.taskId c →
                ∃ t'', App.tasks s' !! j = Some t'' ∧
                       Task.status t'' = error ∧ Task.id t'' = Task.id t') ∧
       App.gallery s' = App.gallery s ∧ App.db s' = App.db s ∧
       App.inflight s' = App.inflight s) ∧
  (reason = Nullish → outcome = None).
Proof.
  intros Hi Hid. cbv zeta. split; [done|]. split.
  - intros err ->. eexists. split; [done|]. split; [done|]. split; [done|].
    assert (App.tasks (onRejected c err s)
            = markError (Call.taskId c) err (App.tasks s)) as ->
      by apply onRejected_tasks.
    unfold markError. change (map ?f ?l) with (f <$> l).
    split.
    { rewrite list_lookup_fmap, Hi. simpl.
      rewrite bool_decide_eq_true_2 by done. do 2 f_equal.
      unfold Task.with_error, Task.with_status, errorMessage, truthy. simpl.
      f_equal. f_equal. destruct (message err); [|done].
      by case_bool_decide. }
    split; [apply length_fmap|].
    split.
    { intros j t' Hj Hne. rewrite list_lookup_fmap, Hj. simpl.
      by rewrite bool_decide_eq_false_2. }
    split.
    { intros j t' Hj He. rewrite list_lookup_fmap, Hj. simpl.
      rewrite bool_decide_eq_true_2 by done. by eexists. }
    by destruct s.
  - intros ->. simpl. rewrite bool_decide_eq_true_2; [done|].
    rewrite <- Hid. apply list_elem_of_fmap_2.
    by apply list_elem_of_lookup_2 in Hi.
Qed.

Lemma onFulfilled_store_rejects_witness :
  ∃ s', thenCallback
          (Call.mk "a cat" [] R1_1 ResMedium "key" None "1000-1:1-1" "1000"
                   "none")
          "blob:2" 1600 (Some (Thrown {| message := Some "quota exceeded" |}))
          viewing = Some s' ∧
        App.tasks s'
        = [ Task.mk "1000-1:1-0" (Some "1000") success R1_1 "a cat"
                    (Some true) (Some catImage) None;
            Task.mk "1000-1:1-1" (Some "1000") error R1_1 "a cat"
                    (Some true) None (Some "quota exceeded") ] ∧
        App.gallery s' = [catImage].
Proof.
  destruct (onFulfilled_store_rejects
              (Call.mk "a cat" [] R1_1 ResMedium "key" None "1000-1:1-1"
                       "1000" "none")
              "blob:2" 1600 (Thrown {| message := Some "quota exceeded" |}) 1
              (Task.mk "1000-1:1-1" (Some "1000") generating R1_1 "a cat"
                       (Some true) None None)
              viewing) as (_ & Hobj & _); [reflexivity|reflexivity|].
  destruct (Hobj _ eq_refl) as (s' & Hs' & _ & -> & _).
  eexists. split; [exact Hs'|]. split; reflexivity.
Defined.

(** The store rejects with no value at all: reading [err.message] throws
    inside the updater, and the task of the call is not marked [error]. *)
Lemma onFulfilled_rejected_without_reason :
  thenCallback
    (Call.mk "a cat" [] R1_1 ResMedium "key" None "1000-1:1-1" "1000" "none")
    "blob:2" 1600 (Some Nullish) viewing
  = None.
Proof. reflexivity. Qed.

(** For the step function, whose rejections carry an object: a rejected
    write and a rejected call leave the same state behind. *)
Lemma step_store_rejects k url now err s :
  step s (Fulfilled k url now (Some err)) = step s (Rejected k err).
Proof. done. Qed.

(** ** Grouping *)

Lemma firstSeen_elem k keys : k ∈ firstSeen keys ↔ k ∈ keys.
Proof.
  induction keys as [|a keys IH]; simpl; [done|].
  rewrite !elem_of_cons, list_elem_of_filter, IH.
  destruct (decide (k = a)) as [E|E]; [tauto|]. tauto.
Qed.

Lemma firstSeen_NoDup keys : NoDup (firstSeen keys).
Proof.
  induction keys as [|a keys IH]; simpl; constructor.
  - rewrite list_elem_of_filter. by intros [E _].
  - by apply NoDup_filter.
Qed.

(** Reading the keys from left to right, a key joins the end of the order
    the first time it is met. *)
Lemma firstSeen_snoc keys k :
  firstSeen (keys ++ [k])
  = if decide (k ∈ keys) then firstSeen keys else firstSeen keys ++ [k].
Proof.
  induction keys as [|a keys IH]; simpl; [done|].
  rewrite IH. destruct (decide (k ∈ keys)) as [Hin|Hin].
  - rewrite decide_True by (by right). done.
  - rewrite filter_app. destruct (decide (k = a)) as [->|Hne].
    + rewrite decide_True by (by left).
      rewrite filter_cons_False by (by intros E). by rewrite app_nil_r.
    + rewrite decide_False by (by intros [?|?]%elem_of_cons).
      by rewrite filter_cons_True.
Qed.

Lemma filter_none {A} (P : A → Prop) `{∀ x, Decision (P x)} (l : list A) :
  (∀ x, x ∈ l → ¬ P x) → filter P l = [].
Proof.
  induction l as [|a l IH]; intros Hl; [done|].
  rewrite filter_cons_False by (apply Hl; left).
  apply IH. intros x Hx. apply Hl. by right.
Qed.

Lemma elem_of_snoc_other {A} (l : list A) (x y : A) :
  y ≠ x → y ∈ l ↔ y ∈ l ++ [x].
Proof.
  intros Hne. rewrite elem_of_app, list_elem_of_singleton. tauto.
Qed.

(** The key the code files a task under is its bucket. *)
Lemma batchKey_bucket t : batchKey t = bucket t.
Proof.
  unfold batchKey, bucket, truthy. destruct (Task.batchId t); [|done].
  by case_bool_decide.
Qed.

Lemma bucket_inherited t :
  (∀ b, Task.batchId t = Some b → b ∉ inheritedKeys) →
  bucket t ∉ inheritedKeys.
Proof.
  intros H. unfold bucket. destruct (Task.batchId t) as [b|]; [|by_compute].
  case_bool_decide; [by_compute|]. by apply H.
Qed.

(** The state of the loop after the tasks [ts], none of whose buckets
    names an inherited property: the buckets met, in order of first
    appearance, and under each bucket the tasks that carry it. *)
Lemma foldl_groupStep ts :
  (∀ t, t ∈ ts → bucket t ∉ inheritedKeys) →
  ∃ groups,
    foldl (λ acc task, acc ≫= λ a, groupStep a task) (Some (∅, [])) ts
    = Some (groups, firstSeen (bucket <$> ts)) ∧
    ∀ b, groups !! b
         = if decide (b ∈ bucket <$> ts)
           then Some (filter (λ t, bucket t = b) ts) else None.
Proof.
  induction ts as [|t ts IH] using rev_ind; intros Hown.
  - exists ∅. split; [done|]. intros b. rewrite decide_False; [done|].
    apply not_elem_of_nil.
  - destruct IH as (groups & Hfold & Hgroups).
    { intros x Hx. apply Hown, elem_of_app. by left. }
    assert (bucket t ∉ inheritedKeys) as Ht
      by (apply Hown, elem_of_app; right; left).
    rewrite foldl_app, Hfold, fmap_app.
    change (bucket <$> [t]) with [bucket t]. rewrite firstSeen_snoc.
    simpl. unfold groupStep, readGroup. rewrite batchKey_bucket, Hgroups.
    destruct (decide (bucket t ∈ bucket <$> ts)) as [Hin|Hin].
    + rewrite Hgroups, decide_True by done.
      eexists. split; [done|]. intros b.
      destruct (decide (b = bucket t)) as [->|Hne].
      * rewrite lookup_insert_eq, decide_True
          by (apply elem_of_app; right; left).
        by rewrite filter_app, filter_cons_True.
      * rewrite lookup_insert_ne, Hgroups by done.
        rewrite filter_app, filter_cons_False, app_nil_r by done.
        apply decide_ext, elem_of_snoc_other. done.
    + rewrite bool_decide_eq_false_2 by done. rewrite lookup_insert_eq.
      eexists. split; [done|]. intros b.
      destruct (decide (b = bucket t)) as [->|Hne].
      * rewrite lookup_insert_eq, decide_True
          by (apply elem_of_app; right; left).
        rewrite filter_app, filter_cons_True by done.
        f_equal. rewrite filter_none; [done|].
        intros x Hx E. apply Hin. rewrite <- E. by apply list_elem_of_fmap_2.
      * rewrite !lookup_insert_ne, Hgroups by done.
        rewrite filter_app, filter_cons_False, app_nil_r by done.
        apply decide_ext, elem_of_snoc_other. done.
Qed.

(** The loop computes what the specification describes. *)
Lemma groupTasksByBatch_spec ts :
  (∀ t, t ∈ ts → bucket t ∉ inheritedKeys) →
  groupTasksByBatch ts = Some (groupByBatch_spec ts).
Proof.
  intros Hown. unfold groupTasksByBatch, groupByBatch_spec.
  destruct (foldl_groupStep ts Hown) as (groups & Hfold & Hgroups).
  rewrite Hfold. f_equal. apply list_fmap_ext. intros i b Hb.
  apply list_elem_of_lookup_2 in Hb.
  apply (proj1 (firstSeen_elem _ _)) in Hb.
  by rewrite lookup_total_alt, Hgroups, decide_True.
Qed.

(** Once a task is filed under an inherited name the loop has thrown, and
    it does not recover. *)
Lemma foldl_groupStep_None ts :
  foldl (λ acc task, acc ≫= λ a, groupStep a task) None ts = None.
Proof. by induction ts. Qed.

Lemma groupTasksByBatch_throws ts :
  (∃ t, t ∈ ts ∧ bucket t ∈ inheritedKeys) → groupTasksByBatch ts = None.
Proof.
  intros (t & Hin & Hinh).
  assert (∃ pre x post, ts = pre ++ x :: post ∧ bucket x ∈ inheritedKeys ∧
                        ∀ y, y ∈ pre → bucket y ∉ inheritedKeys)
    as (pre & x & post & -> & Hx & Hpre).
  { assert (Exists (λ x, bucket x ∈ inheritedKeys) ts) as Hex
      by (apply Exists_exists; by exists t).
    clear Hin Hinh t. induction Hex as [x l Hx|x l _ IH].
    - exists [], x, l. split; [done|]. split; [done|].
      intros y Hy. by apply elem_of_nil in Hy.
    - destruct (decide (bucket x ∈ inheritedKeys)) as [Hx|Hx].
      + exists [], x, l. split; [done|]. split; [done|].
        intros y Hy. by apply elem_of_nil in Hy.
      + destruct IH as (pre & y & post & -> & Hy & Hpre).
        exists (x :: pre), y, post. split; [done|]. split; [done|].
        intros z [->|Hz]%elem_of_cons; [done|by apply Hpre]. }
  unfold groupTasksByBatch. rewrite foldl_app.
  destruct (foldl_groupStep pre Hpre) as (groups & -> & Hgroups).
  assert (groupStep (groups, firstSeen (bucket <$> pre)) x = None) as Hstep.
  { assert (groups !! bucket x = None) as Hnone.
    { rewrite Hgroups, decide_False; [done|].
      intros Hb. apply list_elem_of_fmap in Hb as (y & Ey & Hy).
      apply (Hpre y Hy). by rewrite <- Ey. }
    unfold groupStep, readGroup. rewrite batchKey_bucket, Hnone.
    rewrite bool_decide_eq_true_2 by done. simpl.
    by rewrite ?Hnone, ?bool_decide_eq_true_2. }
  cbn [foldl].
  change (Some (groups, firstSeen (bucket <$> pre)) ≫= _)
    with (groupStep (groups, firstSeen (bucket <$> pre)) x).
  by rewrite Hstep, foldl_groupStep_None.
Qed.

(** The groups of pairwise distinct buckets that cover a list form a
    rearrangement of it. *)
Lemma concat_groups_perm (ks : list string) (ts : list Task.t) :
  NoDup ks → (∀ t, t ∈ ts → bucket t ∈ ks) →
  concat ((λ b, filter (λ t, bucket t = b) ts) <$> ks) ≡ₚ ts.
Proof.
  intros Hnd. revert ts.
  induction Hnd as [|k ks Hk Hnd IH]; intros ts Hcover.
  - destruct ts as [|t ts]; [done|].
    by destruct (not_elem_of_nil (bucket t)); apply Hcover; left.
  - rewrite fmap_cons. simpl.
    etrans; [|apply (filter_app_complement (λ t, bucket t = k) ts)].
    apply Permutation_app_head.
    assert ((λ b, filter (λ t, bucket t = b) ts) <$> ks
            = (λ b, filter (λ t, bucket t = b)
                      (filter (λ t, ¬ bucket t = k) ts)) <$> ks) as ->.
    { apply list_fmap_ext. intros i b Hb.
      apply list_elem_of_lookup_2 in Hb.
      rewrite list_filter_filter_l; [done|].
      intros t <- E. apply Hk. by rewrite <- E. }
    apply IH. intros t Ht. apply list_elem_of_filter in Ht as [Hne Ht].
    apply Hcover in Ht. by apply elem_of_cons in Ht as [?|?].
Qed.

(** The group of a bucket that occurs starts with a task of that bucket. *)
Lemma group_head ts b :
  b ∈ (bucket <$> ts) →
  ∃ y, head (filter (λ t, bucket t = b) ts) = Some y ∧ bucket y = b.
Proof.
  intros Hb. apply list_elem_of_fmap in Hb as (x & -> & Hx).
  destruct (filter (λ t0, bucket t0 = bucket x) ts) as [|y l] eqn:E.
  - assert (x ∈ filter (λ t0, bucket t0 = bucket x) ts) as Hin
      by (by apply list_elem_of_filter).
    rewrite E in Hin. by apply elem_of_nil in Hin.
  - exists y. split; [done|].
    assert (y ∈ filter (λ t0, bucket t0 = bucket x) ts) as Hin
      by (rewrite E; left).
    by apply list_elem_of_filter in Hin as [? _].
Qed.

Lemma groupByBatch_spec_snoc_new ts t :
  bucket t ∉ (bucket <$> ts) →
  groupByBatch_spec (ts ++ [t]) = groupByBatch_spec ts ++ [[t]].
Proof.
  intros Hnew. unfold groupByBatch_spec.
  rewrite fmap_app. change (bucket <$> [t]) with [bucket t].
  rewrite firstSeen_snoc, decide_False by done.
  rewrite fmap_app. f_equal.
  - apply list_fmap_ext. intros i b Hb.
    apply list_elem_of_lookup_2 in Hb.
    apply (proj1 (firstSeen_elem _ _)) in Hb.
    rewrite filter_app, filter_cons_False, app_nil_r; [done|].
    intros E. apply Hnew. by rewrite E.
  - simpl. rewrite filter_app, filter_cons_True by done.
    rewrite filter_none; [done|].
    intros x Hx E. apply Hnew. rewrite <- E. by apply list_elem_of_fmap_2.
Qed.

(** Appending a task of a batch already present only extends the group of
    that batch; nothing moves. *)
Lemma groupByBatch_spec_snoc_old ts t :
  bucket t ∈ (bucket <$> ts) →
  groupByBatch_spec (ts ++ [t])
  = (λ g, if decide (bucket <$> head g = Some (bucket t))
          then g ++ [t] else g) <$> groupByBatch_spec ts.
Proof.
  intros Hold. unfold groupByBatch_spec.
  rewrite fmap_app. change (bucket <$> [t]) with [bucket t].
  rewrite firstSeen_snoc, decide_True by done.
  rewrite <- list_fmap_compose. apply list_fmap_ext. intros i b Hb. simpl.
  apply list_elem_of_lookup_2 in Hb.
  apply (proj1 (firstSeen_elem _ _)) in Hb.
  destruct (group_head ts b Hb) as (y & Hy & Hyk).
  rewrite Hy. simpl. rewrite Hyk, filter_app.
  destruct (decide (bucket t = b)) as [E|E].
  - rewrite filter_cons_True by done. rewrite decide_True by (by rewrite E).
    done.
  - rewrite filter_cons_False, app_nil_r by done.
    rewrite decide_False; [done|]. intros [= E']. by destruct E.
Qed.

(** A task with a [batchId] of its own shares its bucket with the tasks
    of that [batchId] and no other. *)
Lemma bucket_batchId t t' b :
  Task.batchId t = Some b → b ≠ "" → b ≠ "legacy" →
  bucket t' = bucket t ↔ Task.batchId t' = Some b.
Proof.
  intros Hb Hne Hnl. unfold bucket. rewrite Hb.
  rewrite bool_decide_eq_false_2 by done.
  destruct (Task.batchId t') as [b'|].
  - case_bool_decide as E; [subst b'|]; split; congruence.
  - split; congruence.
Qed.

(** C7 (amended). On a task list in which no [batchId] names a property
    that a plain object inherits from [Object.prototype],
    [groupTasksByBatch] returns, and what it returns depends on the list
    alone: it is the grouping the specification describes. The groups
    together are a rearrangement of the list, none is empty, and each is a
    sub-list of the list, so tasks keep their relative order. Two tasks
    are in the same group exactly when they have the same [batchId], a
    task without [batchId] (or with an empty one) counting as of the batch
    ["legacy"]; no two groups hold tasks of the same batch. The groups
    stand in the order in which their batches first appear in the list.
    Appending one task of a batch that is new appends the group of that
    task alone and leaves every other group, and their order, as they
    were. *)
Theorem groupTasksByBatch_stable_partition ts :
  (∀ t b, t ∈ ts → Task.batchId t = Some b → b ∉ inheritedKeys) →
  ∃ groups,
    groupTasksByBatch ts = Some groups ∧
    groups = groupByBatch_spec ts ∧
    concat groups ≡ₚ ts ∧
    (∀ g, g ∈ groups → g ≠ [] ∧ g `sublist_of` ts) ∧
    (∀ g t t', g ∈ groups → t ∈ g → t' ∈ ts →
               t' ∈ g ↔ bucket t' = bucket t) ∧
    (∀ g t t' b, g ∈ groups → t ∈ g → t' ∈ ts →
                 Task.batchId t = Some b → b ≠ "" → b ≠ "legacy" →
                 t' ∈ g ↔ Task.batchId t' = Some b) ∧
    (∀ g t t', g ∈ groups → t ∈ g → t' ∈ ts →
               Task.batchId t = None → Task.batchId t' = None → t' ∈ g) ∧
    (∀ i j g g' t t', groups !! i = Some g → groups !! j = Some g' →
                      t ∈ g → t' ∈ g' → bucket t = bucket t' → i = j) ∧
    (λ g, bucket <$> head g) <$> groups
    = Some <$> firstSeen (bucket <$> ts) ∧
    (∀ t, bucket t ∉ (bucket <$> ts) →
          (∀ b, Task.batchId t = Some b → b ∉ inheritedKeys) →
          groupTasksByBatch (ts ++ [t]) = Some (groups ++ [[t]])).
Proof.
  intros Hraw.
  assert (∀ t, t ∈ ts → bucket t ∉ inheritedKeys) as Hown.
  { intros t Ht. apply bucket_inherited. intros b. by apply Hraw. }
  pose proof (group_head ts) as Hhead.
  exists (groupByBatch_spec ts).
  split; [by apply groupTasksByBatch_spec|]. split; [done|].
  assert (∀ g t, g ∈ groupByBatch_spec ts → t ∈ g →
                 g = filter (λ x, bucket x = bucket t) ts) as Hgroup.
  { intros g t Hg Ht. apply list_elem_of_fmap in Hg as (b & -> & _).
    by apply list_elem_of_filter in Ht as [<- _]. }
  assert (∀ g t t', g ∈ groupByBatch_spec ts → t ∈ g → t' ∈ ts →
                    t' ∈ g ↔ bucket t' = bucket t) as Hsame.
  { intros g t t' Hg Ht Ht'. rewrite (Hgroup g t Hg Ht).
    rewrite list_elem_of_filter. tauto. }
  split; [|split; [|split; [done|split; [|split; [|split; [|split]]]]]].
  - apply concat_groups_perm; [apply firstSeen_NoDup|].
    intros t Ht. apply firstSeen_elem. by apply list_elem_of_fmap_2.
  - intros g Hg. apply list_elem_of_fmap in Hg as (b & -> & Hb).
    apply (proj1 (firstSeen_elem _ _)) in Hb. split.
    + destruct (Hhead b Hb) as (y & Hy & _). intros E. by rewrite E in Hy.
    + apply sublist_filter.
  - intros g t t' b Hg Ht Ht' Hb Hne Hnl.
    rewrite (Hsame g t t' Hg Ht Ht'). by apply bucket_batchId.
  - intros g t t' Hg Ht Ht' Hn Hn'. apply (Hsame g t t' Hg Ht Ht').
    unfold bucket. by rewrite Hn, Hn'.
  - intros i j g g' t t' Hi Hj Ht Ht' E. unfold groupByBatch_spec in Hi, Hj.
    rewrite list_lookup_fmap in Hi, Hj.
    destruct (firstSeen (bucket <$> ts) !! i) as [k|] eqn:Ei; [|done].
    destruct (firstSeen (bucket <$> ts) !! j) as [k'|] eqn:Ej; [|done].
    simpl in Hi, Hj. injection Hi as <-. injection Hj as <-.
    apply list_elem_of_filter in Ht as [Hk _].
    apply list_elem_of_filter in Ht' as [Hk' _].
    apply (NoDup_lookup _ i j k (firstSeen_NoDup (bucket <$> ts)) Ei).
    by rewrite Ej, <- Hk', <- E, Hk.
  - unfold groupByBatch_spec.
    rewrite <- list_fmap_compose. apply list_fmap_ext. intros i b Hb. simpl.
    apply list_elem_of_lookup_2 in Hb.
    apply (proj1 (firstSeen_elem _ _)) in Hb.
    destruct (Hhead b Hb) as (y & -> & <-). done.
  - intros t Hnew Hrawt. rewrite groupTasksByBatch_spec.
    + by rewrite groupByBatch_spec_snoc_new.
    + intros x [Hx|Hx]%elem_of_app; [by apply Hown|].
      apply list_elem_of_singleton in Hx as ->. by apply bucket_inherited.
Qed.

Lemma groupTasksByBatch_stable_partition_witness :
  let t (id : string) (b : option string) :=
    Task.mk id b success R1_1 "p" None None None in
  groupTasksByBatch [t "a" (Some "7"); t "b" None; t "c" (Some "9");
                     t "d" (Some "7"); t "e" (Some ""); t "f" None]
  = Some [[t "a" (Some "7"); t "d" (Some "7")];
          [t "b" None; t "e" (Some ""); t "f" None];
          [t "c" (Some "9")]].
Proof.
  cbv zeta.
  destruct (groupTasksByBatch_stable_partition
              [ Task.mk "a" (Some "7") success R1_1 "p" None None None;
                Task.mk "b" None success R1_1 "p" None None None;
                Task.mk "c" (Some "9") success R1_1 "p" None None None;
                Task.mk "d" (Some "7") success R1_1 "p" None None None;
                Task.mk "e" (Some "") success R1_1 "p" None None None;
                Task.mk "f" None success R1_1 "p" None None None ])
    as (groups & Hgroups & Hspec & _).
  - intros t b Ht Hb.
    repeat (apply elem_of_cons in Ht as [->|Ht]);
      try (by apply elem_of_nil in Ht);
      simpl in Hb; try discriminate Hb;
      injection Hb as <-; by_compute.
  - rewrite Hgroups, Hspec. reflexivity.
Defined.

(** A task whose [batchId] is ["constructor"] is filed under a name the
    object inherits: no group is created for it, and the push throws. *)
Lemma groupTasksByBatch_inherited_key :
  groupTasksByBatch
    [ Task.mk "constructor-1:1-0" (Some "constructor") pending R1_1 "p"
              (Some true) None None ]
  = None.
Proof. reflexivity. Qed.

(** ** Preset seeding *)

Lemma savePreset_keyed p db : Storage.keyed db → Storage.keyed (Storage.savePreset p db).
Proof.
  intros [Hi Hp]. split; [done|]. intros k q. simpl.
  destruct (decide (Preset.id p = k)) as [<-|Hne].
  - rewrite lookup_insert_eq. by intros [= <-].
  - rewrite lookup_insert_ne by done. apply Hp.
Qed.

(** In a keyed store the ids listed by [getAllPresets] are its keys. *)
Lemma getAllPresets_ids db id :
  Storage.keyed db →
  id ∈ (Preset.id <$> Storage.getAllPresets db)
  ↔ is_Some (Storage.presets db !! id).
Proof.
  intros [_ Hp]. unfold Storage.getAllPresets. split.
  - intros H. apply list_elem_of_fmap in H as (p & -> & H).
    apply list_elem_of_fmap in H as ([k q] & -> & H).
    apply elem_of_map_to_list in H. simpl.
    rewrite (Hp _ _ H). by exists q.
  - intros [p H]. apply list_elem_of_fmap. exists p.
    split; [by rewrite (Hp _ _ H)|].
    apply list_elem_of_fmap. exists (id, p). split; [done|].
    by apply elem_of_map_to_list.
Qed.

Section InitFacts.
Variable DEFAULT_PRESETS : list Preset.t.

Lemma missingDefaults_filter db :
  Storage.keyed db →
  missingDefaults DEFAULT_PRESETS db
  = filter (λ p, Storage.presets db !! Preset.id p = None) DEFAULT_PRESETS.
Proof.
  intros Hk. unfold missingDefaults. apply list_filter_iff. intros p.
  rewrite elem_of_list_to_set, getAllPresets_ids by done.
  rewrite <- not_eq_None_Some. split; [apply dec_stable|]. by intros ? [].
Qed.

Lemma foldl_savePreset_images l db :
  Storage.images (foldl (λ db p, Storage.savePreset p db) db l)
  = Storage.images db.
Proof.
  revert db. induction l as [|p l IH]; intros db; [done|].
  simpl. by rewrite IH.
Qed.

Lemma foldl_savePreset_other l db id :
  id ∉ (Preset.id <$> l) →
  Storage.presets (foldl (λ db p, Storage.savePreset p db) db l) !! id
  = Storage.presets db !! id.
Proof.
  revert db. induction l as [|p l IH]; intros db Hid; [done|].
  simpl. rewrite IH by (intros ?; apply Hid; by right).
  simpl. apply lookup_insert_ne. intros E. apply Hid. rewrite <- E. left.
Qed.

Lemma foldl_savePreset_written l db id :
  id ∈ (Preset.id <$> l) →
  ∃ p, p ∈ l ∧ Preset.id p = id ∧
       Storage.presets (foldl (λ db p, Storage.savePreset p db) db l) !! id
       = Some p.
Proof.
  revert db. induction l as [|p l IH]; intros db Hid.
  - by apply elem_of_nil in Hid.
  - simpl. destruct (decide (id ∈ (Preset.id <$> l))) as [Hin|Hin].
    + destruct (IH (Storage.savePreset p db) Hin) as (q & Hq & Hqid & Hlook).
      exists q. split; [by right|done].
    + exists p. split; [left|].
      apply elem_of_cons in Hid as [->|Hid]; [|done]. split; [done|].
      rewrite foldl_savePreset_other by done. simpl. apply lookup_insert_eq.
Qed.

Lemma defaultPresetDef_Some d :
  defaultPresetDef DEFAULT_PRESETS = Some d →
  d ∈ DEFAULT_PRESETS ∧ Preset.id d = "none".
Proof.
  unfold defaultPresetDef. intros H. apply find_some in H as [Hin H].
  split; [by apply list_elem_of_In|]. by apply bool_decide_eq_true in H.
Qed.

Lemma defaultPresetDef_None :
  defaultPresetDef DEFAULT_PRESETS = None →
  "none" ∉ (Preset.id <$> DEFAULT_PRESETS).
Proof.
  unfold defaultPresetDef. intros H Hin.
  apply list_elem_of_fmap in Hin as (p & Hp & Hin).
  apply list_elem_of_In in Hin.
  apply (find_none _ _ H) in Hin. by apply bool_decide_eq_false in Hin.
Qed.
End InitFacts.

Lemma empty_keyed : Storage.keyed Storage.empty.
Proof. split; intros k x H; simpl in H; by rewrite lookup_empty in H. Qed.

Lemma migrateDefault_keyed D db :
  Storage.keyed db → Storage.keyed (migrateDefault D db).
Proof.
  unfold migrateDefault. destruct (defaultPresetDef D); [|done].
  apply savePreset_keyed.
Qed.

Lemma migrateDefault_other D db id :
  id ≠ "none" →
  Storage.presets (migrateDefault D db) !! id = Storage.presets db !! id.
Proof.
  intros Hid. unfold migrateDefault.
  destruct (defaultPresetDef D) as [d|] eqn:E; [|done].
  apply defaultPresetDef_Some in E as [_ E]. simpl.
  apply lookup_insert_ne. by rewrite E.
Qed.

Lemma initPresets_db D s :
  App.db (initPresets D s) = seedMissing D (migrateDefault D (App.db s)).
Proof.
  unfold initPresets. case_bool_decide as Hlen.
  - by destruct s.
  - unfold seedMissing.
    destruct (missingDefaults D (App.db (App.onDb (migrateDefault D) s)))
      as [|p l] eqn:E; [|simpl in Hlen; lia].
    destruct s. simpl in *. by rewrite E.
Qed.

Lemma initPresets_allPresets D s :
  App.allPresets (initPresets D s)
  = Storage.getAllPresets (App.db (initPresets D s)).
Proof.
  rewrite initPresets_db. unfold initPresets. case_bool_decide as Hlen.
  - by destruct s.
  - unfold seedMissing.
    destruct (missingDefaults D (App.db (App.onDb (migrateDefault D) s)))
      as [|p l] eqn:E; [|simpl in Hlen; lia].
    destruct s. simpl in *. by rewrite E.
Qed.

(** C8. Start-up seeding, on a store keyed by id. The sentinel ["none"]
    of the built-in list is written first, whatever the store holds under
    that id. The presets written next are exactly the built-in ones whose
    id is then absent from the store, so every id that was missing is
    filled with a built-in preset of that id. A stored preset other than
    the sentinel is never replaced, and an id that is not built in is left
    as it was. When the built-in list has a sentinel, the store has one
    afterwards. The preset cache is the content of the store. *)
Theorem initPresets_seeding (DEFAULT_PRESETS : list Preset.t) (s : App.t) :
  Storage.keyed (App.db s) →
  let stored := Storage.presets (App.db s) in
  let afterSentinel := migrateDefault DEFAULT_PRESETS (App.db s) in
  let s' := initPresets DEFAULT_PRESETS s in
  let stored' := Storage.presets (App.db s') in
  (∀ d, defaultPresetDef DEFAULT_PRESETS = Some d →
     Storage.presets afterSentinel !! "none" = Some d ∧
     stored' !! "none" = Some d) ∧
  (App.db s'
     = foldl (λ db p, Storage.savePreset p db) afterSentinel
         (missingDefaults DEFAULT_PRESETS afterSentinel) ∧
   missingDefaults DEFAULT_PRESETS afterSentinel
     = filter (λ p, Storage.presets afterSentinel !! Preset.id p = None)
         DEFAULT_PRESETS) ∧
  (∀ id, id ∈ (Preset.id <$> DEFAULT_PRESETS) →
     Storage.presets afterSentinel !! id = None →
     ∃ p, p ∈ DEFAULT_PRESETS ∧ Preset.id p = id ∧ stored' !! id = Some p) ∧
  (∀ id p, id ≠ "none" → stored !! id = Some p → stored' !! id = Some p) ∧
  (∀ id, id ∉ (Preset.id <$> DEFAULT_PRESETS) → stored' !! id = stored !! id) ∧
  ((∃ d, d ∈ DEFAULT_PRESETS ∧ Preset.id d = "none") →
     is_Some (stored' !! "none")) ∧
  App.allPresets s' = Storage.getAllPresets (App.db s') ∧
  Storage.images (App.db s') = Storage.images (App.db s) ∧
  Storage.keyed (App.db s').
Proof.
  intros Hk. cbv zeta. rewrite initPresets_db. unfold seedMissing.
  set (db1 := migrateDefault DEFAULT_PRESETS (App.db s)).
  assert (Storage.keyed db1) as Hk1 by (by apply migrateDefault_keyed).
  pose proof (missingDefaults_filter DEFAULT_PRESETS db1 Hk1) as Hmiss.
  assert (∀ id, is_Some (Storage.presets db1 !! id) →
            id ∉ (Preset.id <$> missingDefaults DEFAULT_PRESETS db1))
    as Hkept.
  { intros id [q Hq] Hin. rewrite Hmiss in Hin.
    apply list_elem_of_fmap in Hin as (p & -> & Hp).
    apply list_elem_of_filter in Hp as [Hnone _]. congruence. }
  assert (∀ d, defaultPresetDef DEFAULT_PRESETS = Some d →
            Storage.presets db1 !! "none" = Some d) as Hsent.
  { intros d Hd. unfold db1, migrateDefault. rewrite Hd. simpl.
    apply defaultPresetDef_Some in Hd as [_ <-]. apply lookup_insert_eq. }
  split; [|split; [|split; [|split; [|split; [|split; [|split; [|split]]]]]]].
  - intros d Hd. split; [by apply Hsent|].
    rewrite foldl_savePreset_other; [by apply Hsent|].
    apply Hkept. rewrite (Hsent d Hd). by eexists.
  - done.
  - intros id Hin Hnone.
    destruct (foldl_savePreset_written
                (missingDefaults DEFAULT_PRESETS db1) db1 id)
      as (p & Hp & Hpid & Hlook).
    + rewrite Hmiss. apply list_elem_of_fmap in Hin as (p & -> & Hp).
      apply list_elem_of_fmap. exists p. split; [done|].
      by apply list_elem_of_filter.
    + exists p. split; [|done]. rewrite Hmiss in Hp.
      by apply list_elem_of_filter in Hp as [_ ?].
  - intros id p Hid Hp.
    assert (Storage.presets db1 !! id = Some p) as Hp1
      by (unfold db1; by rewrite migrateDefault_other).
    rewrite foldl_savePreset_other; [done|]. apply Hkept. by eexists.
  - intros id Hid. rewrite foldl_savePreset_other.
    + unfold db1, migrateDefault.
      destruct (defaultPresetDef DEFAULT_PRESETS) as [d|] eqn:Hd; [|done].
      apply defaultPresetDef_Some in Hd as [Hin Hdid]. simpl.
      apply lookup_insert_ne. intros E. apply Hid. rewrite <- E.
      by apply list_elem_of_fmap_2.
    + intros Hin. apply Hid. rewrite Hmiss in Hin.
      apply list_elem_of_fmap in Hin as (p & -> & Hp).
      apply list_elem_of_filter in Hp as [_ Hp].
      by apply list_elem_of_fmap_2.
  - intros (d & Hd & Hdid).
    destruct (defaultPresetDef DEFAULT_PRESETS) as [d'|] eqn:Hd'.
    + exists d'. rewrite foldl_savePreset_other; [by apply Hsent|].
      apply Hkept. rewrite (Hsent d' eq_refl). by eexists.
    + apply defaultPresetDef_None in Hd'. destruct Hd'. rewrite <- Hdid.
      by apply list_elem_of_fmap_2.
  - rewrite initPresets_allPresets, initPresets_db. done.
  - rewrite foldl_savePreset_images. unfold db1, migrateDefault.
    by destruct (defaultPresetDef DEFAULT_PRESETS).
  - generalize (missingDefaults DEFAULT_PRESETS db1) as l. intros l.
    revert Hk1. generalize db1 as db. clear.
    induction l as [|p l IH]; intros db Hdb; [done|].
    simpl. apply IH. by apply savePreset_keyed.
Qed.

Lemma initPresets_seeding_witness :
  let s' := initPresets builtins (App.onDb (λ _, editedStore) App.initial) in
  Storage.presets (App.db s') !! "none" = Some nonePreset ∧
  Storage.presets (App.db s') !! "crayon"
    = Some (Preset.mk "crayon" "My crayon" "wax pastel" None None) ∧
  is_Some (Storage.presets (App.db s') !! "neon").
Proof.
  destruct (initPresets_seeding builtins
              (App.onDb (λ _, editedStore) App.initial))
    as (Hsent & _ & Hseed & Hkeep & _).
  - repeat apply savePreset_keyed. apply empty_keyed.
  - split; [exact (proj2 (Hsent nonePreset eq_refl))|]. split.
    + apply Hkeep; [discriminate|reflexivity].
    + destruct (Hseed "neon") as (p & _ & _ & Hp);
        [by_compute|reflexivity|]. by exists p.
Defined.

(** ** The task state machine *)

Lemma NoDup_ids_eq (ts : list Task.t) t t' :
  NoDup (Task.id <$> ts) → t ∈ ts → t' ∈ ts → Task.id t = Task.id t' → t = t'.
Proof.
  induction ts as [|a ts IH]; intros Hnd Ht Ht' E.
  - by apply elem_of_nil in Ht.
  - rewrite fmap_cons in Hnd. apply NoDup_cons in Hnd as [Ha Hnd].
    apply elem_of_cons in Ht as [->|Ht]; apply elem_of_cons in Ht' as [->|Ht'].
    + done.
    + destruct Ha. rewrite E. by apply list_elem_of_fmap_2.
    + destruct Ha. rewrite <- E. by apply list_elem_of_fmap_2.
    + by apply IH.
Qed.

Lemma NoDup_delete_lookup {A} (l : list A) k x :
  NoDup l → l !! k = Some x → x ∉ delete k l.
Proof.
  intros Hnd Hk. rewrite delete_take_drop.
  rewrite <- (take_drop_middle l k x Hk) in Hnd.
  apply NoDup_app in Hnd as (_ & Hdis & Hnd).
  apply NoDup_cons in Hnd as [Hx _].
  intros [Hin|Hin]%elem_of_app; [|done].
  apply (Hdis x Hin). left.
Qed.

Lemma advance_refl a : advance a a.
Proof. by left. Qed.

(** A task list left as it was moves no task. *)
Lemma lifecycle_same_tasks s s' :
  NoDup (Task.id <$> App.tasks s) → App.tasks s' = App.tasks s →
  lifecycle s s'.
Proof.
  intros Hnd E. split.
  - intros t t' Ht Ht' Hid. rewrite E in Ht'.
    rewrite (NoDup_ids_eq _ _ _ Hnd Ht Ht' Hid). apply advance_refl.
  - intros t' Ht' Hnew. destruct Hnew. rewrite <- E.
    by apply list_elem_of_fmap_2.
Qed.

Lemma issued_with_status st t : issued t → issued (Task.with_status st t).
Proof. by intros (n & r & i & ? & ?); exists n, r, i. Qed.

Lemma issued_new_task (n : N) p r i : issued (new_task (pretty n) p r i).
Proof. by exists n, r, i. Qed.

Lemma issuedCall_fresh (now : N) ratios count c :
  issuedCall c → Call.batchId c ≠ pretty now →
  Call.taskId c ∉ batchIds (pretty now) ratios count.
Proof.
  intros (n & r & i & Hb & Hid) Hne Hin.
  apply list_elem_of_bind in Hin as (r' & Hin & _).
  apply list_elem_of_fmap in Hin as (i' & E & _).
  rewrite Hid in E.
  apply task_id_inj in E as (E & _); [|apply pretty_N_no_dash..].
  apply Hne. by rewrite Hb, E.
Qed.

(** *** Submitting *)

Lemma submit_params now rp rr s : App.params (submit now rp rr s) = App.params s.
Proof. by destruct (submit_frame now rp rr s) as (_ & _ & -> & _). Qed.

Lemma submit_call_ids now rp rr s :
  Call.taskId <$> App.inflight (submit now rp rr s)
  = (Call.taskId <$> App.inflight s) ++
    batchIds (pretty now) (Params.aspectRatios (App.params s))
             (Params.count (App.params s)).
Proof.
  rewrite submit_inflight, fmap_app, <- list_fmap_compose.
  by rewrite <- (expandTasks_ids _ (finalPrompt rp s)).
Qed.

Lemma submit_consistent now rp rr s :
  consistent s → freshInstant now s →
  consistent (submit now rp rr s) ∧ lifecycle s (submit now rp rr s).
Proof.
  intros [Htn Hcn Hti Hci Hrn Hrun] [Hft Hfc].
  pose proof (submit_tasks_fresh now rp rr s Hti Hft) as Htasks.
  pose proof (submit_inflight now rp rr s) as Hcalls.
  set (new := expandTasks (pretty now) (finalPrompt rp s)
                (Params.aspectRatios (App.params s))
                (Params.count (App.params s))) in *.
  assert (∀ t, t ∈ App.tasks s →
            Task.id t ∉ batchIds (pretty now)
                          (Params.aspectRatios (App.params s))
                          (Params.count (App.params s))) as Hold.
  { intros t Ht. apply issued_fresh; [|by apply Hft].
    rewrite Forall_forall in Hti. by apply Hti. }
  assert (∀ c, c ∈ App.inflight s →
            Call.taskId c ∉ batchIds (pretty now)
                              (Params.aspectRatios (App.params s))
                              (Params.count (App.params s))) as Holdc.
  { intros c Hc. apply issuedCall_fresh; [|by apply Hfc].
    rewrite Forall_forall in Hci. by apply Hci. }
  assert (∀ t, t ∈ (Task.with_status generating <$> new) →
            Task.id t ∈ batchIds (pretty now)
                          (Params.aspectRatios (App.params s))
                          (Params.count (App.params s))
            ∧ Task.status t = generating ∧ issued t
            ∧ ∃ t0, Task.status t0 = pending
                    ∧ t = Task.with_status generating t0) as Hnew.
  { intros t Ht. apply list_elem_of_fmap in Ht as (t0 & -> & Ht0).
    split; [|split; [done|split]].
    - rewrite <- (expandTasks_ids _ (finalPrompt rp s)).
      by apply (list_elem_of_fmap_2 Task.id) in Ht0.
    - apply expandTasks_elem in Ht0 as (r & i & _ & _ & ->).
      apply issued_with_status, issued_new_task.
    - exists t0. split; [|done].
      by apply expandTasks_elem in Ht0 as (r & i & _ & _ & ->). }
  split; [split|split].
  - rewrite submit_ids. apply NoDup_app. split; [done|]. split.
    + intros x Hx. apply list_elem_of_fmap in Hx as (t & -> & Ht).
      by apply Hold.
    + apply batchIds_NoDup; [apply pretty_N_no_dash|done].
  - rewrite submit_call_ids. apply NoDup_app. split; [done|]. split.
    + intros x Hx. apply list_elem_of_fmap in Hx as (c & -> & Hc).
      by apply Holdc.
    + apply batchIds_NoDup; [apply pretty_N_no_dash|done].
  - rewrite Htasks. apply Forall_app. split; [done|].
    apply Forall_forall. intros t Ht. by apply Hnew in Ht as (_ & _ & ? & _).
  - rewrite Hcalls. apply Forall_app. split; [done|].
    apply Forall_forall. intros c Hc.
    apply list_elem_of_fmap in Hc as (t & -> & Ht).
    apply expandTasks_elem in Ht as (r & i & _ & _ & ->).
    by exists now, r, i.
  - by rewrite submit_params.
  - intros t c. rewrite Htasks, Hcalls.
    intros [Ht|Ht]%elem_of_app [Hc|Hc]%elem_of_app E.
    + by apply (Hrun t c).
    + destruct (Hold t Ht). rewrite E.
      apply list_elem_of_fmap in Hc as (t0 & -> & Ht0). simpl.
      rewrite <- (expandTasks_ids _ (finalPrompt rp s)).
      by apply (list_elem_of_fmap_2 Task.id) in Ht0.
    + destruct (Holdc c Hc). rewrite <- E. by apply Hnew.
    + by apply Hnew.
  - intros t t' Ht. rewrite Htasks. intros [Ht'|Ht']%elem_of_app E.
    + rewrite (NoDup_ids_eq _ _ _ Htn Ht Ht' E). apply advance_refl.
    + destruct (Hold t Ht). rewrite E. by apply Hnew.
  - intros t'. rewrite Htasks. intros [Ht'|Ht']%elem_of_app Hid.
    + destruct Hid. by apply list_elem_of_fmap_2.
    + by apply Hnew in Ht' as (_ & _ & _ & ?).
Qed.

(** A handler that leaves tasks, calls and parameters alone keeps the
    invariant and moves no task. *)
Lemma consistent_same s s' :
  consistent s →
  App.tasks s' = App.tasks s → App.inflight s' = App.inflight s →
  App.params s' = App.params s →
  consistent s' ∧ lifecycle s s'.
Proof.
  intros [Htn Hcn Hti Hci Hrn Hrun] Et Ec Ep. split.
  - split; rewrite ?Et, ?Ec, ?Ep; done.
  - by apply lifecycle_same_tasks.
Qed.

Lemma handleGenerate_consistent now rp rr s :
  consistent s → freshInstant now s →
  consistent (handleGenerate now rp rr s)
  ∧ lifecycle s (handleGenerate now rp rr s).
Proof.
  intros Hs Hfresh.
  destruct (decide (missingCredential s)) as [Hk|Hk].
  - rewrite handleGenerate_missingCredential by done.
    apply consistent_same; by destruct s.
  - destruct (decide (nothingToSubmit rp rr s)) as [Hn|Hn].
    + rewrite handleGenerate_nothingToSubmit by done.
      by apply consistent_same.
    + rewrite handleGenerate_submit by done. by apply submit_consistent.
Qed.

Lemma handleRegenerateBatch_consistent now batchTasks s :
  consistent s → freshInstant now s →
  consistent (handleRegenerateBatch now batchTasks s)
  ∧ lifecycle s (handleRegenerateBatch now batchTasks s).
Proof.
  intros Hs Hfresh. unfold handleRegenerateBatch.
  destruct batchTasks as [|first rest]; [by apply consistent_same|].
  destruct (_ ≫= Task.data); by apply handleGenerate_consistent.
Qed.

(** *** Settling a call *)

(** An updater that rewrites only the tasks with the id of a settled call,
    and keeps id and batch id. *)
Lemma settle_consistent (f : Task.t → Task.t) k c s s' :
  consistent s → App.inflight s !! k = Some c →
  (∀ t, Task.id (f t) = Task.id t ∧ Task.batchId (f t) = Task.batchId t) →
  (∀ t, Task.status (f t) = success ∨ Task.status (f t) = error) →
  App.tasks s'
    = map (λ t, if bool_decide (Task.id t = Call.taskId c) then f t else t)
          (App.tasks s) →
  App.inflight s' = delete k (App.inflight s) →
  App.params s' = App.params s →
  consistent s' ∧ lifecycle s s'.
Proof.
  intros [Htn Hcn Hti Hci Hrn Hrun] Hk Hf Hterm Et Ec Ep.
  set (g := λ t, if bool_decide (Task.id t = Call.taskId c) then f t else t)
    in *.
  change (map g (App.tasks s)) with (g <$> App.tasks s) in Et.
  assert (∀ t, Task.id (g t) = Task.id t) as Hgid.
  { intros t. unfold g. case_bool_decide; [apply Hf|done]. }
  assert (Task.id <$> App.tasks s' = Task.id <$> App.tasks s) as Eids.
  { rewrite Et, <- list_fmap_compose. apply list_fmap_ext.
    intros i t _. apply Hgid. }
  assert (c ∈ App.inflight s) as Hc by (by eapply list_elem_of_lookup_2).
  split; [split|split].
  - by rewrite Eids.
  - rewrite Ec, list_fmap_delete.
    apply (sublist_NoDup _ _ Hcn), sublist_delete.
  - rewrite Et. apply Forall_fmap. eapply Forall_impl; [done|].
    intros t (n & r & i & Hb & Hid). exists n, r, i. simpl. unfold g.
    case_bool_decide; [|done]. destruct (Hf t) as [-> ->]. done.
  - rewrite Ec. by apply Forall_delete.
  - by rewrite Ep.
  - intros t' c' Ht' Hc' E. rewrite Et in Ht'. rewrite Ec in Hc'.
    apply list_elem_of_fmap in Ht' as (t & -> & Ht).
    assert (Call.taskId c' ≠ Call.taskId c) as Hne.
    { intros E'. apply (NoDup_delete_lookup _ k (Call.taskId c) Hcn).
      - by rewrite list_lookup_fmap, Hk.
      - rewrite <- list_fmap_delete, <- E'. by apply list_elem_of_fmap_2. }
    rewrite Hgid in E. unfold g. rewrite bool_decide_eq_false_2 by congruence.
    apply (Hrun t c'); [done| |done]. by eapply list_elem_of_delete_inv.
  - intros t t' Ht Ht' E. rewrite Et in Ht'.
    apply list_elem_of_fmap in Ht' as (t0 & -> & Ht0).
    rewrite Hgid in E. rewrite <- (NoDup_ids_eq _ _ _ Htn Ht Ht0 E).
    unfold g. case_bool_decide as Eid; [|apply advance_refl].
    right. right. split; [by apply (Hrun t c)|apply Hterm].
  - intros t' Ht' Hnew. destruct Hnew. rewrite <- Eids.
    by apply list_elem_of_fmap_2.
Qed.

Lemma onRejected_consistent k c err s :
  consistent s → App.inflight s !! k = Some c →
  let s' := onRejected c err (App.onInflight (delete k) s) in
  consistent s' ∧ lifecycle s s'.
Proof.
  intros Hs Hk.
  apply (settle_consistent
           (λ t, Task.with_error (errorMessage err) (Task.with_status error t))
           k c); try done; try by destruct s.
  intros t. by right.
Qed.

Lemma onFulfilled_consistent k c url now write s :
  consistent s → App.inflight s !! k = Some c →
  let s' := onFulfilled c url now write (App.onInflight (delete k) s) in
  consistent s' ∧ lifecycle s s'.
Proof.
  intros Hs Hk. destruct write as [err|]; [by apply onRejected_consistent|].
  eapply (settle_consistent
            (λ t, Task.with_data _ (Task.with_status success t)) k c);
    try done; try by destruct s.
  intros t. by left.
Qed.

(** *** Deleting a task, toggling a favorite *)

Lemma handleDeleteTask_consistent id s :
  consistent s →
  consistent (handleDeleteTask id s) ∧ lifecycle s (handleDeleteTask id s).
Proof.
  intros [Htn Hcn Hti Hci Hrn Hrun].
  pose proof (handleDeleteTask_tasks id s) as Et.
  assert (App.inflight (handleDeleteTask id s) = App.inflight s) as Ec
    by (by destruct s).
  split; [split|split].
  - rewrite Et.
    apply (sublist_NoDup _ _ Htn), fmap_sublist, sublist_filter.
  - by rewrite Ec.
  - rewrite Et. apply Forall_forall. intros t Ht.
    apply list_elem_of_filter in Ht as [_ Ht].
    rewrite Forall_forall in Hti. by apply Hti.
  - by rewrite Ec.
  - by destruct s.
  - intros t c Ht Hc. rewrite Et in Ht. rewrite Ec in Hc.
    apply list_elem_of_filter in Ht as [_ Ht]. by apply Hrun.
  - intros t t' Ht Ht' E. rewrite Et in Ht'.
    apply list_elem_of_filter in Ht' as [_ Ht'].
    rewrite (NoDup_ids_eq _ _ _ Htn Ht Ht' E). apply advance_refl.
  - intros t' Ht' Hnew. destruct Hnew. rewrite Et in Ht'.
    apply list_elem_of_filter in Ht' as [_ Ht'].
    by apply list_elem_of_fmap_2.
Qed.

Lemma toggleFavoriteWith_consistent seenOpen image write s :
  consistent s →
  consistent (toggleFavoriteWith seenOpen image write s)
  ∧ lifecycle s (toggleFavoriteWith seenOpen image write s).
Proof.
  intros Hs. destruct write as [err|]; [by apply consistent_same|].
  destruct Hs as [Htn Hcn Hti Hci Hrn Hrun].
  set (updated := Image.with_isFavorite (negb (Image.favorite image)) image).
  set (g := λ t, if bool_decide (Image.id <$> Task.data t = Some (Image.id image))
                 then Task.with_data updated t else t).
  assert (App.tasks (toggleFavoriteWith seenOpen image None s) = g <$> App.tasks s)
    as Et.
  { by destruct seenOpen, s. }
  assert (App.inflight (toggleFavoriteWith seenOpen image None s) = App.inflight s)
    as Ec.
  { by destruct seenOpen, s. }
  assert (∀ t, Task.id (g t) = Task.id t ∧ Task.batchId (g t) = Task.batchId t
               ∧ Task.status (g t) = Task.status t) as Hg.
  { intros t. unfold g. by case_bool_decide. }
  assert (Task.id <$> App.tasks (toggleFavoriteWith seenOpen image None s)
          = Task.id <$> App.tasks s) as Eids.
  { rewrite Et, <- list_fmap_compose. apply list_fmap_ext.
    intros i t _. apply Hg. }
  split; [split|split].
  - by rewrite Eids.
  - by rewrite Ec.
  - rewrite Et. apply Forall_fmap. eapply Forall_impl; [done|].
    intros t (n & r & i & Hb & Hid). exists n, r, i. simpl.
    destruct (Hg t) as (-> & -> & _). done.
  - by rewrite Ec.
  - by destruct seenOpen, s.
  - intros t' c Ht' Hc E. rewrite Et in Ht'. rewrite Ec in Hc.
    apply list_elem_of_fmap in Ht' as (t & -> & Ht).
    destruct (Hg t) as (Eid & _ & ->). rewrite Eid in E. by apply (Hrun t c).
  - intros t t' Ht Ht' E. rewrite Et in Ht'.
    apply list_elem_of_fmap in Ht' as (t0 & -> & Ht0).
    destruct (Hg t0) as (Eid & _ & ->). rewrite Eid in E.
    rewrite (NoDup_ids_eq _ _ _ Htn Ht Ht0 E). apply advance_refl.
  - intros t' Ht' Hnew. destruct Hnew. rewrite <- Eids.
    by apply list_elem_of_fmap_2.
Qed.

(** *** Changing the parameters *)

Lemma toggleRatio_consistent ratio s :
  consistent s →
  consistent (toggleRatio ratio s) ∧ lifecycle s (toggleRatio ratio s).
Proof.
  intros Hs. unfold toggleRatio.
  destruct (_ && _); [by apply consistent_same|].
  destruct Hs as [Htn Hcn Hti Hci Hrn Hrun].
  split; [split; try (by destruct s)|apply lifecycle_same_tasks; by destruct s].
  assert (Params.aspectRatios (App.params (App.setParams (λ p,
            Params.mk (if bool_decide (ratio ∈ Params.aspectRatios (App.params s))
                       then filter (λ r, r ≠ ratio) (Params.aspectRatios p)
                       else Params.aspectRatios p ++ [ratio])
                      (Params.resolution p) (Params.count p)) s))
          = if bool_decide (ratio ∈ Params.aspectRatios (App.params s))
            then filter (λ r, r ≠ ratio) (Params.aspectRatios (App.params s))
            else Params.aspectRatios (App.params s) ++ [ratio]) as ->
    by (by destruct s).
  case_bool_decide as Hin.
  - by apply NoDup_filter.
  - apply NoDup_app. split; [done|]. split; [|apply NoDup_singleton].
    intros r Hr ->%list_elem_of_singleton. done.
Qed.

Lemma setCount_consistent count s :
  consistent s →
  consistent (setCount count s) ∧ lifecycle s (setCount count s).
Proof.
  intros [Htn Hcn Hti Hci Hrn Hrun].
  split; [split; by destruct s|apply lifecycle_same_tasks; by destruct s].
Qed.

(** *** Creation and dispatch *)

Lemma expandTasks_pending b p ratios count :
  Forall (λ t, Task.status t = pending) (expandTasks b p ratios count).
Proof.
  apply Forall_forall. intros t Ht.
  by apply expandTasks_elem in Ht as (r & i & _ & _ & ->).
Qed.

(** In one turn of the loop the call is made on a state in which the task
    is already [generating]. *)
Lemma dispatch_marks_then_calls b p r s task :
  let marked := App.setTasks (markGenerating (Task.id task)) s in
  dispatch b p r s task
    = App.onInflight (λ q, q ++ [callFor b p r marked task]) marked ∧
  ∀ t, t ∈ App.tasks marked → Task.id t = Task.id task →
       Task.status t = generating.
Proof.
  split; [done|]. intros t Ht E.
  assert (t ∈ markGenerating (Task.id task) (App.tasks s)) as Ht'
    by (by destruct s).
  apply list_elem_of_fmap in Ht' as (t0 & -> & _).
  case_bool_decide as E0; [done|]. by destruct E0.
Qed.

(** *** Every event *)

Lemma step_consistent s e :
  consistent s → admissible s e →
  consistent (step s e) ∧ lifecycle s (step s e).
Proof.
  intros Hs Hadm.
  destruct e as [now|now l|k url now w|k err|id|seen image w|ratio|count]; simpl.
  - by apply handleGenerate_consistent.
  - by apply handleRegenerateBatch_consistent.
  - unfold settle. destruct (App.inflight s !! k) as [c|] eqn:Hk.
    + by apply onFulfilled_consistent.
    + by apply consistent_same.
  - unfold settle. destruct (App.inflight s !! k) as [c|] eqn:Hk.
    + by apply onRejected_consistent.
    + by apply consistent_same.
  - by apply handleDeleteTask_consistent.
  - by apply toggleFavoriteWith_consistent.
  - by apply toggleRatio_consistent.
  - by apply setCount_consistent.
Qed.

Lemma initial_consistent : consistent App.initial.
Proof.
  split; simpl; try by constructor.
  - by_compute.
  - intros t c Ht. by apply elem_of_nil in Ht.
Qed.

(** Every state reached from a consistent one through events that each
    get a clock value of their own is consistent. *)
Lemma run_consistent es s :
  consistent s → admissibleRun s es → consistent (run s es).
Proof.
  revert s. induction es as [|e es IH]; intros s Hs Hadm; [done|].
  destruct Hadm as [He Hes]. simpl. apply IH; [|done].
  by apply step_consistent.
Qed.

(** C4 (amended). In a session whose task ids are unique (which every
    session started from the initial state is, as long as each submission
    reads a clock value not used by a batch still listed or in flight),
    every event keeps it so and moves each task only along
    pending → generating → {success, error}: a task present before and
    after has the same status or has gone from [generating] to [success] or
    [error]; in particular a [success] or [error] task keeps its status; a
    task that is new was created [pending] and is [generating] when the
    handler returns. Inside the handler every new task is created
    [pending], and each call is issued on a state in which its task has
    already been marked [generating]. *)
Theorem task_lifecycle s e :
  consistent s → admissible s e →
  let s' := step s e in
  consistent s' ∧ lifecycle s s' ∧
  (∀ t t', t ∈ App.tasks s → t' ∈ App.tasks s' → Task.id t = Task.id t' →
     Task.status t = success ∨ Task.status t = error →
     Task.status t' = Task.status t) ∧
  (∀ b p ratios count,
     Forall (λ t, Task.status t = pending) (expandTasks b p ratios count)) ∧
  (∀ b p r s0 task,
     let marked := App.setTasks (markGenerating (Task.id task)) s0 in
     dispatch b p r s0 task
       = App.onInflight (λ q, q ++ [callFor b p r marked task]) marked ∧
     ∀ t, t ∈ App.tasks marked → Task.id t = Task.id task →
          Task.status t = generating).
Proof.
  intros Hs Hadm. cbv zeta.
  destruct (step_consistent s e Hs Hadm) as [Hs' Hlife].
  split; [done|]. split; [done|]. split; [|split].
  - intros t t' Ht Ht' E Hterm.
    destruct (proj1 Hlife t t' Ht Ht' E) as [H|[[H _]|[H _]]];
      [done|destruct Hterm; congruence..].
  - apply expandTasks_pending.
  - apply dispatch_marks_then_calls.
Qed.

Lemma viewing_consistent : consistent viewing.
Proof.
  split.
  - by_compute.
  - by_compute.
  - repeat constructor.
    + by exists 1000%N, R1_1, 0.
    + by exists 1000%N, R1_1, 1.
  - repeat constructor. by exists 1000%N, R1_1, 1.
  - by_compute.
  - intros t c Ht Hc E. apply list_elem_of_singleton in Hc as ->.
    apply elem_of_cons in Ht as [->|Ht]; [discriminate E|].
    by apply list_elem_of_singleton in Ht as ->.
Defined.

Lemma task_lifecycle_witness :
  let s1 := step viewing (RegenerateBatch 2000 (App.tasks viewing)) in
  let s2 := step viewing (Fulfilled 0 "blob:2" 1600 None) in
  (consistent s1 ∧ lifecycle viewing s1) ∧
  (consistent s2 ∧ lifecycle viewing s2).
Proof.
  split.
  - destruct (task_lifecycle viewing
                (RegenerateBatch 2000 (App.tasks viewing)))
      as (H1 & H2 & _); [apply viewing_consistent| |by split].
    split.
    + intros t Ht. vm_compute in Ht.
      repeat (apply elem_of_cons in Ht as [->|Ht]; [discriminate|]).
      by apply elem_of_nil in Ht.
    + intros c Hc. vm_compute in Hc.
      repeat (apply elem_of_cons in Hc as [->|Hc]; [discriminate|]).
      by apply elem_of_nil in Hc.
  - destruct (task_lifecycle viewing (Fulfilled 0 "blob:2" 1600 None))
      as (H1 & H2 & _); [apply viewing_consistent|exact I|by split].
Defined.

(** C4 (counterexample). A batch is submitted at clock value 1000 and its
    call succeeds; regenerating it while the clock still reads 1000 issues
    the same id again, and the dispatch of the new task marks the finished
    one [generating] as well; when the second call fails, both tasks,
    the finished one included, become [error]. *)
Lemma terminal_status_overwritten :
  let s1 := step styled (Generate 1000) in
  let s2 := step s1 (Fulfilled 0 "blob:1" 1500 None) in
  let s3 := step s2 (RegenerateBatch 1000 (App.tasks s2)) in
  let s4 := step s3 (Rejected 0 {| message := Some "quota" |}) in
  Task.status <$> App.tasks s2 = [success] ∧
  Task.id <$> App.tasks s3 = ["1000-1:1-0"; "1000-1:1-0"] ∧
  Task.status <$> App.tasks s3 = [generating; generating] ∧
  Task.status <$> App.tasks s4 = [error; error] ∧
  ¬ lifecycle s2 s3.
Proof.
  cbv zeta. split; [reflexivity|]. split; [reflexivity|].
  split; [reflexivity|]. split; [reflexivity|].
  intros [Hadv _].
  assert (∃ t t',
            t ∈ App.tasks (step (step styled (Generate 1000))
                                (Fulfilled 0 "blob:1" 1500 None)) ∧
            t' ∈ App.tasks
                   (step (step (step styled (Generate 1000))
                               (Fulfilled 0 "blob:1" 1500 None))
                         (RegenerateBatch 1000
                            (App.tasks (step (step styled (Generate 1000))
                                             (Fulfilled 0 "blob:1" 1500 None))))) ∧
            Task.id t = Task.id t' ∧ Task.status t = success ∧
            Task.status t' = generating)
    as (t & t' & Ht & Ht' & Hid & Hst & Hst').
  { vm_compute. eexists _, _. split; [left|]. split; [left|]. by repeat split. }
  destruct (Hadv t t' Ht Ht' Hid) as [H|[[H _]|[H _]]]; congruence.
Qed.

(** * Further properties *)

Open Scope nat_scope.

(** ** Task ids *)

(** X1. The id of a task determines the instant of its batch, its ratio
    and its index: two ids made by [handleGenerate] are equal only when
    all three agree. *)
Theorem task_id_decodes (n n' : N) r r' i i' :
  task_id (pretty n) r i = task_id (pretty n') r' i'
  ↔ n = n' ∧ r = r' ∧ i = i'.
Proof.
  split.
  - intros E. apply task_id_inj in E as (E & -> & ->);
      [|apply pretty_N_no_dash..].
    by apply (inj pretty) in E.
  - by intros (-> & -> & ->).
Qed.

(** ** Selecting ratios *)

Lemma toggleRatio_ratios ratio s :
  Params.aspectRatios (App.params (toggleRatio ratio s))
  = let selected := Params.aspectRatios (App.params s) in
    if bool_decide (ratio ∈ selected)
    then if bool_decide (length selected = 1) then selected
         else filter (λ r, r ≠ ratio) selected
    else selected ++ [ratio].
Proof.
  unfold toggleRatio. cbv zeta.
  destruct (bool_decide (ratio ∈ _)) eqn:E1; simpl.
  - destruct (bool_decide (length _ = 1)); [done|]. by destruct s.
  - by destruct s.
Qed.

(** X2. Toggling a ratio in a non-empty selection without repetition
    never empties it and never repeats a ratio; only the toggled ratio
    changes membership; a ratio that was absent is added at the end, one
    that was present is removed unless it is the only one; and toggling an
    absent ratio twice gives the state back. *)
Theorem toggleRatio_selection ratio s :
  let selected := Params.aspectRatios (App.params s) in
  let selected' := Params.aspectRatios (App.params (toggleRatio ratio s)) in
  NoDup selected → selected ≠ [] →
  selected' ≠ [] ∧ NoDup selected' ∧
  (∀ r, r ≠ ratio → r ∈ selected' ↔ r ∈ selected) ∧
  (ratio ∉ selected → selected' = selected ++ [ratio]) ∧
  (ratio ∈ selected → selected ≠ [ratio] →
     (ratio ∉ selected') ∧ selected' = filter (λ r, r ≠ ratio) selected) ∧
  (ratio ∉ selected → toggleRatio ratio (toggleRatio ratio s) = s).
Proof.
  cbv zeta. intros Hnd Hne. rewrite toggleRatio_ratios. cbv zeta.
  destruct (decide (ratio ∈ Params.aspectRatios (App.params s))) as [Hin|Hin].
  - rewrite (bool_decide_eq_true_2 _ Hin).
    destruct (decide (length (Params.aspectRatios (App.params s)) = 1))
      as [Hlen|Hlen].
    + rewrite (bool_decide_eq_true_2 _ Hlen).
      split; [done|]. split; [done|]. split; [done|]. split; [done|].
      split; [|done]. intros _ Hne1. destruct Hne1.
      destruct (Params.aspectRatios (App.params s)) as [|a [|b l]];
        try done.
      by apply list_elem_of_singleton in Hin as ->.
    + rewrite (bool_decide_eq_false_2 _ Hlen).
      split; [|split; [by apply NoDup_filter|split; [|split; [done|split]]]].
      * destruct (Params.aspectRatios (App.params s)) as [|a [|b l]] eqn:E;
          [done|done|].
        apply NoDup_cons in Hnd as [Hab _].
        destruct (decide (a = ratio)) as [->|Ha].
        -- rewrite filter_cons_False by (by intros ?).
           rewrite filter_cons_True; [done|].
           intros ->. apply Hab. left.
        -- by rewrite filter_cons_True.
      * intros r Hr. rewrite list_elem_of_filter. tauto.
      * intros _ _. split; [|done]. rewrite list_elem_of_filter. tauto.
      * done.
  - rewrite (bool_decide_eq_false_2 _ Hin).
    split; [by destruct (Params.aspectRatios (App.params s))|].
    split; [|split; [|split; [done|split; [done|]]]].
    + apply NoDup_app. split; [done|]. split; [|apply NoDup_singleton].
      by intros r Hr ->%list_elem_of_singleton.
    + intros r Hr. rewrite elem_of_app, list_elem_of_singleton. tauto.
    + intros _. unfold toggleRatio at 1. rewrite toggleRatio_ratios. cbv zeta.
      rewrite (bool_decide_eq_false_2 _ Hin).
      rewrite bool_decide_eq_true_2 by (apply elem_of_app; right; left).
      rewrite bool_decide_eq_false_2.
      2:{ rewrite length_app. simpl.
          destruct (Params.aspectRatios (App.params s)); [done|simpl; lia]. }
      simpl. unfold toggleRatio. rewrite (bool_decide_eq_false_2 _ Hin).
      simpl. destruct s as [? ? ? ? [sel res cnt] ? ? ? ? ? ? ? ? ? ?].
      simpl in *. unfold App.setParams. simpl. f_equal. f_equal.
      rewrite filter_app, filter_cons_False, app_nil_r by (by intros ?).
      clear Hne Hnd. induction sel as [|a sel IH]; [done|].
      rewrite filter_cons_True.
      * f_equal. apply IH. intros ?. apply Hin. by right.
      * intros ->. apply Hin. left.
Qed.

Lemma toggleRatio_selection_witness :
  Params.aspectRatios (App.params (toggleRatio R16_9 sample)) = [R1_1] ∧
  toggleRatio R4_3 (toggleRatio R4_3 sample) = sample.
Proof.
  destruct (toggleRatio_selection R16_9 sample)
    as (_ & _ & _ & _ & Hdel & _); [by_compute|by_compute|].
  destruct (toggleRatio_selection R4_3 sample)
    as (_ & _ & _ & _ & _ & Hback); [by_compute|by_compute|].
  split.
  - destruct Hdel as [_ ->]; [by_compute|by_compute|reflexivity].
  - apply Hback. by_compute.
Defined.

(** ** Reference images *)

Lemma foldl_addLoaded results prev :
  foldl (λ l r, addLoaded r l) prev results
  = prev ++ take (6 - length prev) results.
Proof.
  revert prev. induction results as [|r results IH]; intros prev; simpl.
  - by rewrite take_nil, app_nil_r.
  - rewrite IH. unfold addLoaded. case_bool_decide as Hfull.
    + replace (6 - length prev) with 0 by lia. by rewrite !take_0.
    + rewrite length_app. simpl.
      destruct (6 - length prev) as [|m] eqn:E; [lia|].
      replace (6 - (length prev + 1)) with m by lia.
      simpl. by rewrite <- app_assoc.
Qed.

Lemma filesLoaded_referenceImages results s :
  App.referenceImages (filesLoaded results s)
  = foldl (λ l r, addLoaded r l) (App.referenceImages s) results.
Proof.
  unfold filesLoaded. revert s.
  induction results as [|r results IH]; intros s; [done|].
  simpl. rewrite IH. by destruct s.
Qed.

(** X3. Files chosen for upload join the staged reference images in the
    order their readers finish, up to six images in all: the files that
    would take the list beyond six are dropped, and a list that already
    holds six or more is left as it is. *)
Theorem filesLoaded_capped results s :
  let prev := App.referenceImages s in
  let staged := App.referenceImages (filesLoaded results s) in
  staged = prev ++ take (6 - length prev) results ∧
  ((length prev ≤ 6)%nat →
     staged = take 6 (prev ++ results) ∧ (length staged ≤ 6)%nat) ∧
  ((6 ≤ length prev)%nat → staged = prev) ∧
  ((length prev + length results ≤ 6)%nat → staged = prev ++ results).
Proof.
  cbv zeta. rewrite filesLoaded_referenceImages, foldl_addLoaded.
  split; [done|]. split; [|split].
  - intros Hlen. split.
    + rewrite take_app, (take_ge (App.referenceImages s)) by done. done.
    + rewrite length_app, length_take. lia.
  - intros Hlen. replace (6 - _) with 0 by lia. by rewrite take_0, app_nil_r.
  - intros Hlen. by rewrite take_ge by lia.
Qed.

Lemma filesLoaded_capped_witness :
  App.referenceImages
    (filesLoaded ["5"; "6"; "7"; "8"]
       (App.setReferenceImages ["1"; "2"; "3"; "4"] sample))
  = ["1"; "2"; "3"; "4"; "5"; "6"].
Proof.
  destruct (filesLoaded_capped ["5"; "6"; "7"; "8"]
              (App.setReferenceImages ["1"; "2"; "3"; "4"] sample))
    as (_ & Hcap & _).
  destruct Hcap as [-> _]; [simpl; lia|reflexivity].
Defined.

Lemma filter_index_keep {A} (k m : nat) (l : list A) :
  k < m →
  snd <$> filter (λ p, p.1 ≠ k) (imap (λ i x, (m + i, x)) l) = l.
Proof.
  revert m. induction l as [|x l IH]; intros m Hm; [done|].
  rewrite imap_cons, filter_cons_True by (simpl; lia).
  rewrite fmap_cons. simpl. f_equal.
  rewrite (imap_ext _ (λ i z, (S m + i, z))) by (intros; simpl; f_equal; lia).
  apply IH. lia.
Qed.

Lemma removeAt_offset {A} (k index : nat) (l : list A) :
  snd <$> filter (λ p, p.1 ≠ k + index) (imap (λ i x, (k + i, x)) l)
  = delete index l.
Proof.
  revert k index. induction l as [|x l IH]; intros k index; [done|].
  rewrite imap_cons.
  rewrite (imap_ext _ (λ i z, (S k + i, z))) by (intros; simpl; f_equal; lia).
  destruct index as [|index].
  - rewrite filter_cons_False by (simpl; lia).
    apply (filter_index_keep (k + 0) (S k) l). lia.
  - rewrite filter_cons_True by (simpl; lia). rewrite fmap_cons.
    change (delete (S index) (x :: l)) with (x :: delete index l).
    f_equal. replace (k + S index) with (S k + index) by lia. apply IH.
Qed.

Lemma removeAt_delete {A} (index : nat) (l : list A) :
  removeAt index l = delete index l.
Proof.
  unfold removeAt. rewrite <- (removeAt_offset 0 index l). done.
Qed.

(** X4. Removing a staged reference image by its position takes out
    exactly the image at that position and keeps the others in order: the
    images before it stay where they are, those after it move up by one;
    a position beyond the end changes nothing. *)
Theorem removeReferenceImage_position index s :
  let prev := App.referenceImages s in
  let staged := App.referenceImages (removeReferenceImage index s) in
  staged = take index prev ++ drop (S index) prev ∧
  (∀ i, i < index → staged !! i = prev !! i) ∧
  (∀ i, index ≤ i → staged !! i = prev !! S i) ∧
  (index < length prev → S (length staged) = length prev) ∧
  (length prev ≤ index → removeReferenceImage index s = s).
Proof.
  cbv zeta.
  assert (App.referenceImages (removeReferenceImage index s)
          = delete index (App.referenceImages s)) as ->
    by (destruct s; apply removeAt_delete).
  split; [apply delete_take_drop|]. split; [|split; [|split]].
  - intros i Hi. by apply list_lookup_delete_lt.
  - intros i Hi. by apply list_lookup_delete_ge.
  - intros Hlt. rewrite length_delete; [lia|]. by apply lookup_lt_is_Some.
  - intros Hge. unfold removeReferenceImage.
    rewrite removeAt_delete, delete_take_drop.
    rewrite take_ge, drop_ge, app_nil_r by lia. by destruct s.
Qed.

Lemma foldl_pasteLoaded seen results s :
  App.referenceImages (foldl (pasteLoaded seen) s results)
  = if bool_decide (length seen < 6)
    then App.referenceImages s ++ results else App.referenceImages s.
Proof.
  revert s. induction results as [|r results IH]; intros s.
  - case_bool_decide; by rewrite ?app_nil_r.
  - simpl. rewrite IH. unfold pasteLoaded.
    case_bool_decide; [|done]. destruct s. simpl. by rewrite <- app_assoc.
Qed.

(** X5. A paste tests the limit of six against the list the handler was
    rendered with, not against the list as it grows: when fewer than six
    images were staged, every pasted image is added, whatever their
    number, so the list can end up longer than six; when six or more were
    staged, the paste adds nothing. *)
Theorem handlePaste_limit_on_rendered_list results s :
  let prev := App.referenceImages s in
  let staged := App.referenceImages (handlePaste results s) in
  (length prev < 6 → staged = prev ++ results) ∧
  (6 ≤ length prev → staged = prev) ∧
  (length prev < 6 → 6 < length prev + length results → 6 < length staged).
Proof.
  cbv zeta. unfold handlePaste. rewrite foldl_pasteLoaded.
  case_bool_decide; (split; [|split]); intros; try lia; try done.
  rewrite length_app. lia.
Qed.

Lemma handleIterate_fields image s :
  let s' := handleIterate image s in
  App.referenceImages s' = [Image.url image] ∧
  App.prompt s' = Image.prompt image ∧
  App.apiKey s' = App.apiKey s ∧
  App.params s' = App.params s ∧
  App.tasks s' = App.tasks s ∧
  App.inflight s' = App.inflight s ∧
  selectedStyle s' = selectedStyle s.
Proof. by destruct s. Qed.

(** X6. "Iterate" on an image stages that image alone as reference,
    puts its prompt in the composer, shows the create tab and closes the
    lightbox; a submission made next always goes through when a credential
    is set, even when the image's prompt is blank, and each of its calls
    receives the image's url followed by the selected preset's reference
    images, and the image's prompt behind the preset's description when a
    preset other than ["none"] is selected. *)
Theorem handleIterate_then_generate now image s :
  ¬ missingCredential s →
  let s1 := handleIterate image s in
  let s2 := handleGenerate now None None s1 in
  let styleRefs :=
    match selectedStyle s with
    | Some style => default [] (Preset.referenceImages style)
    | None => []
    end in
  let styledPrompt :=
    match selectedStyle s with
    | Some style =>
        if bool_decide (Preset.id style = "none") then Image.prompt image
        else Preset.description style +:+ ". " +:+ Image.prompt image
    | None => Image.prompt image
    end in
  App.activeTab s1 = TabCreate ∧
  Lightbox.isOpen (App.lightboxState s1) = false ∧
  length (App.tasks s2)
  = length (App.tasks s)
    + length (Params.aspectRatios (App.params s)) * Params.count (App.params s) ∧
  length (App.inflight s2)
  = length (App.inflight s)
    + length (Params.aspectRatios (App.params s)) * Params.count (App.params s) ∧
  (∀ c, c ∈ drop (length (App.inflight s)) (App.inflight s2) →
        Call.referenceImages c = Image.url image :: styleRefs ∧
        Call.prompt c = styledPrompt) ∧
  App.prompt s2 = "" ∧ App.referenceImages s2 = [].
Proof.
  intros Hkey. cbv zeta.
  destruct (handleIterate_fields image s)
    as (Hrefs & Hprompt & Hk & Hparams & Htasks & Hinfl & Hstyle).
  assert (handleGenerate now None None (handleIterate image s)
          = submit now None None (handleIterate image s)) as ->.
  { apply handleGenerate_submit.
    - unfold missingCredential in *. by rewrite Hk.
    - intros [_ Hr].
      change (App.referenceImages (handleIterate image s) = []) in Hr.
      by rewrite Hrefs in Hr. }
  split; [by destruct s|]. split; [by destruct s|].
  split; [by rewrite submit_length, Htasks, Hparams|].
  split.
  { rewrite submit_inflight, length_app, length_fmap, expandTasks_length.
    by rewrite Hinfl, Hparams. }
  split.
  - intros c Hc. rewrite <- Hinfl in Hc.
    apply submit_calls in Hc as (Hp & Hr & _). rewrite Hp, Hr.
    unfold finalRefImages, finalPrompt, effectiveRefImages, effectivePrompt.
    rewrite Hstyle, Hrefs, Hprompt. simpl. split; [done|].
    destruct (selectedStyle s) as [style|]; [|done].
    by case_bool_decide.
  - unfold submit. rewrite foldl_dispatch. by destruct s.
Qed.

Lemma handleIterate_then_generate_witness :
  Forall (λ c, Call.referenceImages c = ["blob:1"; "neon.png"] ∧
               Call.prompt c = "Neon Noir style. a cat")
    (App.inflight
       (handleGenerate 2000 None None (handleIterate catImage styled))).
Proof.
  destruct (handleIterate_then_generate 2000 catImage styled)
    as (_ & _ & _ & _ & Hcalls & _); [by_compute|].
  vm_compute in Hcalls. apply Forall_forall. intros c Hc.
  vm_compute in Hc. exact (Hcalls c Hc).
Defined.

(** X7. A submission that is not a retry empties the composer, prompt and
    staged images alike, so that submitting again at once does nothing; a
    retry with a prompt leaves the composer as it is. A retry whose prompt
    is the empty string counts as no retry and empties the composer too. *)
Theorem handleGenerate_composer now now' rp rr s :
  ¬ missingCredential s → ¬ nothingToSubmit rp rr s →
  let s' := handleGenerate now rp rr s in
  (given rp = false →
     App.prompt s' = "" ∧ App.referenceImages s' = [] ∧
     handleGenerate now' None None s' = s') ∧
  (given rp = true →
     App.prompt s' = App.prompt s ∧
     App.referenceImages s' = App.referenceImages s).
Proof.
  intros Hkey Hsub. cbv zeta. rewrite handleGenerate_submit by done.
  split; intros Hg.
  - assert (App.prompt (submit now rp rr s) = "" ∧
            App.referenceImages (submit now rp rr s) = []) as [Hp Hr].
    { unfold submit. rewrite Hg, foldl_dispatch. by destruct s. }
    split; [done|]. split; [done|].
    apply handleGenerate_nothingToSubmit.
    + unfold missingCredential in *.
      by destruct (submit_frame now rp rr s) as (_ & _ & _ & -> & _).
    + unfold nothingToSubmit, effectivePrompt, effectiveRefImages. simpl.
      by rewrite Hp, Hr.
  - unfold submit. rewrite Hg, foldl_dispatch. by destruct s.
Qed.

Lemma handleGenerate_composer_witness :
  let s' := handleGenerate 1000 None None styled in
  App.prompt s' = "" ∧ App.referenceImages s' = [] ∧
  handleGenerate 1001 None None s' = s'.
Proof.
  destruct (handleGenerate_composer 1000 1001 None None styled)
    as [Hclear _]; [by_compute|by_compute|].
  by apply Hclear.
Defined.

(** ** The lightbox *)

Lemma findIndex_Some id list i :
  findIndex id list = Some i →
  ∃ img, list !! i = Some img ∧ Image.id img = id ∧
         ∀ j img', j < i → list !! j = Some img' → Image.id img' ≠ id.
Proof.
  unfold findIndex. intros H.
  destruct (list_find _ list) as [[k img]|] eqn:Hf; [|done].
  injection H as ->. apply list_find_Some in Hf as (Hl & Hid & Hmin).
  exists img. split; [done|]. split; [done|].
  intros j img' Hj Hl'. by apply (Hmin j).
Qed.

Lemma findIndex_None id list :
  findIndex id list = None ↔ ∀ img, img ∈ list → Image.id img ≠ id.
Proof.
  unfold findIndex. rewrite fmap_None, list_find_None, Forall_forall. done.
Qed.

Lemma openLightbox_state image sourceList s :
  App.lightboxState (openLightbox image sourceList s)
  = Lightbox.mk true (default (contextList s) sourceList)
      (default 0 (findIndex (Image.id image)
                    (default (contextList s) sourceList))).
Proof. by destruct s. Qed.

(** X8. Opening the lightbox on an image shows the list it was given, or
    else the list of the active tab, and points at the first entry that
    has the image's id; when no entry has it, it points at the first
    entry. The position is within the list whenever the list is not
    empty. *)
Theorem openLightbox_points_at_image image sourceList s :
  let list := default (contextList s) sourceList in
  let lb := App.lightboxState (openLightbox image sourceList s) in
  Lightbox.isOpen lb = true ∧
  Lightbox.images lb = list ∧
  (list ≠ [] → Lightbox.currentIndex lb < length list) ∧
  ((∃ img, img ∈ list ∧ Image.id img = Image.id image) →
   ∃ img, list !! Lightbox.currentIndex lb = Some img ∧
          Image.id img = Image.id image ∧
          ∀ j img', j < Lightbox.currentIndex lb → list !! j = Some img' →
                    Image.id img' ≠ Image.id image) ∧
  ((∀ img, img ∈ list → Image.id img ≠ Image.id image) →
   Lightbox.currentIndex lb = 0).
Proof.
  cbv zeta. rewrite openLightbox_state.
  set (list := default (contextList s) sourceList). simpl.
  split; [done|]. split; [done|].
  destruct (findIndex (Image.id image) list) as [i|] eqn:Hf; simpl.
  - apply findIndex_Some in Hf as (img & Hl & Hid & Hmin).
    split; [intros _; by apply lookup_lt_Some in Hl|].
    split; [intros _; by exists img|].
    intros Hno. destruct (Hno img); [|done].
    by apply list_elem_of_lookup_2 in Hl.
  - split; [intros Hne; destruct list; [done|simpl; lia]|].
    split; [|done].
    intros (img & Hin & Hid).
    by destruct (proj1 (findIndex_None _ _) Hf img Hin).
Qed.

Lemma cardView_Picture t d :
  cardView t = Picture d ↔ Task.status t = success ∧ Task.data t = Some d.
Proof.
  unfold cardView. destruct (Task.status t), (Task.data t); simpl;
    split; try done; try by intros [? ?].
  - by intros [= ->].
  - by intros [_ [= ->]].
Qed.

(** X9. On the create tab, in a session whose task ids are distinct and
    whose tasks have their regular shape, a click on a card that shows a
    picture opens the lightbox on that very picture, and every picture of
    the lightbox is the picture of a [success] task of the list. *)
Theorem openLightbox_from_card t d s :
  App.activeTab s = TabCreate →
  NoDup (Task.id <$> App.tasks s) →
  Forall shapedTask (App.tasks s) →
  t ∈ App.tasks s → cardView t = Picture d →
  let lb := App.lightboxState (openLightbox d None s) in
  Lightbox.isOpen lb = true ∧
  Lightbox.images lb !! Lightbox.currentIndex lb = Some d ∧
  ∀ img, img ∈ Lightbox.images lb ↔
         ∃ t', t' ∈ App.tasks s ∧ cardView t' = Picture img.
Proof.
  intros Htab Hnd Hshape Ht Hview.
  assert (∀ img, img ∈ contextList s ↔
                 ∃ t', t' ∈ App.tasks s ∧ cardView t' = Picture img) as Hlist.
  { intros img. unfold contextList. rewrite Htab, elem_of_reverse.
    rewrite list_elem_of_omap. split.
    - intros (t' & Hin & Hd). apply list_elem_of_filter in Hin as [[Hs _] Hin].
      exists t'. split; [done|]. by apply cardView_Picture.
    - intros (t' & Hin & Hv). apply cardView_Picture in Hv as [Hs Hd].
      exists t'. split; [|done]. apply list_elem_of_filter.
      split; [|done]. split; [done|]. by rewrite Hd. }
  assert (∀ t' img, t' ∈ App.tasks s → cardView t' = Picture img →
                    Image.id img = Task.id t') as Hids.
  { intros t' img Hin Hv. apply cardView_Picture in Hv as [Hs Hd].
    rewrite Forall_forall in Hshape. specialize (Hshape t' Hin).
    unfold shapedTask in Hshape. rewrite Hs in Hshape.
    destruct Hshape as (d' & Hd' & Hid). congruence. }
  cbv zeta. rewrite openLightbox_state. simpl.
  split; [done|]. split; [|done].
  destruct (findIndex (Image.id d) (contextList s)) as [i|] eqn:Hf; simpl.
  2:{ destruct (proj1 (findIndex_None _ _) Hf d); [|done].
      apply Hlist. by exists t. }
  apply findIndex_Some in Hf as (img & Hl & Hid & _).
  rewrite Hl. f_equal.
  apply list_elem_of_lookup_2, Hlist in Hl as (t' & Hin' & Hv').
  assert (t' = t) as ->.
  { apply (NoDup_ids_eq (App.tasks s)); try done.
    rewrite <- (Hids _ _ Hin' Hv'), <- (Hids _ _ Ht Hview). done. }
  rewrite Hview in Hv'. by injection Hv'.
Qed.

Lemma openLightbox_from_card_witness :
  let lb := App.lightboxState (openLightbox catImage None viewing) in
  Lightbox.images lb !! Lightbox.currentIndex lb = Some catImage.
Proof.
  destruct (openLightbox_from_card
              (Task.mk "1000-1:1-0" (Some "1000") success R1_1 "a cat"
                       (Some true) (Some catImage) None)
              catImage viewing) as (_ & Hshown & _).
  - reflexivity.
  - by_compute.
  - repeat constructor. by exists catImage.
  - left.
  - reflexivity.
  - exact Hshown.
Defined.

Ltac case_innermost :=
  repeat match goal with
         | |- context [bool_decide ?P] =>
             lazymatch P with
             | context [bool_decide _] => fail
             | _ => destruct (bool_decide_reflect P); simpl
             end
         end.

Lemma jsRem_next (i n : nat) :
  i < n →
  jsRem (Z.of_nat i + 1) (Z.of_nat n)
  = Some (Z.of_nat (if bool_decide (S i = n) then 0 else S i)).
Proof.
  intros Hi. unfold jsRem. rewrite bool_decide_eq_false_2 by lia. f_equal.
  case_bool_decide as E.
  - replace (Z.of_nat i + 1)%Z with (Z.of_nat n) by lia.
    apply Z.rem_same. lia.
  - rewrite Z.rem_small by lia. lia.
Qed.

Lemma jsRem_prev (i n : nat) :
  i < n →
  jsRem (Z.of_nat i - 1 + Z.of_nat n) (Z.of_nat n)
  = Some (Z.of_nat (if bool_decide (i = 0) then n - 1 else i - 1)).
Proof.
  intros Hi. unfold jsRem. rewrite bool_decide_eq_false_2 by lia. f_equal.
  rewrite Z.rem_mod_nonneg by lia.
  case_bool_decide as E.
  - rewrite Z.mod_small by lia. lia.
  - symmetry. apply (Z.mod_unique _ _ 1); lia.
Qed.

Lemma nextIndex_in_range lb :
  Lightbox.currentIndex lb < length (Lightbox.images lb) →
  nextIndex lb
  = Some (Lightbox.mk (Lightbox.isOpen lb) (Lightbox.images lb)
            (if bool_decide (S (Lightbox.currentIndex lb)
                             = length (Lightbox.images lb))
             then 0 else S (Lightbox.currentIndex lb))).
Proof.
  intros Hi. unfold nextIndex, moveIndex.
  rewrite (jsRem_next _ _ Hi). simpl. by rewrite Nat2Z.id.
Qed.

Lemma prevIndex_in_range lb :
  Lightbox.currentIndex lb < length (Lightbox.images lb) →
  prevIndex lb
  = Some (Lightbox.mk (Lightbox.isOpen lb) (Lightbox.images lb)
            (if bool_decide (Lightbox.currentIndex lb = 0)
             then length (Lightbox.images lb) - 1
             else Lightbox.currentIndex lb - 1)).
Proof.
  intros Hi. unfold prevIndex, moveIndex.
  rewrite (jsRem_prev _ _ Hi). simpl. by rewrite Nat2Z.id.
Qed.

(** X10. With the position inside the list, "next" moves one entry on
    and from the last entry to the first, "previous" moves one entry back
    and from the first entry to the last; both leave the list and the open
    flag alone, keep the position inside the list, and undo each other. *)
Theorem lightbox_navigation s :
  let lb := App.lightboxState s in
  let n := length (Lightbox.images lb) in
  let i := Lightbox.currentIndex lb in
  i < n →
  ∃ nxt prv,
    handleNextImage s = Some nxt ∧ handlePrevImage s = Some prv ∧
    App.lightboxState nxt
    = Lightbox.mk (Lightbox.isOpen lb) (Lightbox.images lb)
                  (if bool_decide (S i = n) then 0 else S i) ∧
    App.lightboxState prv
    = Lightbox.mk (Lightbox.isOpen lb) (Lightbox.images lb)
                  (if bool_decide (i = 0) then n - 1 else i - 1) ∧
    Lightbox.currentIndex (App.lightboxState nxt) < n ∧
    Lightbox.currentIndex (App.lightboxState prv) < n ∧
    handlePrevImage nxt = Some s ∧ handleNextImage prv = Some s.
Proof.
  cbv zeta. intros Hi. unfold handleNextImage, handlePrevImage.
  rewrite (nextIndex_in_range _ Hi), (prevIndex_in_range _ Hi).
  eexists _, _. split; [done|]. split; [done|].
  destruct s as [? ? ? ? ? ? ? ? ? ? ? ? [o imgs i] ? ?]. simpl in *.
  split; [done|]. split; [done|].
  split; [case_bool_decide; lia|]. split; [case_bool_decide; lia|].
  split.
  - rewrite prevIndex_in_range by (simpl; case_bool_decide; lia). simpl.
    case_innermost; unfold App.setLightboxState; simpl; do 3 f_equal; lia.
  - rewrite nextIndex_in_range by (simpl; case_bool_decide; lia). simpl.
    case_innermost; unfold App.setLightboxState; simpl; do 3 f_equal; lia.
Qed.

Lemma lightbox_navigation_witness :
  ∃ nxt prv,
    handleNextImage viewing = Some nxt ∧ handlePrevImage viewing = Some prv ∧
    handlePrevImage nxt = Some viewing ∧ handleNextImage prv = Some viewing.
Proof.
  destruct (lightbox_navigation viewing)
    as (nxt & prv & Hn & Hp & _ & _ & _ & _ & Hpn & Hnp); [simpl; lia|].
  by exists nxt, prv.
Defined.

Lemma handleKeyDown_in_range key s :
  Lightbox.currentIndex (App.lightboxState s)
  < length (Lightbox.images (App.lightboxState s)) →
  ∃ s', handleKeyDown key s = Some s' ∧
        Lightbox.images (App.lightboxState s')
        = Lightbox.images (App.lightboxState s) ∧
        Lightbox.currentIndex (App.lightboxState s')
        < length (Lightbox.images (App.lightboxState s)) ∧
        (Lightbox.isOpen (App.lightboxState s') = true →
         Lightbox.isOpen (App.lightboxState s) = true) ∧
        App.tasks s' = App.tasks s ∧ App.gallery s' = App.gallery s ∧
        App.db s' = App.db s.
Proof.
  intros Hi. unfold handleKeyDown, handleNextImage, handlePrevImage.
  rewrite (nextIndex_in_range _ Hi), (prevIndex_in_range _ Hi).
  destruct s as [? ? ? ? ? ? ? ? ? ? ? ? [o imgs i] ? ?]. simpl in *.
  destruct o; simpl; [|by eexists].
  repeat (match goal with |- context [bool_decide (key = ?k)] =>
            destruct (bool_decide (key = k)) end; simpl);
    eexists; (split; [done|]); simpl; repeat split; try done;
    case_bool_decide; lia.
Qed.

(** X11. From a lightbox whose position is inside its list, no sequence
    of key presses leads outside: the list stays the same, the position
    stays inside it, a closed lightbox is not opened, and tasks, gallery
    and store are not touched. While the lightbox is closed, keys do
    nothing at all. With the lightbox open on an empty list, an arrow key
    leaves the position undefined. *)
Theorem handleKeys_stay_in_range keys s :
  let lb := App.lightboxState s in
  (Lightbox.currentIndex lb < length (Lightbox.images lb) →
   ∃ s', handleKeys keys s = Some s' ∧
         Lightbox.images (App.lightboxState s') = Lightbox.images lb ∧
         Lightbox.currentIndex (App.lightboxState s')
         < length (Lightbox.images lb) ∧
         (Lightbox.isOpen (App.lightboxState s') = true →
          Lightbox.isOpen lb = true) ∧
         App.tasks s' = App.tasks s ∧ App.gallery s' = App.gallery s ∧
         App.db s' = App.db s) ∧
  (Lightbox.isOpen lb = false → handleKeys keys s = Some s) ∧
  (Lightbox.isOpen lb = true → Lightbox.images lb = [] →
   handleKeyDown "ArrowRight" s = None ∧ handleKeyDown "ArrowLeft" s = None).
Proof.
  cbv zeta. split; [|split].
  - revert s. unfold handleKeys.
    induction keys as [|key keys IH]; intros s Hi; [by exists s|].
    simpl. destruct (handleKeyDown_in_range key s Hi)
      as (s1 & -> & Himgs & Hidx & Hopen & Ht & Hg & Hd).
    rewrite <- Himgs in Hidx. destruct (IH s1 Hidx)
      as (s' & -> & Himgs' & Hidx' & Hopen' & Ht' & Hg' & Hd').
    exists s'. rewrite <- Himgs, <- Ht, <- Hg, <- Hd. eauto 10.
  - intros Hclosed. unfold handleKeys.
    induction keys as [|key keys IH]; [done|].
    simpl. unfold handleKeyDown at 2. by rewrite Hclosed.
  - intros Hopen Hnil. unfold handleKeyDown, handleNextImage, handlePrevImage,
      nextIndex, prevIndex, moveIndex.
    rewrite Hopen, Hnil. done.
Qed.

(** ** Gallery and store *)

(** In a keyed store the gallery lists exactly the records of the
    collection, each under its own id. *)
Lemma getGallery_elem db img :
  Storage.keyed db →
  img ∈ Storage.getGallery db
  ↔ Storage.images db !! Image.id img = Some img.
Proof.
  intros [Hi _]. unfold Storage.getGallery. split.
  - intros H. apply list_elem_of_fmap in H as ([k x] & -> & H).
    apply elem_of_map_to_list in H. simpl. by rewrite (Hi _ _ H).
  - intros H. apply list_elem_of_fmap. exists (Image.id img, img).
    split; [done|]. by apply elem_of_map_to_list.
Qed.

Lemma saveImage_keyed image db :
  Storage.keyed db → Storage.keyed (Storage.saveImage image db).
Proof.
  intros [Hi Hp]. split; [|done]. intros k q. simpl.
  destruct (decide (Image.id image = k)) as [<-|Hne].
  - rewrite lookup_insert_eq. by intros [= <-].
  - rewrite lookup_insert_ne by done. apply Hi.
Qed.

Lemma deleteImage_keyed id db :
  Storage.keyed db → Storage.keyed (Storage.deleteImage id db).
Proof.
  intros [Hi Hp]. split; [|done]. intros k q. simpl.
  destruct (decide (id = k)) as [<-|Hne].
  - by rewrite lookup_delete_eq.
  - rewrite lookup_delete_ne by done. apply Hi.
Qed.

Lemma handleDeleteGallery_fields id s :
  let s' := handleDeleteGallery id None s in
  App.db s' = Storage.deleteImage id (App.db s) ∧
  App.gallery s' = Storage.getGallery (Storage.deleteImage id (App.db s)) ∧
  App.tasks s' = App.tasks s ∧ App.inflight s' = App.inflight s ∧
  Lightbox.images (App.lightboxState s')
  = Lightbox.images (App.lightboxState s) ∧
  Lightbox.currentIndex (App.lightboxState s')
  = Lightbox.currentIndex (App.lightboxState s) ∧
  Lightbox.isOpen (App.lightboxState s')
  = Lightbox.isOpen (App.lightboxState s)
    && negb (bool_decide
               (Image.id <$> Lightbox.images (App.lightboxState s)
                               !! Lightbox.currentIndex (App.lightboxState s)
                = Some id)).
Proof.
  unfold handleDeleteGallery. cbv zeta.
  destruct s as [? ? ? ? ? ? ? ? ? ? ? ? [o imgs i] ? ?]. simpl.
  destruct o; simpl; [|done]. by case_bool_decide.
Qed.



(** X13. An image deleted from the gallery is written back by the next
    favorite toggle made on a copy of it (a task card of the create tab
    still holds one): the store holds the record again, with the flag
    flipped, the gallery on screen still lacks it, and the next reload of
    the gallery lists it. *)
Theorem handleToggleFavorite_writes_back_deleted image rendered s :
  Storage.keyed (App.db s) →
  let deleted := handleDeleteGallery (Image.id image) None s in
  let s' := handleToggleFavorite image None rendered deleted in
  let updated := Image.with_isFavorite (negb (Image.favorite image)) image in
  Storage.images (App.db deleted) !! Image.id image = None ∧
  Storage.images (App.db s') !! Image.id image = Some updated ∧
  (∀ img, img ∈ App.gallery s' → Image.id img ≠ Image.id image) ∧
  updated ∈ App.gallery (loadGallery s').
Proof.
  intros Hkeyed. cbv zeta.
  destruct (handleDeleteGallery_fields (Image.id image) s)
    as (Hdb & Hgal & _).
  unfold handleToggleFavorite.
  set (seenOpen := Lightbox.isOpen (App.lightboxState rendered)).
  destruct (toggleFavoriteWith_state seenOpen image
              (handleDeleteGallery (Image.id image) None s))
    as (Hdb' & Hgal' & _).
  rewrite Hdb' , Hgal', Hdb, Hgal.
  split; [apply lookup_delete_eq|].
  split; [apply lookup_insert_eq|]. split.
  - intros img Hin. apply list_elem_of_fmap in Hin as (x & -> & Hx).
    apply (getGallery_elem _ _ (deleteImage_keyed _ _ Hkeyed)) in Hx.
    case_bool_decide as E; [|done].
    simpl in Hx. rewrite <- E in Hx. by rewrite lookup_delete_eq in Hx.
  - assert (App.gallery
              (loadGallery (toggleFavoriteWith seenOpen image None
                 (handleDeleteGallery (Image.id image) None s)))
            = Storage.getGallery
                (Storage.saveImage
                   (Image.with_isFavorite (negb (Image.favorite image)) image)
                   (Storage.deleteImage (Image.id image) (App.db s)))) as ->.
    { rewrite <- Hdb, <- Hdb'. by destruct (toggleFavoriteWith _ _ _ _). }
    apply getGallery_elem.
    + by apply saveImage_keyed, deleteImage_keyed.
    + apply lookup_insert_eq.
Qed.

Lemma handleToggleFavorite_writes_back_deleted_witness :
  Storage.images
    (App.db (handleToggleFavorite catImage None viewing
               (handleDeleteGallery (Image.id catImage) None viewing)))
    !! Image.id catImage
  = Some (Image.with_isFavorite (negb (Image.favorite catImage)) catImage).
Proof.
  destruct (handleToggleFavorite_writes_back_deleted catImage viewing viewing)
    as (_ & Hback & _).
  - apply (saveImage_keyed catImage Storage.empty empty_keyed).
  - exact Hback.
Defined.

(** X14. When a generation call succeeds and the store accepts the
    image, the store holds it under the task's id and the gallery is
    reloaded from the store, so it lists the image, whether or not the
    task is still in the session list. The image records what the call
    was made with: the resolved prompt and reference images, the ratio,
    the resolution, the style and the batch. It is not a favorite. *)
Theorem onFulfilled_persists c url now s :
  let s' := onFulfilled c url now None s in
  ∃ img,
    Storage.images (App.db s') !! Call.taskId c = Some img ∧
    App.gallery s' = Storage.getGallery (App.db s') ∧
    img ∈ App.gallery s' ∧
    (∀ t, t ∈ App.tasks s' → Task.id t = Call.taskId c →
          Task.status t = success ∧ Task.data t = Some img) ∧
    Image.id img = Call.taskId c ∧ Image.url img = url ∧
    Image.timestamp img = now ∧
    Image.batchId img = Call.batchId c ∧
    Image.prompt img = Call.prompt c ∧
    Image.referenceImages img = Call.referenceImages c ∧
    Image.aspectRatio img = Call.aspectRatio c ∧
    Image.resolution img = Call.resolution c ∧
    Image.styleId img = Call.styleId c ∧
    Image.favorite img = false.
Proof.
  cbv zeta. eexists. split.
  { destruct s. simpl. apply lookup_insert_eq. }
  split; [by destruct s|]. split.
  { assert (App.gallery (onFulfilled c url now None s)
            = Storage.getGallery (App.db (onFulfilled c url now None s))) as ->
      by by destruct s.
    unfold Storage.getGallery. apply list_elem_of_fmap.
    eexists (_, _). split; [done|]. apply elem_of_map_to_list.
    destruct s. simpl. apply lookup_insert_eq. }
  split; [|done].
  intros t Ht Hid. rewrite onFulfilled_tasks in Ht.
  apply list_elem_of_fmap in Ht as (t0 & -> & _).
  case_bool_decide as E; [done|]. by destruct E.
Qed.

Lemma swap_swap (image updated : Image.t) (l : list Image.t) :
  Image.id updated = Image.id image →
  let swap := λ img, if bool_decide (Image.id img = Image.id image)
                     then updated else img in
  swap <$> (swap <$> l) = swap <$> l.
Proof.
  intros Hid. cbv zeta. rewrite <- list_fmap_compose.
  apply list_fmap_ext. intros _ img _. simpl.
  destruct (bool_decide_reflect (Image.id img = Image.id image)) as [E|E].
  - by rewrite bool_decide_eq_true_2.
  - by rewrite bool_decide_eq_false_2.
Qed.

Lemma retag_retag (image updated : Image.t) (l : list Task.t) :
  Image.id updated = Image.id image →
  let retag := λ t, if bool_decide (Image.id <$> Task.data t
                                    = Some (Image.id image))
                    then Task.with_data updated t else t in
  retag <$> (retag <$> l) = retag <$> l.
Proof.
  intros Hid. cbv zeta. rewrite <- list_fmap_compose.
  apply list_fmap_ext. intros _ t _. simpl.
  destruct (bool_decide_reflect
              (Image.id <$> Task.data t = Some (Image.id image))) as [E|E].
  - rewrite bool_decide_eq_true_2; [done|]. simpl. by rewrite Hid.
  - by rewrite bool_decide_eq_false_2.
Qed.

(** The state the updaters build, written out. *)
Lemma toggleFavoriteWith_eq seenOpen image s :
  let updated := Image.with_isFavorite (negb (Image.favorite image)) image in
  let swap := λ img, if bool_decide (Image.id img = Image.id image)
                     then updated else img in
  let retag := λ t, if bool_decide (Image.id <$> Task.data t
                                    = Some (Image.id image))
                    then Task.with_data updated t else t in
  toggleFavoriteWith seenOpen image None s
  = App.mk (App.apiKey s) (App.baseUrl s) (App.isKeyModalOpen s)
      (App.activeTab s) (App.params s) (App.prompt s) (App.selectedStyleId s)
      (App.referenceImages s) (App.showConfig s) (App.allPresets s)
      (retag <$> App.tasks s) (swap <$> App.gallery s)
      (Lightbox.mk (Lightbox.isOpen (App.lightboxState s))
         (if seenOpen then swap <$> Lightbox.images (App.lightboxState s)
          else Lightbox.images (App.lightboxState s))
         (Lightbox.currentIndex (App.lightboxState s)))
      (Storage.mk (<[Image.id image := updated]> (Storage.images (App.db s)))
                  (Storage.presets (App.db s)))
      (App.inflight s).
Proof.
  destruct seenOpen, s as [? ? ? ? ? ? ? ? ? ? ? ? [? ? ?] ? ?]; reflexivity.
Qed.

(** X15. A second favorite toggle made from the same render, with the
    same copy of the image, as happens when the heart is clicked twice
    before the card is drawn again, changes nothing: the flag is flipped
    once, not back. A toggle made with the updated copy flips it back, and
    then the store holds the image with the flag it had, as an explicit
    boolean. *)
Theorem handleToggleFavorite_twice image rendered rendered' s :
  let once := handleToggleFavorite image None rendered s in
  let updated := Image.with_isFavorite (negb (Image.favorite image)) image in
  let back := handleToggleFavorite updated None rendered' once in
  handleToggleFavorite image None rendered once = once ∧
  Storage.images (App.db back) !! Image.id image
  = Some (Image.with_isFavorite (Image.favorite image) image) ∧
  (is_Some (Image.isFavorite image) →
   Storage.images (App.db back) !! Image.id image = Some image).
Proof.
  cbv zeta. unfold handleToggleFavorite.
  generalize (Lightbox.isOpen (App.lightboxState rendered)) as o.
  generalize (Lightbox.isOpen (App.lightboxState rendered')) as o'.
  intros o' o.
  assert (Storage.images
            (App.db (toggleFavoriteWith o'
               (Image.with_isFavorite (negb (Image.favorite image)) image)
               None (toggleFavoriteWith o image None s)))
            !! Image.id image
          = Some (Image.with_isFavorite (Image.favorite image) image)) as Hback.
  { destruct (toggleFavoriteWith_state o'
                (Image.with_isFavorite (negb (Image.favorite image)) image)
                (toggleFavoriteWith o image None s)) as (Hdb & _).
    rewrite Hdb. unfold Storage.saveImage. cbn [Storage.images].
    change (Image.id (Image.with_isFavorite _ image)) with (Image.id image).
    rewrite lookup_insert_eq. f_equal.
    unfold Image.with_isFavorite, Image.favorite.
    cbn [Image.id Image.batchId Image.url Image.prompt Image.aspectRatio
         Image.resolution Image.timestamp Image.styleId
         Image.referenceImages Image.isFavorite default from_option id].
    by rewrite negb_involutive. }
  split; [|split; [exact Hback|]].
  - rewrite (toggleFavoriteWith_eq o image (toggleFavoriteWith o image None s)).
    rewrite !(toggleFavoriteWith_eq o image s).
    cbn [App.apiKey App.baseUrl App.isKeyModalOpen App.activeTab App.params
         App.prompt App.selectedStyleId App.referenceImages App.showConfig
         App.allPresets App.tasks App.gallery App.lightboxState App.db
         App.inflight Lightbox.isOpen Lightbox.images Lightbox.currentIndex
         Storage.images Storage.presets].
    rewrite insert_insert_eq.
    rewrite (retag_retag image _ (App.tasks s)) by done.
    rewrite (swap_swap image _ (App.gallery s)) by done.
    destruct o; [|done].
    by rewrite (swap_swap image _ (Lightbox.images (App.lightboxState s))).
  - intros [b Hb]. rewrite Hback. f_equal.
    destruct image. simpl in *. by subst.
Qed.

(** ** The style dialog *)

Lemma deletePreset_keyed id db :
  Storage.keyed db → Storage.keyed (Storage.deletePreset id db).
Proof.
  intros [Hi Hp]. split; [done|]. intros k q. simpl.
  destruct (decide (id = k)) as [<-|Hne].
  - by rewrite lookup_delete_eq.
  - rewrite lookup_delete_ne by done. apply Hp.
Qed.

Lemma getAllPresets_elem db p :
  Storage.keyed db →
  p ∈ Storage.getAllPresets db ↔ Storage.presets db !! Preset.id p = Some p.
Proof.
  intros [_ Hp]. unfold Storage.getAllPresets. split.
  - intros H. apply list_elem_of_fmap in H as ([k x] & -> & H).
    apply elem_of_map_to_list in H. simpl. by rewrite (Hp _ _ H).
  - intros H. apply list_elem_of_fmap. exists (Preset.id p, p).
    split; [done|]. by apply elem_of_map_to_list.
Qed.

(** With the preset cache fresh from a keyed store, the preset found for
    the selected id is the record the store holds under that id. *)
Lemma selectedStyle_lookup s :
  Storage.keyed (App.db s) →
  App.allPresets s = Storage.getAllPresets (App.db s) →
  selectedStyle s = Storage.presets (App.db s) !! App.selectedStyleId s.
Proof.
  intros Hkeyed Hcache. unfold selectedStyle. rewrite Hcache.
  destruct (List.find _ _) as [q|] eqn:Hf.
  - apply find_some in Hf as [Hin Hid].
    apply bool_decide_eq_true in Hid. apply list_elem_of_In in Hin.
    apply getAllPresets_elem in Hin; [|done]. by rewrite <- Hid.
  - destruct (Storage.presets (App.db s) !! App.selectedStyleId s)
      as [p|] eqn:Hl; [|done].
    assert (Preset.id p = App.selectedStyleId s) as Hid
      by (destruct Hkeyed as [_ Hp]; by apply Hp).
    assert (p ∈ Storage.getAllPresets (App.db s)) as Hin
      by (apply getAllPresets_elem; [done|by rewrite Hid]).
    apply list_elem_of_In in Hin. apply (find_none _ _ Hf) in Hin.
    by apply bool_decide_eq_false in Hin.
Qed.

Lemma handleSaveStyle_fields now s f :
  StyleForm.styleFormName f ≠ "" → StyleForm.styleFormDesc f ≠ "" →
  let st' := handleSaveStyle now None (s, f) in
  App.db st'.1 = Storage.savePreset (formPreset now f) (App.db s) ∧
  App.allPresets st'.1 = Storage.getAllPresets (App.db st'.1) ∧
  App.selectedStyleId st'.1 = Preset.id (formPreset now f) ∧
  App.prompt st'.1 = App.prompt s ∧
  App.referenceImages st'.1 = App.referenceImages s ∧
  App.apiKey st'.1 = App.apiKey s ∧
  App.inflight st'.1 = App.inflight s ∧
  st'.2 = setStyleModalOpen false f.
Proof.
  intros Hn Hd. unfold handleSaveStyle.
  apply truthy_true in Hn, Hd. rewrite Hn, Hd. by destruct s.
Qed.

Lemma formPreset_refs now f :
  default [] (Preset.referenceImages (formPreset now f))
  = StyleForm.styleFormImages f.
Proof.
  simpl. case_bool_decide as E; [done|].
  destruct (StyleForm.styleFormImages f); [done|simpl in E; lia].
Qed.

Lemma custom_not_none x : "custom-" +:+ x ≠ "none".
Proof. done. Qed.

(** The calls of the submission that follows a saved style. *)
Lemma handleSaveStyle_next_calls now now' s f c :
  Storage.keyed (App.db s) →
  StyleForm.styleFormName f ≠ "" → StyleForm.styleFormDesc f ≠ "" →
  ¬ missingCredential s → ¬ nothingToSubmit None None s →
  Preset.id (formPreset now f) ≠ "none" →
  c ∈ drop (length (App.inflight s))
        (App.inflight (handleGenerate now' None None
                         (handleSaveStyle now None (s, f)).1)) →
  Call.prompt c = StyleForm.styleFormDesc f +:+ ". " +:+ App.prompt s ∧
  Call.referenceImages c
  = App.referenceImages s ++ StyleForm.styleFormImages f ∧
  Call.styleId c = Preset.id (formPreset now f).
Proof.
  intros Hkeyed Hn Hd Hcred Hsub Hnone Hc.
  destruct (handleSaveStyle_fields now s f Hn Hd)
    as (Hdb & Hcache & Hsel & Hprompt & Hrefs & Hkey & Hinfl & Hf).
  set (st' := handleSaveStyle now None (s, f)) in *.
  assert (Storage.keyed (App.db st'.1)) as Hkeyed'
    by (rewrite Hdb; by apply savePreset_keyed).
  assert (selectedStyle st'.1 = Some (formPreset now f)) as Hstyle.
  { rewrite selectedStyle_lookup, Hsel, Hdb by done. apply lookup_insert_eq. }
  assert (handleGenerate now' None None st'.1
          = submit now' None None st'.1) as Hgen.
  { apply handleGenerate_submit.
    - unfold missingCredential in *. by rewrite Hkey.
    - unfold nothingToSubmit, effectivePrompt, effectiveRefImages in *.
      simpl in *. by rewrite Hprompt, Hrefs. }
  rewrite Hgen, <- Hinfl in Hc. rewrite submit_inflight in Hc.
  rewrite drop_app_length in Hc.
  apply list_elem_of_fmap in Hc as (t & -> & _). simpl.
  unfold finalPrompt, finalRefImages, effectivePrompt, effectiveRefImages.
  rewrite Hstyle, formPreset_refs, Hprompt, Hrefs, Hsel. simpl.
  by rewrite bool_decide_eq_false_2.
Qed.

(** X16. Saving the style dialog with a name and a description stores
    the preset built from the form under its id, replacing what the store
    held there and leaving the other presets, refreshes the preset cache,
    selects the preset and closes the dialog. A new style gets the id
    ["custom-{now}"]. The selected style then resolves to the saved
    preset, so that the next submission sends the description in front of
    the prompt and the form's images behind the user's, unless the id is
    ["none"]. *)
Theorem handleSaveStyle_selects_saved now now' s f :
  Storage.keyed (App.db s) →
  StyleForm.styleFormName f ≠ "" → StyleForm.styleFormDesc f ≠ "" →
  let st' := handleSaveStyle now None (s, f) in
  let preset := formPreset now f in
  Storage.presets (App.db st'.1) !! Preset.id preset = Some preset ∧
  (∀ id, id ≠ Preset.id preset →
         Storage.presets (App.db st'.1) !! id
         = Storage.presets (App.db s) !! id) ∧
  (∀ p, p ∈ App.allPresets st'.1
        ↔ Storage.presets (App.db st'.1) !! Preset.id p = Some p) ∧
  selectedStyle st'.1 = Some preset ∧
  StyleForm.isStyleModalOpen st'.2 = false ∧
  (editing f = None → Preset.id preset = "custom-" +:+ pretty now) ∧
  (∀ e, editing f = Some e → Preset.id preset = e) ∧
  (¬ missingCredential s → ¬ nothingToSubmit None None s →
   Preset.id preset ≠ "none" →
   ∀ c, c ∈ drop (length (App.inflight s))
              (App.inflight (handleGenerate now' None None st'.1)) →
        Call.prompt c
        = StyleForm.styleFormDesc f +:+ ". " +:+ App.prompt s ∧
        Call.referenceImages c
        = App.referenceImages s ++ StyleForm.styleFormImages f ∧
        Call.styleId c = Preset.id preset).
Proof.
  intros Hkeyed Hn Hd. cbv zeta.
  destruct (handleSaveStyle_fields now s f Hn Hd)
    as (Hdb & Hcache & Hsel & Hprompt & Hrefs & Hkey & Hinfl & Hf).
  assert (Storage.keyed (App.db (handleSaveStyle now None (s, f)).1))
    as Hkeyed' by (rewrite Hdb; by apply savePreset_keyed).
  split; [rewrite Hdb; apply lookup_insert_eq|].
  split; [intros id Hid; rewrite Hdb; by apply lookup_insert_ne|].
  split; [intros p; rewrite Hcache; by apply getAllPresets_elem|].
  split.
  { rewrite selectedStyle_lookup, Hsel, Hdb by done. apply lookup_insert_eq. }
  split; [by rewrite Hf|].
  split; [intros E; unfold formPreset; simpl; by rewrite E|].
  split; [intros e E; unfold formPreset; simpl; by rewrite E|].
  intros Hcred Hsub Hnone c Hc.
  by apply (handleSaveStyle_next_calls now now').
Qed.

Lemma handleSaveStyle_selects_saved_witness :
  selectedStyle
    (handleSaveStyle 1000 None
       (sample, StyleForm.mk true None "Sketch" "pencil sketch" ""
                  ["user.png"])).1
  = Some (Preset.mk "custom-1000" "Sketch" "pencil sketch" (Some "")
            (Some ["user.png"])).
Proof.
  destruct (handleSaveStyle_selects_saved 1000 2000 sample
              (StyleForm.mk true None "Sketch" "pencil sketch" ""
                 ["user.png"])) as (_ & _ & _ & Hsel & _).
  - apply empty_keyed.
  - done.
  - done.
  - exact Hsel.
Defined.

(** X17. The dialog for a new style starts from the reference images
    staged in the composer and leaves them staged. Once the style is
    saved it is selected, so the next submission sends every staged image
    twice: once as the user's and once as the style's. *)
Theorem openCreateStyleModal_then_generate now now' name icon desc s :
  Storage.keyed (App.db s) →
  ¬ missingCredential s → ¬ nothingToSubmit None None s →
  name ≠ "" → desc ≠ "" →
  let f := setStyleFormText name icon desc (openCreateStyleModal s) in
  let st' := handleSaveStyle now None (s, f) in
  StyleForm.styleFormImages f = App.referenceImages s ∧
  App.referenceImages st'.1 = App.referenceImages s ∧
  App.selectedStyleId st'.1 = "custom-" +:+ pretty now ∧
  ∀ c, c ∈ drop (length (App.inflight s))
             (App.inflight (handleGenerate now' None None st'.1)) →
       Call.prompt c = desc +:+ ". " +:+ App.prompt s ∧
       Call.referenceImages c
       = App.referenceImages s ++ App.referenceImages s.
Proof.
  intros Hkeyed Hcred Hsub Hn Hd. cbv zeta.
  set (f := setStyleFormText name icon desc (openCreateStyleModal s)).
  assert (StyleForm.styleFormImages f = App.referenceImages s) as Himgs.
  { simpl. case_bool_decide as E; [done|].
    destruct (App.referenceImages s); [done|simpl in E; lia]. }
  destruct (handleSaveStyle_fields now s f Hn Hd)
    as (_ & _ & Hsel & _ & Hrefs & _).
  split; [done|]. split; [done|]. split; [done|].
  intros c Hc.
  apply (handleSaveStyle_next_calls now now' s f c) in Hc
    as (Hp & Hr & _); try done.
  by rewrite Hp, Hr, Himgs.
Qed.

Lemma openCreateStyleModal_then_generate_witness :
  Forall (λ c, Call.referenceImages c = ["user.png"; "user.png"])
    (App.inflight
       (handleGenerate 2000 None None
          (handleSaveStyle 1000 None
             (styled,
              setStyleFormText "Sketch" "" "pencil sketch"
                (openCreateStyleModal styled))).1)).
Proof.
  apply Forall_forall. intros c Hc.
  destruct (openCreateStyleModal_then_generate 1000 2000
              "Sketch" "" "pencil sketch" styled) as (_ & _ & _ & Hcalls).
  - apply empty_keyed.
  - by_compute.
  - by_compute.
  - done.
  - done.
  - by destruct (Hcalls c Hc) as [_ ->].
Defined.
